(** * Ford-Fulkerson maximum flow and minimum s-t cut (maxflow_mincut.cc)

    A shallow embedding of [bfs], [fordFulkerson], [findMinCut] and [main],
    followed by the properties of the program.

    Conventions of the embedding.
    - [int] is a 32-bit two's complement integer: values are in [Z] and every
      [+] / [-] of the source is followed by [int_wrap].
    - [vector<T>] is [list T].  The table is NODE_COUNT x NODE_COUNT, as
      [main] builds it ([wf_graph]); indexing any other table is undefined in
      the source, and the properties are stated for such tables only.
      [operator[]] and [at] are [nth]; the parent
      id read back from the path buffer is the only index that is not a loop
      counter, and it is range-checked by the model ([OutOfBounds]).  The
      path buffer has NODE_COUNT entries wherever the program calls [bfs]
      (lines 148-151), so [at] never throws; the lemmas carry that length.
    - the loops without a counter ([while(!bfs_q.empty())], the two parent
      walks, [while(bfs(...))]) carry fuel; running out of fuel is the outcome
      [OutOfFuel].
    - what is written to [cout] is returned: the eleven edge flows of
      [fordFulkerson], the text of [findMinCut]. *)

From Stdlib Require Import String ZArith List Lia Bool Arith Sorted.
Import ListNotations.

Open Scope Z_scope.

(* ------------------------------------------------------------------ *)
(** ** Constants and [int] arithmetic *)

Definition SOURCE_NODE_ID : nat := 0.
Definition TARGET_NODE_ID : nat := 5.
Definition NODE_COUNT : nat := 6.
Definition INVALID_PARENT : Z := -1.

Definition INT_MAX : Z := 2147483647.
Definition INT_MIN : Z := -2147483648.

Definition int_wrap (z : Z) : Z := (z - INT_MIN) mod 4294967296 + INT_MIN.
Definition int_add (a b : Z) : Z := int_wrap (a + b).
Definition int_sub (a b : Z) : Z := int_wrap (a - b).

Definition is_int (z : Z) : Prop := INT_MIN <= z <= INT_MAX.

Definition nodeName : list string :=
  ["s"; "w"; "x"; "z"; "y"; "t"]%string.

(* ------------------------------------------------------------------ *)
(** ** The two classes *)

Record residualGraphNode : Type := mkNode {
  id_ : Z;
  parent_id_ : Z
}.

Definition getId (n : residualGraphNode) : Z := id_ n.
Definition getParentId (n : residualGraphNode) : Z := parent_id_ n.
Definition setParentId (parent_id : Z) (n : residualGraphNode) : residualGraphNode :=
  mkNode (id_ n) parent_id.

Record residualGraphEdge : Type := mkEdge {
  residual_capacity_ : Z;
  original_capacity_ : Z
}.

Definition getResidualCapacity (e : residualGraphEdge) : Z := residual_capacity_ e.
Definition getOriginalCapacity (e : residualGraphEdge) : Z := original_capacity_ e.
Definition setResidualCapacity (residual_capacity : Z) (e : residualGraphEdge) :=
  mkEdge residual_capacity (original_capacity_ e).
Definition setOriginalCapacity (original_capacity : Z) (e : residualGraphEdge) :=
  mkEdge (residual_capacity_ e) original_capacity.

(* ------------------------------------------------------------------ *)
(** ** Vectors *)

Fixpoint vec_set {A : Type} (l : list A) (i : nat) (x : A) : list A :=
  match l, i with
  | [], _ => []
  | _ :: t, O => x :: t
  | h :: t, S j => h :: vec_set t j x
  end.

Definition graph_t : Type := list (list residualGraphEdge).
Abbreviation path_t := (list residualGraphNode) (only parsing).

Definition no_edge : residualGraphEdge := mkEdge 0 0.
Definition no_node : residualGraphNode := mkNode 0 INVALID_PARENT.

(** [graph[u][v]] *)
Definition edge_at (graph : graph_t) (u v : nat) : residualGraphEdge :=
  nth v (nth u graph []) no_edge.

(** [graph[u][v] = e] *)
Definition edge_put (graph : graph_t) (u v : nat) (e : residualGraphEdge) : graph_t :=
  vec_set graph u (vec_set (nth u graph []) v e).

Definition res (graph : graph_t) (u v : nat) : Z :=
  getResidualCapacity (edge_at graph u v).
Definition cap (graph : graph_t) (u v : nat) : Z :=
  getOriginalCapacity (edge_at graph u v).

(** [graph[u][v].setResidualCapacity(r)] *)
Definition set_res (graph : graph_t) (u v : nat) (r : Z) : graph_t :=
  edge_put graph u v (setResidualCapacity r (edge_at graph u v)).
(** [graph[u][v].setOriginalCapacity(c)] *)
Definition set_cap (graph : graph_t) (u v : nat) (c : Z) : graph_t :=
  edge_put graph u v (setOriginalCapacity c (edge_at graph u v)).

(** [path[v].getParentId()] and [path[v].setParentId(p)] *)
Definition parent_of (path : path_t) (v : nat) : Z :=
  getParentId (nth v path no_node).
Definition set_parent (path : path_t) (v : nat) (p : Z) : path_t :=
  vec_set path v (setParentId p (nth v path no_node)).

(* ------------------------------------------------------------------ *)
(** ** Outcomes of code that may index out of bounds or loop *)

Inductive outcome (A : Type) : Type :=
| Ok (a : A)
| OutOfBounds
| OutOfFuel.
Arguments Ok {A} a.
Arguments OutOfBounds {A}.
Arguments OutOfFuel {A}.

Definition bind {A B : Type} (m : outcome A) (k : A -> outcome B) : outcome B :=
  match m with
  | Ok a => k a
  | OutOfBounds => OutOfBounds
  | OutOfFuel => OutOfFuel
  end.

Notation "x <- m ;; k" := (bind m (fun x => k))
  (at level 61, m at next level, right associativity).
Notation "' p <- m ;; k" := (bind m (fun x => let p := x in k))
  (at level 61, p pattern, m at next level, right associativity).

(* ------------------------------------------------------------------ *)
(** ** bfs *)

(** The locals of [bfs] ([trav], [bfs_q]) and the path buffer it writes to.
    The three pointer parameters are [option]s, [NULL] being [None]. *)
Record bfs_state : Type := mkBfs {
  trav : list bool;
  bfs_q : list nat;
  parents : option path_t
}.

(** Body of the inner [for] loop, lines 97-108. *)
Definition visit (graph : graph_t) (node_id : nat) (st : bfs_state) (next_node : nat)
  : bfs_state :=
  if negb (nth next_node (trav st) false) && (0 <? res graph node_id next_node)
  then mkBfs (vec_set (trav st) next_node true)
             (bfs_q st ++ [next_node])
             (option_map (fun p => set_parent p next_node (Z.of_nat node_id)) (parents st))
  else st.

(** The inner [for] loop, [next_node] from 0 to NODE_COUNT - 1. *)
Definition scan (graph : graph_t) (node_id : nat) (st : bfs_state) : bfs_state :=
  fold_left (visit graph node_id) (seq 0 NODE_COUNT) st.

(** The [while(!bfs_q.empty())] loop. *)
Fixpoint bfs_while (fuel : nat) (graph : graph_t) (st : bfs_state) : outcome bfs_state :=
  match bfs_q st with
  | [] => Ok st
  | node_id :: rest =>
      match fuel with
      | O => OutOfFuel
      | S fuel' =>
          bfs_while fuel' graph
            (scan graph node_id (mkBfs (trav st) rest (parents st)))
      end
  end.

(** Lines 119-128: both buffers are filled, or neither. *)
Definition partition_nodes (tr : list bool) (sPath tPath : option (list nat))
  : option (list nat) * option (list nat) :=
  match sPath, tPath with
  | Some sp, Some tp =>
      let '(sp', tp') :=
        fold_left (fun '(a, b) i =>
                     if nth i tr false then (a ++ [i], b) else (a, b ++ [i]))
                  (seq 0 NODE_COUNT) (sp, tp) in
      (Some sp', Some tp')
  | _, _ => (sPath, tPath)
  end.

(** The return value, and the three buffers as the call leaves them. *)
Record bfs_result : Type := mkBfsResult {
  reached : bool;
  sPath_out : option (list nat);
  tPath_out : option (list nat);
  outPath_out : option path_t
}.

Definition bfs_init (outPath : option path_t) : bfs_state :=
  mkBfs (vec_set (repeat false NODE_COUNT) SOURCE_NODE_ID true)
        [SOURCE_NODE_ID] outPath.

(** Every node enters the queue at most once, so NODE_COUNT rounds of the
    [while] loop are enough ([bfs_while_run] below). *)
Definition bfs (graph : graph_t) (sPath tPath : option (list nat))
  (outPath : option path_t) : outcome bfs_result :=
  st <- bfs_while NODE_COUNT graph (bfs_init outPath) ;;
  let '(sp, tp) := partition_nodes (trav st) sPath tPath in
  Ok (mkBfsResult (nth TARGET_NODE_ID (trav st) false) sp tp (parents st)).

(* ------------------------------------------------------------------ *)
(** ** fordFulkerson *)

Definition valid_index (p : Z) : bool := (0 <=? p) && (p <? Z.of_nat NODE_COUNT).

(** Lines 163-169: the bottleneck of the parent chain. *)
Fixpoint min_flow_walk (fuel : nat) (graph : graph_t) (path : path_t)
  (node_id : nat) (min_flow_in_path : Z) : outcome Z :=
  if Nat.eqb node_id SOURCE_NODE_ID then Ok min_flow_in_path
  else match fuel with
       | O => OutOfFuel
       | S fuel' =>
           let parent_node_id := parent_of path node_id in
           if valid_index parent_node_id then
             let p := Z.to_nat parent_node_id in
             let m := if res graph p node_id <? min_flow_in_path
                      then res graph p node_id else min_flow_in_path in
             min_flow_walk fuel' graph path p m
           else OutOfBounds
       end.

(** Lines 173-188: push the bottleneck along the chain, clearing it. *)
Fixpoint push_flow_walk (fuel : nat) (graph : graph_t) (path : path_t)
  (node_id : nat) (min_flow_in_path : Z) : outcome (graph_t * path_t) :=
  if Nat.eqb node_id SOURCE_NODE_ID then Ok (graph, path)
  else match fuel with
       | O => OutOfFuel
       | S fuel' =>
           let parent_node_id := parent_of path node_id in
           let path1 := set_parent path node_id INVALID_PARENT in
           if valid_index parent_node_id then
             let p := Z.to_nat parent_node_id in
             let g1 := set_res graph p node_id
                         (int_sub (res graph p node_id) min_flow_in_path) in
             let g2 := set_res g1 node_id p
                         (int_add (res g1 node_id p) min_flow_in_path) in
             push_flow_walk fuel' g2 path1 p min_flow_in_path
           else OutOfBounds
       end.

Record ff_state : Type := mkFF {
  ff_graph : graph_t;
  ff_path : path_t;
  ff_flow : Z
}.

(** One round of the [while(bfs(...))] loop: [None] when bfs reports no
    augmenting path, otherwise the bottleneck and the state after the body.
    A parent chain with no repeated node has at most NODE_COUNT - 1 edges, so
    a walk that is still running after NODE_COUNT steps never ends. *)
Definition augment (s : ff_state) : outcome (option (Z * ff_state)) :=
  r <- bfs (ff_graph s) None None (Some (ff_path s)) ;;
  match outPath_out r with
  | None => OutOfBounds
  | Some path1 =>
      if reached r then
        min_flow <- min_flow_walk NODE_COUNT (ff_graph s) path1 TARGET_NODE_ID INT_MAX ;;
        ' (g', path2) <- push_flow_walk NODE_COUNT (ff_graph s) path1 TARGET_NODE_ID min_flow ;;
        Ok (Some (min_flow, mkFF g' path2 (int_add (ff_flow s) min_flow)))
      else Ok None
  end.

(** The loop at lines 154-189.  The path buffer is local to [fordFulkerson]
    and is not read once [bfs] has returned false. *)
Fixpoint ff_loop (fuel : nat) (s : ff_state) : outcome ff_state :=
  r <- augment s ;;
  match r with
  | None => Ok s
  | Some (_, s') =>
      match fuel with
      | O => OutOfFuel
      | S fuel' => ff_loop fuel' s'
      end
  end.

Definition edge_flow (graph : graph_t) (u v : nat) : Z :=
  int_sub (cap graph u v) (res graph u v).

(** Lines 198-208, the eleven numbers written to the console. *)
Definition printed_flows (graph : graph_t) : list (string * Z) :=
  [ ("s->w", edge_flow graph 0 1); ("s->x", edge_flow graph 0 2);
    ("s->z", edge_flow graph 0 3); ("w->y", edge_flow graph 1 4);
    ("w->t", edge_flow graph 1 5); ("x->w", edge_flow graph 2 1);
    ("x->z", edge_flow graph 2 3); ("x->y", edge_flow graph 2 4);
    ("z->y", edge_flow graph 3 4); ("z->t", edge_flow graph 3 5);
    ("y->w", edge_flow graph 4 5) ]%string.

Definition init_path : path_t :=
  map (fun i => mkNode (Z.of_nat i) INVALID_PARENT) (seq 0 NODE_COUNT).

Record ff_result : Type := mkFFResult {
  max_flow : Z;
  residualGraph : graph_t;
  flows_out : list (string * Z)
}.

Definition fordFulkerson (fuel : nat) (graph : graph_t) : outcome ff_result :=
  s <- ff_loop fuel (mkFF graph init_path 0) ;;
  Ok (mkFFResult (ff_flow s) (ff_graph s) (printed_flows (ff_graph s))).

(* ------------------------------------------------------------------ *)
(** ** findMinCut *)

Definition name_of (i : nat) : string := nth i nodeName ""%string.

Definition endl : string := String (Ascii.ascii_of_nat 10) EmptyString.

Definition still_augmenting : list string :=
  [("The residual graph still has one or more augmenting paths. "
    ++ "Failed to compute minimum s-t cut." ++ endl)%string].

(** Lines 228-239: what is written when the partition is printed. *)
Definition cut_report (sPath tPath : list nat) : list string :=
  [(endl ++ "Minimum s-t cut " ++ endl)%string;
   ("Nodes at the s side:" ++ endl)%string]
  ++ flat_map (fun i => [name_of i; " "%string]) sPath
  ++ [endl; ("Nodes at the t side:" ++ endl)%string]
  ++ flat_map (fun i => [name_of i; " "%string]) tPath
  ++ [endl].

(** The text [findMinCut] writes to the console, piece by piece. *)
Definition findMinCut (graph : graph_t) : outcome (list string) :=
  r <- bfs graph (Some []) (Some []) None ;;
  match sPath_out r, tPath_out r with
  | Some sPath, Some tPath =>
      if reached r then Ok still_augmenting
      else Ok (cut_report sPath tPath)
  | _, _ => OutOfBounds
  end.

(* ------------------------------------------------------------------ *)
(** ** main *)

Definition empty_graph : graph_t :=
  repeat (repeat (mkEdge 0 0) NODE_COUNT) NODE_COUNT.

Definition edge_of (u v : nat) (c : Z) : nat * nat * Z := (u, v, c).

Definition main_edges : list (nat * nat * Z) :=
  [ edge_of 0 1 4; edge_of 0 2 7; edge_of 0 3 10; edge_of 1 4 2;
    edge_of 1 5 10; edge_of 2 1 2; edge_of 2 3 2; edge_of 2 4 10;
    edge_of 3 4 2; edge_of 3 5 6; edge_of 4 5 7 ].

(** Lines 256-293: an empty table, then the residual and the original
    capacity of every input edge. *)
Definition graph_of (edges : list (nat * nat * Z)) : graph_t :=
  let g1 := fold_left (fun g '(u, v, c) => set_res g u v c) edges empty_graph in
  fold_left (fun g '(u, v, c) => set_cap g u v c) edges g1.

Definition main_graph : graph_t := Eval vm_compute in graph_of main_edges.

Definition main (fuel : nat) : outcome (ff_result * list string) :=
  r <- fordFulkerson fuel main_graph ;;
  c <- findMinCut (residualGraph r) ;;
  Ok (r, c).

(* ================================================================== *)
(** * Vocabulary of the properties *)

(** ** Tables *)

(** A NODE_COUNT x NODE_COUNT table, as [main] builds it. *)
Definition wf_graph (g : graph_t) : Prop :=
  length g = NODE_COUNT /\ Forall (fun row => length row = NODE_COUNT) g.

(** Every stored number is a value of type [int]. *)
Definition int_graph (g : graph_t) : Prop :=
  forall u v, is_int (res g u v) /\ is_int (cap g u v).

(** A table as [main] fills it: residual equal to original capacity. *)
Definition fresh (g : graph_t) : Prop := forall u v, res g u v = cap g u v.

Definition nonneg_caps (g : graph_t) : Prop := forall u v, 0 <= cap g u v.

Definition sumZ (f : nat -> Z) (l : list nat) : Z :=
  fold_right (fun i acc => f i + acc) 0 l.

Definition nodes : list nat := seq 0 NODE_COUNT.

(** No addition of the run can leave the range of [int]. *)
Definition pair_bound (g : graph_t) : Prop :=
  forall u v, u <> v -> cap g u v + cap g v u <= INT_MAX.

Definition source_bound (g : graph_t) : Prop :=
  sumZ (cap g SOURCE_NODE_ID) nodes <= INT_MAX.

(** Boolean versions, to check a concrete table by evaluation. *)
Definition wf_graphb (g : graph_t) : bool :=
  Nat.eqb (length g) NODE_COUNT &&
  forallb (fun row => Nat.eqb (length row) NODE_COUNT) g.

Definition is_intb (z : Z) : bool := (INT_MIN <=? z) && (z <=? INT_MAX).

Definition int_graphb (g : graph_t) : bool :=
  forallb (forallb (fun e => is_intb (residual_capacity_ e) &&
                             is_intb (original_capacity_ e))) g.

Definition check2 (t : nat -> nat -> bool) : bool :=
  forallb (fun u => forallb (t u) (seq 0 NODE_COUNT)) (seq 0 NODE_COUNT).

Definition freshb (g : graph_t) : bool :=
  check2 (fun u v => res g u v =? cap g u v).
Definition nonneg_capsb (g : graph_t) : bool :=
  check2 (fun u v => 0 <=? cap g u v).
Definition pair_boundb (g : graph_t) : bool :=
  check2 (fun u v => cap g u v + cap g v u <=? INT_MAX).

(** Other inputs, built the way [main] builds its own. *)

(** An edge from the source to the sink and one back, both of capacity
    INT_MAX. *)
Definition overflow_graph : graph_t :=
  Eval vm_compute in graph_of [edge_of 0 5 INT_MAX; edge_of 5 0 INT_MAX].

(** Two disjoint paths, each able to carry INT_MAX. *)
Definition wide_graph : graph_t :=
  Eval vm_compute in
    graph_of [edge_of 0 1 INT_MAX; edge_of 1 5 INT_MAX;
              edge_of 0 2 INT_MAX; edge_of 2 5 INT_MAX].

(** s -> w -> x -> t with capacity 5, and an input edge x -> w of capacity 3. *)
Definition antiparallel_graph : graph_t :=
  Eval vm_compute in
    graph_of [edge_of 0 1 5; edge_of 1 2 5; edge_of 2 1 3; edge_of 2 5 5].

(** A single edge s -> t of capacity -3. *)
Definition negative_graph : graph_t :=
  Eval vm_compute in graph_of [edge_of 0 5 (-3)].

(** ** The search *)

(** Nodes reachable from the source along edges of positive residual
    capacity. *)
Inductive reach (g : graph_t) : nat -> Prop :=
| reach_source : reach g SOURCE_NODE_ID
| reach_step u v :
    reach g u -> (v < NODE_COUNT)%nat -> 0 < res g u v -> reach g v.

(** Invariant of the two loops of [bfs]; [order] lists the nodes marked so
    far, in the order they were marked. *)
Record bfs_inv (g : graph_t) (order : list nat) (st : bfs_state) : Prop := {
  inv_len : length (trav st) = NODE_COUNT;
  inv_nodup : NoDup order;
  inv_trav : forall v, nth v (trav st) false = true <-> In v order;
  inv_range : forall v, In v order -> (v < NODE_COUNT)%nat;
  inv_head : exists rest, order = SOURCE_NODE_ID :: rest;
  inv_reach : forall v, In v order -> reach g v;
  inv_parent : forall p, parents st = Some p ->
      length p = NODE_COUNT /\
      forall l1 v l2, order = l1 ++ v :: l2 -> l1 <> [] ->
        exists u, In u l1 /\ parent_of p v = Z.of_nat u /\ 0 < res g u v
}.

(** Every positive edge out of [dn] leads into [order]. *)
Definition closed (g : graph_t) (dn order : list nat) : Prop :=
  forall u v, In u dn -> (v < NODE_COUNT)%nat -> 0 < res g u v -> In v order.

(** Two searches that differ in the content of the path buffer only. *)
Definition same_search (st1 st2 : bfs_state) : Prop :=
  trav st1 = trav st2 /\ bfs_q st1 = bfs_q st2 /\
  exists p1 p2,
    parents st1 = Some p1 /\ parents st2 = Some p2 /\
    length p1 = NODE_COUNT /\ length p2 = NODE_COUNT /\
    forall v, v <> SOURCE_NODE_ID -> nth v (trav st1) false = true ->
              parent_of p1 v = parent_of p2 v.

(** What a search has not written yet in the buffer [p0] it was given. *)
Definition untouched (p0 : path_t) (st : bfs_state) : Prop :=
  length (trav st) = NODE_COUNT /\
  nth SOURCE_NODE_ID (trav st) false = true /\
  exists p,
    parents st = Some p /\ length p = length p0 /\
    forall v,
      getId (nth v p no_node) = getId (nth v p0 no_node) /\
      (nth v (trav st) false = false \/ v = SOURCE_NODE_ID ->
       parent_of p v = parent_of p0 v).

(** The number the assignments of [edges] leave for the pair (u, v),
    starting from [acc]: the last one wins. *)
Definition pick (u v : nat) (acc : Z) (e : nat * nat * Z) : Z :=
  let '(u', v', c) := e in
  if Nat.eqb u' u && Nat.eqb v' v then c else acc.

(** [walk g k v]: [k] edges of positive residual capacity lead from the
    source to [v]. *)
Inductive walk (g : graph_t) : nat -> nat -> Prop :=
| walk_source : walk g 0 SOURCE_NODE_ID
| walk_step k u v :
    walk g k u -> (v < NODE_COUNT)%nat -> 0 < res g u v -> walk g (S k) v.

(** Levels of the search while it scans the neighbours of [u]: [dn] are the
    nodes scanned before, [d] is the number of edges on the parent chain of
    each marked node.  The queue is sorted by level and spans at most two
    levels. *)
Record level_inv (g : graph_t) (d : nat -> nat) (dn : list nat) (u : nat)
    (st : bfs_state) : Prop := {
  lv_source : d SOURCE_NODE_ID = 0%nat;
  lv_sorted : StronglySorted (fun a b => (d a <= d b)%nat) (bfs_q st);
  lv_queue : forall w, In w (bfs_q st) -> (d u <= d w)%nat;
  lv_bound : forall v, In v (dn ++ u :: bfs_q st) -> (d v <= S (d u))%nat;
  lv_done : forall x v, In x dn -> In v (dn ++ u :: bfs_q st) ->
      0 < res g x v -> (d v <= S (d x))%nat;
  lv_parent : forall p, parents st = Some p ->
      forall v, In v (dn ++ u :: bfs_q st) -> v <> SOURCE_NODE_ID ->
        exists w, parent_of p v = Z.of_nat w /\
                  In w (dn ++ u :: bfs_q st) /\ d v = S (d w)
}.

(** The levels once the queue is empty. *)
Record levels_final (g : graph_t) (d : nat -> nat) (order : list nat)
    (st : bfs_state) : Prop := {
  lf_inv : bfs_inv g order st;
  lf_closed : closed g order order;
  lf_source : d SOURCE_NODE_ID = 0%nat;
  lf_edge : forall x v, In x order -> In v order ->
      0 < res g x v -> (d v <= S (d x))%nat;
  lf_parent : forall p, parents st = Some p ->
      forall v, In v order -> v <> SOURCE_NODE_ID ->
        exists w, parent_of p v = Z.of_nat w /\ In w order /\ d v = S (d w)
}.

(** The partition [findMinCut] asks [bfs] for. *)
Definition min_cut (g : graph_t) : outcome (list nat * list nat) :=
  r <- bfs g (Some []) (Some []) None ;;
  match sPath_out r, tPath_out r with
  | Some sPath, Some tPath => Ok (sPath, tPath)
  | _, _ => OutOfBounds
  end.

(** Sum of the original capacities of the edges from [S] to [T]. *)
Definition cut_capacity (g : graph_t) (S T : list nat) : Z :=
  sumZ (fun u => sumZ (fun v => cap g u v) T) S.

(** ** The parent chain *)

(** The values [node_id] takes in the loops at lines 163 and 173, the
    source last: the same walk as [min_flow_walk], recording the nodes. *)
Fixpoint parent_chain (fuel : nat) (path : path_t) (node_id : nat)
  : outcome (list nat) :=
  if Nat.eqb node_id SOURCE_NODE_ID then Ok [node_id]
  else match fuel with
       | O => OutOfFuel
       | S fuel' =>
           let parent_node_id := parent_of path node_id in
           if valid_index parent_node_id then
             c <- parent_chain fuel' path (Z.to_nat parent_node_id) ;;
             Ok (node_id :: c)
           else OutOfBounds
       end.

(** [chain g p c]: [c] runs from a node up to the source through the parent
    ids of [p], each step along an edge of positive residual capacity. *)
Inductive chain (g : graph_t) (p : path_t) : list nat -> Prop :=
| chain_source : chain g p [SOURCE_NODE_ID]
| chain_step v u c :
    v <> SOURCE_NODE_ID -> (v < NODE_COUNT)%nat ->
    parent_of p v = Z.of_nat u -> 0 < res g u v ->
    chain g p (u :: c) -> chain g p (v :: u :: c).

(** The edges (parent, child) of a chain, sink end first. *)
Fixpoint chain_edges (c : list nat) : list (nat * nat) :=
  match c with
  | v :: ((u :: _) as c') => (u, v) :: chain_edges c'
  | _ => []
  end.

(** An augmenting path, listed from the sink back to the source: every
    edge (next node, node) has positive residual capacity. *)
Definition augmenting_path (g : graph_t) (c : list nat) : Prop :=
  hd_error c = Some TARGET_NODE_ID /\
  last c TARGET_NODE_ID = SOURCE_NODE_ID /\
  (forall v, In v c -> (v < NODE_COUNT)%nat) /\
  forall u v, In (u, v) (chain_edges c) -> 0 < res g u v.

(** Line 165-167 for one edge, and the bottleneck of a whole chain. *)
Definition min_edge (g : graph_t) (m : Z) (e : nat * nat) : Z :=
  if res g (fst e) (snd e) <? m then res g (fst e) (snd e) else m.

Definition bottleneck (g : graph_t) (c : list nat) : Z :=
  fold_left (min_edge g) (chain_edges c) INT_MAX.

(** Lines 181-186 for one edge, and for a whole chain. *)
Definition push_edge (delta : Z) (g : graph_t) (e : nat * nat) : graph_t :=
  let g1 := set_res g (fst e) (snd e) (int_sub (res g (fst e) (snd e)) delta) in
  set_res g1 (snd e) (fst e) (int_add (res g1 (snd e) (fst e)) delta).

Definition push_chain (delta : Z) (c : list nat) (g : graph_t) : graph_t :=
  fold_left (push_edge delta) (chain_edges c) g.

(** Line 175 along a chain. *)
Definition clear_chain (c : list nat) (p : path_t) : path_t :=
  fold_left (fun q e => set_parent q (snd e) INVALID_PARENT) (chain_edges c) p.

(** ** The loop of fordFulkerson *)

(** State of [fordFulkerson] on entry to its loop. *)
Definition ff_init (g : graph_t) : ff_state := mkFF g init_path 0.

(** The states the loop of [fordFulkerson] passes through. *)
Inductive ff_steps : ff_state -> ff_state -> Prop :=
| ff_steps_refl s : ff_steps s s
| ff_steps_next s delta s1 s2 :
    augment s = Ok (Some (delta, s1)) -> ff_steps s1 s2 -> ff_steps s s2.

(** The bottlenecks of the rounds of the loop, in order. *)
Fixpoint bottlenecks (fuel : nat) (s : ff_state) : list Z :=
  match fuel with
  | O => []
  | S fuel' =>
      match augment s with
      | Ok (Some (delta, s')) => delta :: bottlenecks fuel' s'
      | _ => []
      end
  end.

(** Residual capacity left on the edges out of the source. *)
Definition potential (g : graph_t) : Z :=
  sumZ (fun v => Z.max 0 (res g SOURCE_NODE_ID v)) nodes.

Definition ff_base (s : ff_state) : Prop :=
  wf_graph (ff_graph s) /\ int_graph (ff_graph s) /\
  length (ff_path s) = NODE_COUNT.

(** Residual capacities that account for a flow. *)
Record core_inv (g : graph_t) : Prop := {
  core_nonneg : forall u v, 0 <= res g u v;
  core_pair : forall u v, u <> v -> res g u v + res g v u = cap g u v + cap g v u;
  core_self : forall u, res g u u = cap g u u
}.

Definition conserved (g : graph_t) : Prop :=
  forall x, (x < NODE_COUNT)%nat -> x <> SOURCE_NODE_ID -> x <> TARGET_NODE_ID ->
    sumZ (res g x) nodes = sumZ (cap g x) nodes.

Record flow_inv (s : ff_state) : Prop := {
  fi_core : core_inv (ff_graph s);
  fi_caps : nonneg_caps (ff_graph s);
  fi_bound : pair_bound (ff_graph s);
  fi_cons : conserved (ff_graph s)
}.

(** [max_flow] is what has left the source so far. *)
Record value_inv (s : ff_state) : Prop := {
  vi_bound : source_bound (ff_graph s);
  vi_nonneg : 0 <= ff_flow s;
  vi_value : ff_flow s = sumZ (cap (ff_graph s) SOURCE_NODE_ID) nodes
                         - sumZ (res (ff_graph s) SOURCE_NODE_ID) nodes
}.

(** [d] if [b] holds, else nothing. *)
Definition ind (b : bool) (d : Z) : Z := if b then d else 0.

(** ** Flows *)

(** Flows in the textbook sense, their value, and maximality. *)
Record is_flow (g : graph_t) (f : nat -> nat -> Z) : Prop := {
  flow_cap : forall u v, 0 <= f u v <= cap g u v;
  flow_cons : forall x, (x < NODE_COUNT)%nat ->
      x <> SOURCE_NODE_ID -> x <> TARGET_NODE_ID ->
      sumZ (fun v => f v x) nodes = sumZ (fun v => f x v) nodes
}.

Definition flow_value (f : nat -> nat -> Z) : Z :=
  sumZ (fun v => f SOURCE_NODE_ID v) nodes - sumZ (fun v => f v SOURCE_NODE_ID) nodes.

Definition is_max_flow (g : graph_t) (val : Z) : Prop :=
  (exists f, is_flow g f /\ flow_value f = val) /\
  (forall f, is_flow g f -> flow_value f <= val).

(** Flow into and out of a node over the input edges, as line 198 derives
    the flow of an edge. *)
Definition in_flow (g : graph_t) (x : nat) : Z :=
  sumZ (fun v => if 0 <? cap g v x then edge_flow g v x else 0) nodes.
Definition out_flow (g : graph_t) (x : nat) : Z :=
  sumZ (fun v => if 0 <? cap g x v then edge_flow g x v else 0) nodes.

(* ================================================================== *)
(** * Lemmas *)

(* ------------------------------------------------------------------ *)
(** ** Vectors and tables *)

Lemma length_vec_set {A} (l : list A) i x : length (vec_set l i x) = length l.
Proof.
  revert i; induction l as [|h t IH]; intros [|i]; simpl; auto.
Qed.

Lemma nth_vec_set_eq {A} (l : list A) i x d :
  (i < length l)%nat -> nth i (vec_set l i x) d = x.
Proof.
  revert i; induction l as [|h t IH]; intros [|i] H; simpl in *; try lia; auto.
  apply IH; lia.
Qed.

Lemma nth_vec_set_neq {A} (l : list A) i j x d :
  i <> j -> nth j (vec_set l i x) d = nth j l d.
Proof.
  revert i j; induction l as [|h t IH]; intros [|i] [|j] H; simpl; auto; try lia.
Qed.

Lemma wf_graph_row g u :
  wf_graph g -> (u < NODE_COUNT)%nat -> length (nth u g []) = NODE_COUNT.
Proof.
  intros [Hl Hr] Hu. rewrite Forall_forall in Hr. apply Hr, nth_In. lia.
Qed.

Lemma Forall_vec_set {A} (P : A -> Prop) l i x :
  Forall P l -> ((i < length l)%nat -> P x) -> Forall P (vec_set l i x).
Proof.
  intros Hl; revert i; induction Hl as [|h t Hh Ht IH]; intros [|i] Hx; simpl in *; auto.
  - constructor; auto. apply Hx; lia.
  - constructor; auto. apply IH. intros; apply Hx; lia.
Qed.

Lemma wf_edge_put g u v e : wf_graph g -> wf_graph (edge_put g u v e).
Proof.
  intros [Hl Hr]. split.
  - unfold edge_put. now rewrite length_vec_set.
  - apply Forall_vec_set; auto. intros Hu. rewrite length_vec_set.
    rewrite Forall_forall in Hr. apply Hr, nth_In; auto.
Qed.

Lemma edge_at_put_eq g u v e :
  wf_graph g -> (u < NODE_COUNT)%nat -> (v < NODE_COUNT)%nat ->
  edge_at (edge_put g u v e) u v = e.
Proof.
  intros Hwf Hu Hv. unfold edge_at, edge_put.
  rewrite (nth_vec_set_eq g) by (destruct Hwf; lia).
  apply nth_vec_set_eq. rewrite wf_graph_row; auto.
Qed.

Lemma edge_at_put_neq g u v e u' v' :
  u <> u' \/ v <> v' -> edge_at (edge_put g u v e) u' v' = edge_at g u' v'.
Proof.
  intros H. unfold edge_at, edge_put.
  destruct (Nat.eq_dec u u') as [<-|Hne].
  - destruct (Nat.lt_ge_cases u (length g)) as [Hu|Hu].
    + rewrite (nth_vec_set_eq g) by auto. apply nth_vec_set_neq. tauto.
    + rewrite (nth_overflow (vec_set _ _ _)) by (rewrite length_vec_set; lia).
      rewrite (nth_overflow g) by lia. reflexivity.
  - rewrite (nth_vec_set_neq g) by auto. reflexivity.
Qed.

Lemma wf_set_res g u v r : wf_graph g -> wf_graph (set_res g u v r).
Proof. apply wf_edge_put. Qed.

Lemma res_set_res_eq g u v r :
  wf_graph g -> (u < NODE_COUNT)%nat -> (v < NODE_COUNT)%nat ->
  res (set_res g u v r) u v = r.
Proof.
  intros. unfold res, set_res. rewrite edge_at_put_eq; auto.
Qed.

Lemma res_set_res_neq g u v r u' v' :
  u <> u' \/ v <> v' -> res (set_res g u v r) u' v' = res g u' v'.
Proof.
  intros. unfold res, set_res. rewrite edge_at_put_neq; auto.
Qed.

Lemma cap_set_res g u v r u' v' : cap (set_res g u v r) u' v' = cap g u' v'.
Proof.
  unfold cap, set_res.
  destruct (Nat.eq_dec u u') as [<-|Hu]; [destruct (Nat.eq_dec v v') as [<-|Hv]|].
  2,3: rewrite edge_at_put_neq; auto.
  unfold edge_at, edge_put.
  destruct (Nat.lt_ge_cases u (length g)) as [Hu|Hu].
  - rewrite (nth_vec_set_eq g) by auto.
    destruct (Nat.lt_ge_cases v (length (nth u g []))) as [Hv|Hv].
    + rewrite nth_vec_set_eq by auto. reflexivity.
    + rewrite (nth_overflow (vec_set _ _ _)) by (rewrite length_vec_set; lia).
      rewrite (nth_overflow (nth u g [])) by lia. reflexivity.
  - rewrite (nth_overflow (vec_set _ _ _)) by (rewrite length_vec_set; lia).
    rewrite (nth_overflow g) by lia. reflexivity.
Qed.

Lemma length_set_parent p v x : length (set_parent p v x) = length p.
Proof. apply length_vec_set. Qed.

Lemma parent_of_set_eq p v x :
  (v < length p)%nat -> parent_of (set_parent p v x) v = x.
Proof.
  intros H. unfold parent_of, set_parent. rewrite nth_vec_set_eq; auto.
Qed.

Lemma parent_of_set_neq p v x w :
  v <> w -> parent_of (set_parent p v x) w = parent_of p w.
Proof.
  intros H. unfold parent_of, set_parent. rewrite nth_vec_set_neq; auto.
Qed.

(* ------------------------------------------------------------------ *)
(** ** The search: invariant of the two loops of [bfs] *)

Lemma source_lt : (SOURCE_NODE_ID < NODE_COUNT)%nat.
Proof. unfold SOURCE_NODE_ID, NODE_COUNT; lia. Qed.

Lemma target_lt : (TARGET_NODE_ID < NODE_COUNT)%nat.
Proof. unfold TARGET_NODE_ID, NODE_COUNT; lia. Qed.

Lemma target_not_source : TARGET_NODE_ID <> SOURCE_NODE_ID.
Proof. discriminate. Qed.

Section Search.

Variable g : graph_t.

Lemma bfs_inv_queue order tr q q' ps :
  bfs_inv g order (mkBfs tr q ps) -> bfs_inv g order (mkBfs tr q' ps).
Proof. intros [H1 H2 H3 H4 H5 H6 H7]; split; auto. Qed.

Lemma app_snoc_split {A} (order l1 l2 : list A) v w :
  order ++ [v] = l1 ++ w :: l2 ->
  (l2 = [] /\ w = v /\ l1 = order) \/ (exists l2', l2 = l2' ++ [v] /\ order = l1 ++ w :: l2').
Proof.
  intros H. destruct (exists_last (l:=w :: l2)) as [l' [a Hl']]; [discriminate|].
  destruct l2 as [|x l2].
  - left. apply app_inj_tail in H. intuition.
  - right. destruct (exists_last (l:=x :: l2)) as [l2' [b Hb]]; [discriminate|].
    exists l2'. rewrite Hb in H.
    change (l1 ++ w :: l2' ++ [b]) with (l1 ++ (w :: l2') ++ [b]) in H.
    rewrite app_assoc in H. apply app_inj_tail in H. destruct H as [H1 H2].
    subst b. rewrite Hb. auto.
Qed.

Lemma visit_inv order st u v :
  bfs_inv g order st -> In u order -> (v < NODE_COUNT)%nat ->
  exists new, bfs_q (visit g u st v) = bfs_q st ++ new /\
              bfs_inv g (order ++ new) (visit g u st v) /\
              (0 < res g u v -> In v (order ++ new)).
Proof.
  intros Hinv Hu Hv. unfold visit.
  destruct (nth v (trav st) false) eqn:Htv; simpl.
  - exists []. rewrite !app_nil_r. split; [reflexivity|split; [assumption|]].
    intros _. apply (inv_trav _ _ _ Hinv); auto.
  - destruct (0 <? res g u v) eqn:Hpos.
    2:{ exists []. rewrite !app_nil_r. split; [reflexivity|split; [assumption|]].
        apply Z.ltb_ge in Hpos. lia. }
    apply Z.ltb_lt in Hpos.
    assert (Hnot : ~ In v order).
    { intros Hin. apply (inv_trav _ _ _ Hinv) in Hin. congruence. }
    exists [v]. split; [reflexivity|]. split; [|intros _; apply in_or_app; simpl; auto].
    destruct Hinv as [H1 H2 H3 H4 H5 H6 H7]. split; simpl.
    + now rewrite length_vec_set.
    + apply NoDup_app; [assumption| |].
      * repeat constructor; simpl; tauto.
      * intros a Ha [Hav|[]]; subst; auto.
    + intros w. rewrite in_app_iff. simpl.
      destruct (Nat.eq_dec v w) as [<-|Hne].
      * rewrite nth_vec_set_eq by lia. intuition.
      * rewrite nth_vec_set_neq by auto. rewrite H3. intuition.
    + intros w Hw. apply in_app_or in Hw. destruct Hw as [Hw|[<-|[]]]; auto.
    + destruct H5 as [rest ->]. exists (rest ++ [v]). reflexivity.
    + intros w Hw. apply in_app_or in Hw. destruct Hw as [Hw|[<-|[]]]; auto.
      apply reach_step with u; auto.
    + intros p Hp. destruct (parents st) as [p0|] eqn:Hp0; simpl in Hp; [|discriminate].
      injection Hp as <-. destruct (H7 p0 eq_refl) as [Hlen Hpar].
      split; [now rewrite length_set_parent|].
      intros l1 w l2 Heq Hne. apply app_snoc_split in Heq.
      destruct Heq as [(-> & -> & ->)|(l2' & -> & Heq)].
      * exists u. rewrite parent_of_set_eq by lia. auto.
      * destruct (Hpar _ _ _ Heq Hne) as (u' & Hu' & Hpu & Hru).
        exists u'. rewrite parent_of_set_neq; auto.
        intros <-. apply Hnot. rewrite Heq. apply in_or_app. simpl. auto.
Qed.

Lemma scan_inv u cands : forall order st,
  (forall c, In c cands -> (c < NODE_COUNT)%nat) ->
  bfs_inv g order st -> In u order ->
  exists new, bfs_q (fold_left (visit g u) cands st) = bfs_q st ++ new /\
              bfs_inv g (order ++ new) (fold_left (visit g u) cands st) /\
              (forall c, In c cands -> 0 < res g u c -> In c (order ++ new)).
Proof.
  induction cands as [|c cands IH]; intros order st Hc Hinv Hu; simpl.
  - exists []. rewrite !app_nil_r. split; [reflexivity|split; [assumption|]].
    intros ? [].
  - destruct (visit_inv order st u c Hinv Hu) as (n1 & Hq1 & Hi1 & Hc1).
    { apply Hc; simpl; auto. }
    destruct (IH (order ++ n1) (visit g u st c)) as (n2 & Hq2 & Hi2 & Hc2); auto.
    { intros; apply Hc; simpl; auto. }
    { apply in_or_app; auto. }
    exists (n1 ++ n2). rewrite Hq2, Hq1, !app_assoc.
    split; [reflexivity|split; [assumption|]].
    intros c' [<-|Hc'] Hpos.
    + rewrite <- app_assoc. rewrite app_assoc. apply in_or_app. left. auto.
    + apply Hc2; auto.
Qed.

Lemma order_bound order st : bfs_inv g order st -> (length order <= NODE_COUNT)%nat.
Proof.
  intros Hinv. rewrite <- (length_seq NODE_COUNT 0).
  apply NoDup_incl_length; [apply (inv_nodup _ _ _ Hinv)|].
  intros v Hv. apply in_seq. pose proof (inv_range _ _ _ Hinv v Hv). lia.
Qed.

Lemma bfs_while_inv : forall fuel dn st,
  bfs_inv g (dn ++ bfs_q st) st -> closed g dn (dn ++ bfs_q st) ->
  (NODE_COUNT <= fuel + length dn)%nat ->
  exists st', bfs_while fuel g st = Ok st' /\ bfs_q st' = [] /\
              exists order, bfs_inv g order st' /\ closed g order order.
Proof.
  induction fuel as [|fuel IH]; intros dn st Hinv Hcl Hfuel.
  - pose proof (order_bound _ _ Hinv) as Hb. rewrite length_app in Hb.
    destruct (bfs_q st) as [|u rest] eqn:Hq; simpl in *; [|lia].
    rewrite Hq. exists st. rewrite app_nil_r in *. eauto.
  - simpl. destruct (bfs_q st) as [|u rest] eqn:Hq.
    + exists st. rewrite app_nil_r in *. eauto.
    + destruct st as [tr q ps]. simpl in *. subst q.
      destruct (scan_inv u (seq 0 NODE_COUNT) (dn ++ u :: rest) (mkBfs tr rest ps))
        as (new & Hq' & Hi' & Hc').
      { intros c Hc. apply in_seq in Hc. lia. }
      { eapply bfs_inv_queue; eauto. }
      { apply in_or_app; simpl; auto. }
      fold (scan g u (mkBfs tr rest ps)) in *. cbn [bfs_q] in Hq'.
      apply (IH (dn ++ [u])).
      * rewrite Hq', <- app_assoc. simpl. rewrite <- app_assoc in Hi'. exact Hi'.
      * rewrite Hq', <- app_assoc. simpl. rewrite <- app_assoc in Hc'.
        intros a b Ha Hb Hpos. apply in_app_or in Ha. destruct Ha as [Ha|[<-|[]]].
        -- specialize (Hcl a b Ha Hb Hpos).
           change (dn ++ u :: rest ++ new) with (dn ++ (u :: rest) ++ new).
           rewrite app_assoc. apply in_or_app; auto.
        -- apply Hc'; auto. apply in_seq. lia.
      * rewrite length_app. simpl. lia.
Qed.

Lemma bfs_init_inv ps :
  (forall p, ps = Some p -> length p = NODE_COUNT) ->
  bfs_inv g [SOURCE_NODE_ID] (bfs_init ps).
Proof.
  intros Hp. pose proof source_lt as Hs.
  split; unfold bfs_init; cbn [trav parents bfs_q].
  - now rewrite length_vec_set, repeat_length.
  - repeat constructor; simpl; auto.
  - intros v. destruct (Nat.eq_dec SOURCE_NODE_ID v) as [<-|Hne].
    + rewrite nth_vec_set_eq by (rewrite repeat_length; auto). simpl; tauto.
    + rewrite nth_vec_set_neq by auto.
      rewrite nth_repeat. simpl. split; [discriminate|tauto].
  - intros v [<-|[]]; auto.
  - eauto.
  - intros v [<-|[]]. constructor.
  - intros p ->. split; auto. intros l1 v l2 Heq Hne.
    destruct l1 as [|a l1]; [congruence|]. destruct l1; discriminate.
Qed.

End Search.

(** What [bfs] leaves behind, whatever buffers it was given. *)
Lemma bfs_while_run g ps :
  (forall p, ps = Some p -> length p = NODE_COUNT) ->
  exists st order,
    bfs_while NODE_COUNT g (bfs_init ps) = Ok st /\
    bfs_inv g order st /\ closed g order order.
Proof.
  intros Hp.
  destruct (bfs_while_inv g NODE_COUNT [] (bfs_init ps)) as (st & Hrun & _ & order & Hinv & Hcl).
  - apply bfs_init_inv; auto.
  - intros u v [].
  - cbn [length]. rewrite Nat.add_0_r. apply Nat.le_refl.
  - eauto.
Qed.

Lemma trav_reach g order st :
  bfs_inv g order st -> closed g order order ->
  forall v, nth v (trav st) false = true <-> reach g v.
Proof.
  intros Hinv Hcl v. rewrite (inv_trav _ _ _ Hinv). split.
  - apply (inv_reach _ _ _ Hinv).
  - induction 1 as [|u w Hu IH Hw Hpos].
    + destruct (inv_head _ _ _ Hinv) as [rest ->]. simpl; auto.
    + eapply Hcl; eauto.
Qed.

Lemma reach_lt g v : reach g v -> (v < NODE_COUNT)%nat.
Proof. destruct 1; auto using source_lt. Qed.

Lemma partition_fold (tr : list bool) l : forall a b,
  fold_left (fun '(a, b) i =>
               if nth i tr false then (a ++ [i], b) else (a, b ++ [i])) l (a, b)
  = (a ++ filter (fun i => nth i tr false) l,
     b ++ filter (fun i => negb (nth i tr false)) l).
Proof.
  induction l as [|i l IH]; intros a b; simpl.
  - now rewrite !app_nil_r.
  - destruct (nth i tr false); simpl; rewrite IH, <- app_assoc; reflexivity.
Qed.

Lemma partition_nodes_some tr sp tp :
  partition_nodes tr (Some sp) (Some tp)
  = (Some (sp ++ filter (fun i => nth i tr false) nodes),
     Some (tp ++ filter (fun i => negb (nth i tr false)) nodes)).
Proof.
  unfold partition_nodes. rewrite partition_fold. reflexivity.
Qed.

(* ------------------------------------------------------------------ *)
(** ** The parent chain after a search *)

Lemma valid_index_of_nat u : (u < NODE_COUNT)%nat -> valid_index (Z.of_nat u) = true.
Proof.
  intros H. unfold valid_index. apply andb_true_intro. split.
  - apply Z.leb_le. lia.
  - apply Z.ltb_lt. lia.
Qed.

Lemma valid_index_inv z :
  valid_index z = true -> z = Z.of_nat (Z.to_nat z) /\ (Z.to_nat z < NODE_COUNT)%nat.
Proof.
  unfold valid_index. intros H. apply andb_prop in H. destruct H as [H1 H2].
  apply Z.leb_le in H1. apply Z.ltb_lt in H2. split; lia.
Qed.

Lemma chain_head_cons g p c : chain g p c -> exists v c', c = v :: c'.
Proof. destruct 1; eauto. Qed.

Lemma bfs_chain g order st p :
  bfs_inv g order st -> parents st = Some p ->
  forall n l1 v l2, (length l1 <= n)%nat -> order = l1 ++ v :: l2 ->
  exists c, parent_chain n p v = Ok (v :: c) /\ chain g p (v :: c) /\
            incl c l1 /\ NoDup (v :: c).
Proof.
  intros Hinv Hp. destruct (inv_parent _ _ _ Hinv p Hp) as [Hlen Hpar].
  assert (Hsrc : forall l1 v l2, order = l1 ++ v :: l2 ->
                 (l1 = [] /\ v = SOURCE_NODE_ID) \/ (l1 <> [] /\ v <> SOURCE_NODE_ID)).
  { intros l1 v l2 Heq. destruct (inv_head _ _ _ Hinv) as [rest Hrest].
    destruct l1 as [|a l1].
    - left. rewrite Hrest in Heq. simpl in Heq. split; congruence.
    - right. split; [discriminate|]. intros ->.
      pose proof (inv_nodup _ _ _ Hinv) as Hnd. rewrite Heq in Hnd.
      rewrite Hrest in Heq. simpl in Heq. injection Heq as <- _.
      simpl in Hnd. apply NoDup_cons_iff in Hnd. destruct Hnd as [Hn _].
      apply Hn. apply in_or_app. simpl; auto. }
  induction n as [|n IH]; intros l1 v l2 Hn Heq.
  - destruct l1; [|simpl in Hn; lia].
    destruct (Hsrc _ _ _ Heq) as [[_ ->]|[H _]]; [|congruence].
    exists []. simpl. repeat split; auto using chain_source, incl_nil_l.
    repeat constructor; simpl; tauto.
  - destruct (Hsrc _ _ _ Heq) as [[-> ->]|[Hne Hvs]].
    + exists []. simpl. repeat split; auto using chain_source, incl_nil_l.
      repeat constructor; simpl; tauto.
    + destruct (Hpar _ _ _ Heq Hne) as (u & Hu & Hpu & Hru).
      assert (Hv : (v < NODE_COUNT)%nat).
      { apply (inv_range _ _ _ Hinv). rewrite Heq. apply in_or_app; simpl; auto. }
      assert (Hun : (u < NODE_COUNT)%nat).
      { apply (inv_range _ _ _ Hinv). rewrite Heq. apply in_or_app; auto. }
      destruct (in_split _ _ Hu) as (l1a & l1b & Hl1).
      destruct (IH l1a u (l1b ++ v :: l2)) as (c & Hc & Hch & Hincl & Hnd).
      { rewrite Hl1, length_app in Hn. simpl in Hn. lia. }
      { rewrite Heq, Hl1, <- app_assoc. reflexivity. }
      exists (u :: c). simpl.
      destruct (Nat.eqb_spec v SOURCE_NODE_ID) as [|_]; [congruence|].
      rewrite Hpu, valid_index_of_nat, Nat2Z.id, Hc by auto. simpl.
      assert (Hsub : incl (u :: c) l1).
      { intros x [<-|Hx]; auto. rewrite Hl1. apply in_or_app. left. auto. }
      repeat split; auto.
      * constructor; auto.
      * constructor; auto. intros Hin. apply Hsub in Hin.
        pose proof (inv_nodup _ _ _ Hinv) as Hnd'. rewrite Heq in Hnd'.
        apply NoDup_remove_2 in Hnd'. apply Hnd'. apply in_or_app. auto.
Qed.

Lemma chain_range g p c : chain g p c -> forall v, In v c -> (v < NODE_COUNT)%nat.
Proof.
  induction 1 as [|v u c Hv Hlt Hp Hr Hc IH]; intros w Hw.
  - destruct Hw as [<-|[]]. apply source_lt.
  - destruct Hw as [<-|Hw]; auto.
Qed.

Lemma chain_last g p c d : chain g p c -> last c d = SOURCE_NODE_ID.
Proof.
  induction 1 as [|v u c Hv Hlt Hp Hr Hc IH]; auto.
Qed.

Lemma chain_length g p c : chain g p c -> NoDup c -> (length c <= NODE_COUNT)%nat.
Proof.
  intros Hc Hnd. rewrite <- (length_seq NODE_COUNT 0).
  apply NoDup_incl_length; auto.
  intros v Hv. apply in_seq. pose proof (chain_range _ _ _ Hc v Hv). lia.
Qed.

(** After a search that marked the sink, the chain from the sink exists. *)
Lemma bfs_target_chain g order st p :
  bfs_inv g order st -> parents st = Some p ->
  nth TARGET_NODE_ID (trav st) false = true ->
  exists c, parent_chain NODE_COUNT p TARGET_NODE_ID = Ok (TARGET_NODE_ID :: c) /\
            chain g p (TARGET_NODE_ID :: c) /\ NoDup (TARGET_NODE_ID :: c) /\
            incl (TARGET_NODE_ID :: c) order.
Proof.
  intros Hinv Hp Ht. apply (inv_trav _ _ _ Hinv) in Ht.
  destruct (in_split _ _ Ht) as (l1 & l2 & Heq).
  destruct (bfs_chain g order st p Hinv Hp NODE_COUNT l1 TARGET_NODE_ID l2)
    as (c & Hc & Hch & Hincl & Hnd); auto.
  - pose proof (order_bound _ _ _ Hinv) as Hb. rewrite Heq, length_app in Hb. lia.
  - exists c. repeat split; auto.
    intros x [<-|Hx]; auto. rewrite Heq. apply in_or_app. left. auto.
Qed.

(* ------------------------------------------------------------------ *)
(** ** The two walks of [fordFulkerson] follow the chain *)

Lemma parent_chain_head fuel p v c :
  parent_chain fuel p v = Ok c -> exists c', c = v :: c'.
Proof.
  destruct fuel; simpl; destruct (Nat.eqb v SOURCE_NODE_ID).
  1,3: intros [= <-]; eauto.
  - discriminate.
  - destruct (valid_index (parent_of p v)); [|discriminate].
    destruct (parent_chain fuel p _); simpl; try discriminate.
    intros [= <-]; eauto.
Qed.

Lemma parent_chain_step fuel p v c :
  v <> SOURCE_NODE_ID -> parent_chain (S fuel) p v = Ok c ->
  exists c', c = v :: Z.to_nat (parent_of p v) :: c' /\
             valid_index (parent_of p v) = true /\
             parent_chain fuel p (Z.to_nat (parent_of p v))
             = Ok (Z.to_nat (parent_of p v) :: c').
Proof.
  intros Hv. simpl. destruct (Nat.eqb_spec v SOURCE_NODE_ID) as [|_]; [congruence|].
  destruct (valid_index (parent_of p v)) eqn:Hvi; [|discriminate].
  destruct (parent_chain fuel p _) as [c0| |] eqn:Hc0; simpl; try discriminate.
  intros [= <-]. destruct (parent_chain_head _ _ _ _ Hc0) as [c' ->]. eauto.
Qed.

Lemma min_flow_walk_chain g : forall fuel p v c m,
  parent_chain fuel p v = Ok c ->
  min_flow_walk fuel g p v m = Ok (fold_left (min_edge g) (chain_edges c) m).
Proof.
  induction fuel as [|fuel IH]; intros p v c m Hc.
  - simpl in *. destruct (Nat.eqb v SOURCE_NODE_ID); [|discriminate].
    injection Hc as <-. reflexivity.
  - destruct (Nat.eqb_spec v SOURCE_NODE_ID) as [Hv|Hv].
    + simpl in *. destruct (Nat.eqb_spec v SOURCE_NODE_ID); [|congruence].
      injection Hc as <-. reflexivity.
    + destruct (parent_chain_step _ _ _ _ Hv Hc) as (c' & -> & Hvi & Hc').
      simpl. destruct (Nat.eqb_spec v SOURCE_NODE_ID); [congruence|].
      rewrite Hvi. rewrite (IH _ _ _ _ Hc'). reflexivity.
Qed.

Lemma parent_chain_frame : forall fuel p u c v x,
  parent_chain fuel p u = Ok c -> ~ In v c ->
  parent_chain fuel (set_parent p v x) u = Ok c.
Proof.
  induction fuel as [|fuel IH]; intros p u c v x Hc Hv.
  - simpl in *. destruct (Nat.eqb u SOURCE_NODE_ID); auto.
  - destruct (Nat.eqb_spec u SOURCE_NODE_ID) as [Hu|Hu].
    + simpl in *. destruct (Nat.eqb_spec u SOURCE_NODE_ID); [auto|congruence].
    + destruct (parent_chain_step _ _ _ _ Hu Hc) as (c' & -> & Hvi & Hc').
      simpl. destruct (Nat.eqb_spec u SOURCE_NODE_ID); [congruence|].
      assert (Hvu : v <> u) by (intros ->; apply Hv; simpl; auto).
      rewrite parent_of_set_neq by auto. rewrite Hvi.
      rewrite (IH _ _ _ _ x Hc'); [reflexivity|].
      intros Hin. apply Hv. simpl. simpl in Hin. tauto.
Qed.

Lemma push_flow_walk_chain delta : forall fuel g p v c,
  parent_chain fuel p v = Ok c -> NoDup c ->
  push_flow_walk fuel g p v delta = Ok (push_chain delta c g, clear_chain c p).
Proof.
  induction fuel as [|fuel IH]; intros g p v c Hc Hnd.
  - simpl in *. destruct (Nat.eqb v SOURCE_NODE_ID); [|discriminate].
    injection Hc as <-. reflexivity.
  - destruct (Nat.eqb_spec v SOURCE_NODE_ID) as [Hv|Hv].
    + simpl in *. destruct (Nat.eqb_spec v SOURCE_NODE_ID); [|congruence].
      injection Hc as <-. reflexivity.
    + destruct (parent_chain_step _ _ _ _ Hv Hc) as (c' & -> & Hvi & Hc').
      simpl. destruct (Nat.eqb_spec v SOURCE_NODE_ID); [congruence|].
      rewrite Hvi. apply NoDup_cons_iff in Hnd. destruct Hnd as [Hnin Hnd].
      rewrite (IH _ (set_parent p v INVALID_PARENT) _ _
                  (parent_chain_frame _ _ _ _ _ _ Hc' Hnin) Hnd).
      reflexivity.
Qed.

(** The bottleneck is a minimum. *)
Lemma fold_min_le g l : forall m, fold_left (min_edge g) l m <= m.
Proof.
  induction l as [|e l IH]; intros m; simpl; [lia|].
  specialize (IH (min_edge g m e)). unfold min_edge in *.
  destruct (Z.ltb_spec (res g (fst e) (snd e)) m); lia.
Qed.

Lemma fold_min_edge g l : forall m e,
  In e l -> fold_left (min_edge g) l m <= res g (fst e) (snd e).
Proof.
  induction l as [|e0 l IH]; intros m e He; [destruct He|].
  destruct He as [->|He]; simpl.
  - pose proof (fold_min_le g l (min_edge g m e)) as H. unfold min_edge in *.
    destruct (Z.ltb_spec (res g (fst e) (snd e)) m); lia.
  - apply IH; auto.
Qed.

Lemma fold_min_attained g l : forall m,
  fold_left (min_edge g) l m = m \/
  exists e, In e l /\ fold_left (min_edge g) l m = res g (fst e) (snd e).
Proof.
  induction l as [|e0 l IH]; intros m; simpl; auto.
  destruct (IH (min_edge g m e0)) as [H|(e & He & H)].
  - rewrite H. unfold min_edge. destruct (Z.ltb_spec (res g (fst e0) (snd e0)) m); eauto.
  - right. eauto.
Qed.

Lemma chain_edges_pos g p c :
  chain g p c -> forall e, In e (chain_edges c) -> 0 < res g (fst e) (snd e).
Proof.
  induction 1 as [|v u c Hv Hlt Hp Hr Hc IH]; intros e He; simpl in He; [tauto|].
  destruct He as [<-|He]; auto.
Qed.

Lemma bottleneck_pos g p c : chain g p c -> 0 < bottleneck g c <= INT_MAX.
Proof.
  intros Hc. unfold bottleneck. split; [|apply fold_min_le].
  destruct (fold_min_attained g (chain_edges c) INT_MAX) as [->|(e & He & ->)].
  - reflexivity.
  - eapply chain_edges_pos; eauto.
Qed.

Lemma bottleneck_le g c e :
  In e (chain_edges c) -> bottleneck g c <= res g (fst e) (snd e).
Proof. apply fold_min_edge. Qed.

(* ------------------------------------------------------------------ *)
(** ** [int] arithmetic *)

Lemma int_wrap_is_int z : is_int (int_wrap z).
Proof.
  unfold is_int, int_wrap, INT_MIN, INT_MAX.
  pose proof (Z.mod_pos_bound (z - -2147483648) 4294967296). lia.
Qed.

Lemma int_wrap_id z : is_int z -> int_wrap z = z.
Proof.
  unfold is_int, int_wrap, INT_MIN, INT_MAX. intros H.
  rewrite Z.mod_small; lia.
Qed.

Lemma int_sub_exact a b : is_int (a - b) -> int_sub a b = a - b.
Proof. apply int_wrap_id. Qed.

Lemma int_add_exact a b : is_int (a + b) -> int_add a b = a + b.
Proof. apply int_wrap_id. Qed.

(* ------------------------------------------------------------------ *)
(** ** Pushing flow along one edge and along a chain *)

Lemma wf_push_edge delta g e : wf_graph g -> wf_graph (push_edge delta g e).
Proof. intros H. unfold push_edge. now apply wf_set_res, wf_set_res. Qed.

Lemma cap_push_edge delta g e a b : cap (push_edge delta g e) a b = cap g a b.
Proof. unfold push_edge. now rewrite !cap_set_res. Qed.

Lemma res_push_edge_fwd delta g u v :
  wf_graph g -> (u < NODE_COUNT)%nat -> (v < NODE_COUNT)%nat -> u <> v ->
  res (push_edge delta g (u, v)) u v = int_sub (res g u v) delta.
Proof.
  intros Hwf Hu Hv Hne. unfold push_edge; simpl.
  rewrite res_set_res_neq by auto. apply res_set_res_eq; auto.
Qed.

Lemma res_push_edge_rev delta g u v :
  wf_graph g -> (u < NODE_COUNT)%nat -> (v < NODE_COUNT)%nat -> u <> v ->
  res (push_edge delta g (u, v)) v u = int_add (res g v u) delta.
Proof.
  intros Hwf Hu Hv Hne. unfold push_edge; simpl.
  rewrite res_set_res_eq by auto using wf_set_res.
  rewrite res_set_res_neq by auto. reflexivity.
Qed.

Lemma res_push_edge_other delta g u v a b :
  (a, b) <> (u, v) -> (a, b) <> (v, u) ->
  res (push_edge delta g (u, v)) a b = res g a b.
Proof.
  intros H1 H2. unfold push_edge; simpl.
  assert (Ha : u <> a \/ v <> b).
  { destruct (Nat.eq_dec u a), (Nat.eq_dec v b); subst; auto; congruence. }
  assert (Hb : v <> a \/ u <> b).
  { destruct (Nat.eq_dec v a), (Nat.eq_dec u b); subst; auto; congruence. }
  rewrite !res_set_res_neq by assumption. reflexivity.
Qed.

Lemma int_push_edge delta g u v :
  wf_graph g -> (u < NODE_COUNT)%nat -> (v < NODE_COUNT)%nat -> u <> v ->
  int_graph g -> int_graph (push_edge delta g (u, v)).
Proof.
  intros Hwf Hu Hv Hne Hint a b. rewrite cap_push_edge. split; [|apply Hint].
  destruct (Nat.eq_dec a u) as [->|Ha]; [destruct (Nat.eq_dec b v) as [->|Hb]|].
  - rewrite res_push_edge_fwd by auto. apply int_wrap_is_int.
  - destruct (Nat.eq_dec u v); [congruence|].
    rewrite res_push_edge_other by congruence. apply Hint.
  - destruct (Nat.eq_dec a v) as [->|Ha']; [destruct (Nat.eq_dec b u) as [->|Hb]|].
    + rewrite res_push_edge_rev by auto. apply int_wrap_is_int.
    + rewrite res_push_edge_other by congruence. apply Hint.
    + rewrite res_push_edge_other by congruence. apply Hint.
Qed.

Lemma chain_edges_in c : forall a b,
  In (a, b) (chain_edges c) -> In a c /\ In b c.
Proof.
  induction c as [|v c IH]; intros a b H; simpl in H; [tauto|].
  destruct c as [|u c]; [destruct H|].
  destruct H as [[= <- <-]|H]; simpl; auto.
  apply IH in H. simpl in *. tauto.
Qed.

Lemma push_chain_cons delta v u c g :
  push_chain delta (v :: u :: c) g = push_chain delta (u :: c) (push_edge delta g (u, v)).
Proof. reflexivity. Qed.

Lemma push_chain_frame delta c : forall g a b,
  ~ In a c \/ ~ In b c -> res (push_chain delta c g) a b = res g a b.
Proof.
  induction c as [|v c IH]; intros g a b H; [reflexivity|].
  destruct c as [|u c]; [reflexivity|].
  rewrite push_chain_cons, IH.
  - apply res_push_edge_other; intros [= -> ->]; simpl in H; tauto.
  - simpl in *. tauto.
Qed.

Lemma push_chain_other delta c : forall g a b,
  ~ In (a, b) (chain_edges c) -> ~ In (b, a) (chain_edges c) ->
  res (push_chain delta c g) a b = res g a b.
Proof.
  induction c as [|v c IH]; intros g a b H1 H2; [reflexivity|].
  destruct c as [|u c]; [reflexivity|].
  rewrite push_chain_cons, IH.
  - apply res_push_edge_other; intros [= -> ->].
    + apply H1. simpl; auto.
    + apply H2. simpl; auto.
  - intros H. apply H1. simpl; auto.
  - intros H. apply H2. simpl; auto.
Qed.

Lemma chain_edges_distinct c : NoDup c -> forall a b, In (a, b) (chain_edges c) -> a <> b.
Proof.
  induction c as [|v c IH]; intros Hnd a b H; [destruct H|].
  destruct c as [|u c]; [destruct H|].
  apply NoDup_cons_iff in Hnd. destruct Hnd as [Hv Hnd].
  destruct H as [[= <- <-]|H].
  - intros ->. apply Hv. simpl; auto.
  - apply IH; auto.
Qed.

Lemma wf_push_chain delta c : forall g, wf_graph g -> wf_graph (push_chain delta c g).
Proof.
  unfold push_chain. induction (chain_edges c) as [|e l IH]; intros g H; simpl; auto.
  apply IH, wf_push_edge, H.
Qed.

Lemma cap_push_chain delta c a b : forall g, cap (push_chain delta c g) a b = cap g a b.
Proof.
  unfold push_chain. induction (chain_edges c) as [|e l IH]; intros g; simpl; auto.
  rewrite IH. apply cap_push_edge.
Qed.

Lemma int_push_chain delta c : forall g,
  wf_graph g -> NoDup c -> (forall v, In v c -> (v < NODE_COUNT)%nat) ->
  int_graph g -> int_graph (push_chain delta c g).
Proof.
  induction c as [|v c IH]; intros g Hwf Hnd Hr Hint; [exact Hint|].
  destruct c as [|u c]; [exact Hint|].
  rewrite push_chain_cons. apply NoDup_cons_iff in Hnd. destruct Hnd as [Hv Hnd].
  apply IH; auto using wf_push_edge.
  - intros; apply Hr; simpl; auto.
  - apply int_push_edge; auto.
    + apply Hr; simpl; auto.
    + apply Hr; simpl; auto.
    + intros ->. apply Hv; simpl; auto.
Qed.

(** On a chain without repeated node every edge is updated exactly once. *)
Lemma push_chain_edge delta c : forall g,
  wf_graph g -> NoDup c -> (forall v, In v c -> (v < NODE_COUNT)%nat) ->
  forall u v, In (u, v) (chain_edges c) ->
    res (push_chain delta c g) u v = int_sub (res g u v) delta /\
    res (push_chain delta c g) v u = int_add (res g v u) delta.
Proof.
  induction c as [|w c IH]; intros g Hwf Hnd Hr u v He; [destruct He|].
  destruct c as [|x c]; [destruct He|].
  rewrite push_chain_cons. apply NoDup_cons_iff in Hnd. destruct Hnd as [Hw Hnd].
  assert (Hxw : x <> w) by (intros ->; apply Hw; simpl; auto).
  assert (Hx : (x < NODE_COUNT)%nat) by (apply Hr; simpl; auto).
  assert (Hwn : (w < NODE_COUNT)%nat) by (apply Hr; simpl; auto).
  destruct He as [[= <- <-]|He].
  - rewrite !push_chain_frame by auto.
    split; [apply res_push_edge_fwd | apply res_push_edge_rev]; auto.
  - destruct (IH (push_edge delta g (x, w))) with (u := u) (v := v) as [H1 H2];
      auto using wf_push_edge.
    { intros; apply Hr; simpl; auto. }
    apply chain_edges_in in He. destruct He as [Hu Hv].
    rewrite H1, H2.
    rewrite !res_push_edge_other; auto; intros [= -> ->]; auto.
Qed.

Lemma length_clear_chain c : forall p, length (clear_chain c p) = length p.
Proof.
  unfold clear_chain. induction (chain_edges c) as [|e l IH]; intros p; simpl; auto.
  rewrite IH. apply length_set_parent.
Qed.

Lemma clear_chain_edge c : forall p u v,
  length p = NODE_COUNT -> (forall w, In w c -> (w < NODE_COUNT)%nat) ->
  In (u, v) (chain_edges c) -> parent_of (clear_chain c p) v = INVALID_PARENT.
Proof.
  unfold clear_chain.
  assert (Hkeep : forall l p v, parent_of p v = INVALID_PARENT ->
            parent_of (fold_left (fun q (e : nat * nat) =>
                                    set_parent q (snd e) INVALID_PARENT) l p) v
            = INVALID_PARENT).
  { induction l as [|e l IH]; intros p v H; simpl; auto. apply IH.
    destruct (Nat.eq_dec (snd e) v) as [<-|Hne].
    - destruct (Nat.lt_ge_cases (snd e) (length p)).
      + apply parent_of_set_eq; auto.
      + unfold parent_of, set_parent in *.
        rewrite nth_overflow in * by (rewrite ?length_vec_set; lia). reflexivity.
    - rewrite parent_of_set_neq; auto. }
  intros p u v Hlen Hr He.
  assert (Hin : forall e, In e (chain_edges c) -> (snd e < NODE_COUNT)%nat).
  { intros [a b] H. apply chain_edges_in in H. apply Hr, H. }
  revert p Hlen. induction (chain_edges c) as [|e l IH]; intros p Hlen; [destruct He|].
  simpl. destruct He as [->|He].
  - apply Hkeep. simpl. apply parent_of_set_eq.
    specialize (Hin (u, v) (or_introl eq_refl)). simpl in Hin. lia.
  - apply IH; auto.
    + intros; apply Hin; simpl; auto.
    + now rewrite length_set_parent.
Qed.

(* ------------------------------------------------------------------ *)
(** ** What a call of [bfs] returns *)

Lemma visit_parents_none g u st v :
  parents st = None -> parents (visit g u st v) = None.
Proof.
  intros H. unfold visit. destruct (_ && _); simpl; auto. now rewrite H.
Qed.

Lemma visit_parents_some g u st v p :
  parents st = Some p -> exists p', parents (visit g u st v) = Some p'.
Proof.
  intros H. unfold visit. destruct (_ && _); simpl; eauto. rewrite H; simpl; eauto.
Qed.

Lemma bfs_while_parents_some g : forall fuel st st' p,
  parents st = Some p -> bfs_while fuel g st = Ok st' ->
  exists p', parents st' = Some p'.
Proof.
  assert (Hscan : forall u l st p, parents st = Some p ->
            exists p', parents (fold_left (visit g u) l st) = Some p').
  { induction l as [|c l IH]; intros st p H; simpl; eauto.
    destruct (visit_parents_some g u st c p H) as [p1 H1]. eauto. }
  induction fuel as [|fuel IH]; intros st st' p Hp Hrun; simpl in Hrun.
  - destruct (bfs_q st); [|discriminate]. injection Hrun as <-. eauto.
  - destruct (bfs_q st) as [|u rest]; [injection Hrun as <-; eauto|].
    destruct (Hscan u (seq 0 NODE_COUNT) (mkBfs (trav st) rest (parents st)) p Hp)
      as [p1 Hp1].
    eapply IH; eauto.
Qed.

Lemma bfs_while_parents_none g : forall fuel st st',
  parents st = None -> bfs_while fuel g st = Ok st' -> parents st' = None.
Proof.
  assert (Hscan : forall u l st, parents st = None ->
            parents (fold_left (visit g u) l st) = None).
  { induction l as [|c l IH]; intros st H; simpl; auto.
    apply IH, visit_parents_none, H. }
  induction fuel as [|fuel IH]; intros st st' Hp Hrun; simpl in Hrun.
  - destruct (bfs_q st); [|discriminate]. injection Hrun as <-. auto.
  - destruct (bfs_q st) as [|u rest]; [injection Hrun as <-; auto|].
    eapply IH; [|exact Hrun]. apply Hscan. exact Hp.
Qed.

(** Search with parent tracking, as [fordFulkerson] calls it. *)
Lemma bfs_tracking g (path : path_t) :
  length path = NODE_COUNT ->
  exists st order p,
    bfs_inv g order st /\ closed g order order /\
    parents st = Some p /\ length p = NODE_COUNT /\
    bfs g None None (Some path)
    = Ok (mkBfsResult (nth TARGET_NODE_ID (trav st) false) None None (Some p)).
Proof.
  intros Hlen.
  destruct (bfs_while_run g (Some path)) as (st & order & Hrun & Hinv & Hcl).
  { intros p [= <-]; auto. }
  destruct (bfs_while_parents_some g _ (bfs_init (Some path)) st path eq_refl Hrun)
    as [p Hp].
  exists st, order, p.
  split; [exact Hinv|]. split; [exact Hcl|]. split; [exact Hp|]. split.
  - apply (inv_parent _ _ _ Hinv p Hp).
  - unfold bfs. rewrite Hrun. simpl. rewrite Hp. reflexivity.
Qed.

(* ------------------------------------------------------------------ *)
(** ** One round of the loop of [fordFulkerson] *)

Lemma augment_spec s :
  length (ff_path s) = NODE_COUNT ->
  (augment s = Ok None /\ ~ reach (ff_graph s) TARGET_NODE_ID) \/
  (exists p c,
     length p = NODE_COUNT /\
     bfs (ff_graph s) None None (Some (ff_path s))
     = Ok (mkBfsResult true None None (Some p)) /\
     parent_chain NODE_COUNT p TARGET_NODE_ID = Ok (TARGET_NODE_ID :: c) /\
     chain (ff_graph s) p (TARGET_NODE_ID :: c) /\
     NoDup (TARGET_NODE_ID :: c) /\
     augment s
     = Ok (Some (bottleneck (ff_graph s) (TARGET_NODE_ID :: c),
                 mkFF (push_chain (bottleneck (ff_graph s) (TARGET_NODE_ID :: c))
                                  (TARGET_NODE_ID :: c) (ff_graph s))
                      (clear_chain (TARGET_NODE_ID :: c) p)
                      (int_add (ff_flow s)
                               (bottleneck (ff_graph s) (TARGET_NODE_ID :: c)))))).
Proof.
  intros Hlen.
  destruct (bfs_tracking (ff_graph s) (ff_path s) Hlen)
    as (st & order & p & Hinv & Hcl & Hp & Hpl & Hbfs).
  destruct (nth TARGET_NODE_ID (trav st) false) eqn:Ht.
  - right. destruct (bfs_target_chain _ _ _ _ Hinv Hp Ht) as (c & Hc & Hch & Hnd & _).
    exists p, c. rewrite Hbfs.
    split; [exact Hpl|]. split; [reflexivity|]. split; [exact Hc|].
    split; [exact Hch|]. split; [exact Hnd|].
    unfold augment. rewrite Hbfs. cbn [bind outPath_out reached].
    rewrite (min_flow_walk_chain _ _ _ _ _ _ Hc).
    fold (bottleneck (ff_graph s) (TARGET_NODE_ID :: c)). cbn [bind].
    rewrite (push_flow_walk_chain _ _ _ _ _ _ Hc Hnd). reflexivity.
  - left. split.
    + unfold augment. rewrite Hbfs. reflexivity.
    + intros Hr. apply (trav_reach _ _ _ Hinv Hcl) in Hr. congruence.
Qed.

Lemma sumZ_ext f f' l : (forall v, In v l -> f v = f' v) -> sumZ f l = sumZ f' l.
Proof.
  induction l as [|a l IH]; intros H; simpl; auto.
  rewrite H, IH; simpl; auto. intros; apply H; simpl; auto.
Qed.

Lemma sumZ_update f f' l b :
  NoDup l -> In b l -> (forall w, In w l -> w <> b -> f' w = f w) ->
  sumZ f' l = sumZ f l + (f' b - f b).
Proof.
  induction l as [|a l IH]; intros Hnd Hb Hw; [destruct Hb|].
  apply NoDup_cons_iff in Hnd. destruct Hnd as [Ha Hnd]. simpl.
  destruct Hb as [->|Hb].
  - rewrite (sumZ_ext f' f l); [lia|].
    intros v Hv. apply Hw; simpl; auto. intros ->. auto.
  - rewrite IH; auto.
    + rewrite (Hw a); simpl; auto; [lia|]. intros ->. auto.
    + intros; apply Hw; simpl; auto.
Qed.

Lemma nodes_nodup : NoDup nodes.
Proof. apply seq_NoDup. Qed.

Lemma in_nodes v : In v nodes <-> (v < NODE_COUNT)%nat.
Proof. unfold nodes. rewrite in_seq. lia. Qed.

Lemma last_in {A} (l : list A) a d : In (last (a :: l) d) (a :: l).
Proof.
  revert a; induction l as [|b l IH]; intros a; simpl; auto.
  right. apply IH.
Qed.

(** The only entry of the source's row a push changes is the last edge of
    the chain. *)
Lemma push_chain_source_row delta : forall c g,
  NoDup c -> last c TARGET_NODE_ID = SOURCE_NODE_ID -> (2 <= length c)%nat ->
  exists b, In (SOURCE_NODE_ID, b) (chain_edges c) /\
            forall b', b' <> b ->
              res (push_chain delta c g) SOURCE_NODE_ID b' = res g SOURCE_NODE_ID b'.
Proof.
  induction c as [|v c IH]; intros g Hnd Hlast Hlen; [simpl in Hlen; lia|].
  destruct c as [|u c]; [simpl in Hlen; lia|].
  apply NoDup_cons_iff in Hnd. destruct Hnd as [Hv Hnd].
  rewrite push_chain_cons.
  destruct c as [|w c].
  - simpl in Hlast. subst u. exists v. split; [simpl; auto|].
    intros b' Hb'. unfold push_chain; simpl.
    apply res_push_edge_other; intros [= ]; subst; auto;
      apply Hv; simpl; auto.
  - destruct (IH (push_edge delta g (u, v))) as (b & Hb & Hrow); auto.
    { simpl; lia. }
    exists b. split; [simpl; auto|].
    intros b' Hb'. rewrite Hrow by auto.
    assert (Hs : In SOURCE_NODE_ID (w :: c)).
    { change (last (v :: u :: w :: c) TARGET_NODE_ID)
        with (last (w :: c) TARGET_NODE_ID) in Hlast.
      rewrite <- Hlast. apply last_in. }
    apply res_push_edge_other; intros [= ]; subst.
    + apply NoDup_cons_iff in Hnd. tauto.
    + apply Hv. simpl. simpl in Hs. tauto.
Qed.

Lemma augment_step s delta s' :
  ff_base s -> augment s = Ok (Some (delta, s')) ->
  ff_base s' /\ 0 < delta <= INT_MAX /\
  ff_flow s' = int_add (ff_flow s) delta /\
  potential (ff_graph s') = potential (ff_graph s) - delta.
Proof.
  intros (Hwf & Hint & Hlen) Haug.
  destruct (augment_spec s Hlen) as [[H _]|(p & c & Hpl & _ & Hc & Hch & Hnd & H)];
    rewrite H in Haug; [discriminate|].
  injection Haug as <- <-. simpl.
  set (tc := TARGET_NODE_ID :: c) in *.
  set (g := ff_graph s) in *.
  pose proof (chain_range _ _ _ Hch) as Hrange.
  pose proof (bottleneck_pos _ _ _ Hch) as Hpos.
  split; [|split; [exact Hpos|split; [reflexivity|]]].
  - split; [|split]; simpl.
    + apply wf_push_chain; auto.
    + apply int_push_chain; auto.
    + now rewrite length_clear_chain.
  - destruct (push_chain_source_row (bottleneck g tc) tc g Hnd) as (b & Hb & Hrow).
    { apply (chain_last _ _ _ _ Hch). }
    { destruct c as [|u c]; [|simpl; lia]. inversion Hch. }
    destruct (push_chain_edge (bottleneck g tc) tc g Hwf Hnd Hrange _ _ Hb) as [Hfwd _].
    pose proof (bottleneck_le g tc _ Hb) as Hle. simpl in Hle.
    pose proof (chain_edges_in _ _ _ Hb) as [_ Hbin].
    destruct (Hint SOURCE_NODE_ID b) as [[_ Hmax] _].
    unfold potential.
    rewrite (sumZ_update (fun v => Z.max 0 (res g SOURCE_NODE_ID v)) _ nodes b).
    + rewrite Hfwd, int_sub_exact by (unfold is_int, INT_MIN; lia). lia.
    + apply nodes_nodup.
    + apply in_nodes; auto.
    + intros w _ Hw. rewrite Hrow; auto.
Qed.

(* ------------------------------------------------------------------ *)
(** ** The loop of [fordFulkerson] *)

Lemma wf_graphb_sound g : wf_graphb g = true -> wf_graph g.
Proof.
  unfold wf_graphb, wf_graph. intros H. apply andb_prop in H. destruct H as [H1 H2].
  apply Nat.eqb_eq in H1. split; auto.
  rewrite forallb_forall in H2. apply Forall_forall. intros row Hr.
  apply Nat.eqb_eq, H2, Hr.
Qed.

Lemma is_intb_sound z : is_intb z = true -> is_int z.
Proof.
  unfold is_intb, is_int. intros H. apply andb_prop in H. destruct H as [H1 H2].
  apply Z.leb_le in H1. apply Z.leb_le in H2. lia.
Qed.

Lemma int_graphb_sound g : int_graphb g = true -> int_graph g.
Proof.
  unfold int_graphb. intros H u v. rewrite forallb_forall in H.
  assert (He : is_int (residual_capacity_ (edge_at g u v)) /\
               is_int (original_capacity_ (edge_at g u v))).
  { unfold edge_at.
    destruct (nth_in_or_default v (nth u g []) no_edge) as [Hin| ->].
    - destruct (nth_in_or_default u g []) as [Hrow|Hrow].
      + specialize (H _ Hrow). rewrite forallb_forall in H.
        specialize (H _ Hin). apply andb_prop in H.
        destruct H; split; apply is_intb_sound; auto.
      + rewrite Hrow in Hin. destruct Hin.
    - simpl. unfold is_int, INT_MIN, INT_MAX. lia. }
  exact He.
Qed.

Lemma sumZ_nonneg f l : (forall v, 0 <= f v) -> 0 <= sumZ f l.
Proof.
  intros H. induction l as [|a l IH]; simpl; [lia|]. specialize (H a). lia.
Qed.

Lemma potential_nonneg g : 0 <= potential g.
Proof. apply sumZ_nonneg. intros; lia. Qed.

Lemma length_init_path : length init_path = NODE_COUNT.
Proof. unfold init_path. now rewrite length_map, length_seq. Qed.

Lemma ff_base_init g : wf_graph g -> int_graph g -> ff_base (ff_init g).
Proof.
  intros Hwf Hint. split; [exact Hwf|]. split; [exact Hint|]. apply length_init_path.
Qed.

Lemma ff_steps_snoc a b delta c :
  ff_steps a b -> augment b = Ok (Some (delta, c)) -> ff_steps a c.
Proof.
  induction 1 as [s|s d s1 s2 H1 H2 IH]; intros H.
  - eapply ff_steps_next; eauto using ff_steps_refl.
  - eapply ff_steps_next; eauto.
Qed.

(** Whatever one round preserves holds in every state of the loop. *)
Lemma ff_steps_inv (P : ff_state -> Prop) :
  (forall s delta s', ff_base s -> P s -> augment s = Ok (Some (delta, s')) -> P s') ->
  forall s s', ff_steps s s' -> ff_base s -> P s -> ff_base s' /\ P s'.
Proof.
  intros HP s s' Hst. induction Hst as [s|s d s1 s2 H1 H2 IH]; intros Hb Hp; auto.
  apply IH.
  - apply (augment_step _ _ _ Hb H1).
  - eapply HP; eauto.
Qed.

Lemma augment_ok s : ff_base s -> exists r, augment s = Ok r.
Proof.
  intros (_ & _ & Hl).
  destruct (augment_spec s Hl) as [[H _]|(p & c & _ & _ & _ & _ & _ & H)];
    rewrite H; eauto.
Qed.

Lemma ff_loop_total : forall fuel s,
  ff_base s -> potential (ff_graph s) <= Z.of_nat fuel ->
  exists s', ff_loop fuel s = Ok s' /\ ff_steps s s' /\ augment s' = Ok None.
Proof.
  induction fuel as [|fuel IH]; intros s Hb Hpot; cbn [ff_loop];
    destruct (augment_ok s Hb) as [[[d s1]|] Ha]; rewrite Ha; cbn [bind];
    try solve [exists s; auto using ff_steps_refl];
    destruct (augment_step _ _ _ Hb Ha) as (Hb1 & Hd & _ & Hp).
  - pose proof (potential_nonneg (ff_graph s1)). lia.
  - destruct (IH s1 Hb1) as (s' & Hrun & Hst & Hend); [lia|].
    exists s'. split; [exact Hrun|]. split; [|exact Hend].
    eapply ff_steps_next; eauto.
Qed.

Lemma fordFulkerson_run fuel g :
  wf_graph g -> int_graph g -> potential g <= Z.of_nat fuel ->
  exists s, ff_steps (ff_init g) s /\ augment s = Ok None /\
            fordFulkerson fuel g
            = Ok (mkFFResult (ff_flow s) (ff_graph s) (printed_flows (ff_graph s))).
Proof.
  intros Hwf Hint Hpot.
  destruct (ff_loop_total fuel (ff_init g)) as (s & Hrun & Hst & Hend); auto.
  { apply ff_base_init; auto. }
  exists s. split; [exact Hst|]. split; [exact Hend|].
  unfold fordFulkerson. fold (ff_init g). rewrite Hrun. reflexivity.
Qed.

(* ------------------------------------------------------------------ *)
(** ** Residual capacities account for a flow *)

Lemma push_edge_core delta g u v :
  wf_graph g -> (u < NODE_COUNT)%nat -> (v < NODE_COUNT)%nat -> u <> v ->
  core_inv g -> nonneg_caps g -> pair_bound g ->
  0 < delta <= res g u v ->
  res (push_edge delta g (u, v)) u v = res g u v - delta /\
  res (push_edge delta g (u, v)) v u = res g v u + delta.
Proof.
  intros Hwf Hu Hv Hne [Hnn Hpair Hself] Hcap Hb Hd.
  rewrite res_push_edge_fwd, res_push_edge_rev by auto.
  pose proof (Hnn u v). pose proof (Hnn v u).
  pose proof (Hpair u v Hne). pose proof (Hb u v Hne).
  rewrite int_sub_exact, int_add_exact; unfold is_int, INT_MIN; split; lia.
Qed.

Lemma push_edge_core_inv delta g u v :
  wf_graph g -> (u < NODE_COUNT)%nat -> (v < NODE_COUNT)%nat -> u <> v ->
  core_inv g -> nonneg_caps g -> pair_bound g ->
  0 < delta <= res g u v ->
  core_inv (push_edge delta g (u, v)).
Proof.
  intros Hwf Hu Hv Hne Hcore Hcap Hb Hd.
  destruct (push_edge_core delta g u v) as [Hf Hr]; auto.
  destruct Hcore as [Hnn Hpair Hself].
  assert (Hcases : forall a b,
            (a = u /\ b = v) \/ (a = v /\ b = u) \/
            ((a, b) <> (u, v) /\ (a, b) <> (v, u))).
  { intros a b. destruct (Nat.eq_dec a u), (Nat.eq_dec b v),
      (Nat.eq_dec a v), (Nat.eq_dec b u); subst; auto;
      right; right; split; congruence. }
  split.
  - intros a b. destruct (Hcases a b) as [[-> ->]|[[-> ->]|[H1 H2]]].
    + rewrite Hf. lia.
    + rewrite Hr. specialize (Hnn v u). lia.
    + rewrite res_push_edge_other by auto. apply Hnn.
  - intros a b Hab. rewrite !cap_push_edge. specialize (Hpair a b Hab).
    destruct (Hcases a b) as [[-> ->]|[[-> ->]|[H1 H2]]].
    + rewrite Hf, Hr. lia.
    + rewrite Hf, Hr. lia.
    + rewrite !res_push_edge_other; auto; congruence.
  - intros a. rewrite cap_push_edge, res_push_edge_other; auto; congruence.
Qed.

Lemma push_edge_rowsum delta g u v x :
  wf_graph g -> (u < NODE_COUNT)%nat -> (v < NODE_COUNT)%nat -> u <> v ->
  core_inv g -> nonneg_caps g -> pair_bound g ->
  0 < delta <= res g u v ->
  sumZ (res (push_edge delta g (u, v)) x) nodes
  = sumZ (res g x) nodes + ind (Nat.eqb x v) delta - ind (Nat.eqb x u) delta.
Proof.
  intros Hwf Hu Hv Hne Hcore Hcap Hb Hd.
  destruct (push_edge_core delta g u v) as [Hf Hr]; auto.
  destruct (Nat.eqb_spec x v) as [Hxv|Hxv]; destruct (Nat.eqb_spec x u) as [Hxu|Hxu];
    cbn [ind]; try subst x; try congruence.
  - rewrite (sumZ_update (res g v) _ nodes u); auto using nodes_nodup.
    + rewrite Hr. lia.
    + apply in_nodes; auto.
    + intros w _ Hw. apply res_push_edge_other; congruence.
  - rewrite (sumZ_update (res g u) _ nodes v); auto using nodes_nodup.
    + rewrite Hf. lia.
    + apply in_nodes; auto.
    + intros w _ Hw. apply res_push_edge_other; congruence.
  - rewrite (sumZ_ext _ (res g x)); [lia|].
    intros w _. apply res_push_edge_other; congruence.
Qed.

(** Pushing [delta] along a chain without repeated node: the invariant is
    kept, and the row sums change at the two ends only. *)
Lemma push_chain_core delta : forall c g,
  NoDup c -> (forall v, In v c -> (v < NODE_COUNT)%nat) -> c <> [] ->
  wf_graph g -> core_inv g -> nonneg_caps g -> pair_bound g ->
  0 < delta ->
  (forall e, In e (chain_edges c) -> delta <= res g (fst e) (snd e)) ->
  core_inv (push_chain delta c g) /\
  forall x, sumZ (res (push_chain delta c g) x) nodes
            = sumZ (res g x) nodes
              + ind (Nat.eqb x (hd 0%nat c)) delta
              - ind (Nat.eqb x (last c 0%nat)) delta.
Proof.
  induction c as [|v c IH]; intros g Hnd Hr Hne Hwf Hcore Hcap Hb Hd He;
    [congruence|].
  destruct c as [|u c].
  - split; [exact Hcore|]. intros x. cbn [hd last]. unfold push_chain; cbn [chain_edges fold_left]. lia.
  - apply NoDup_cons_iff in Hnd. destruct Hnd as [Hv Hnd].
    assert (Huv : u <> v) by (intros ->; apply Hv; simpl; auto).
    assert (Hun : (u < NODE_COUNT)%nat) by (apply Hr; simpl; auto).
    assert (Hvn : (v < NODE_COUNT)%nat) by (apply Hr; simpl; auto).
    assert (Hduv : 0 < delta <= res g u v).
    { split; auto. apply (He (u, v)). simpl; auto. }
    rewrite push_chain_cons.
    destruct (IH (push_edge delta g (u, v))) as [Hc' Hs']; auto.
    + intros; apply Hr; simpl; auto.
    + discriminate.
    + apply wf_push_edge; auto.
    + apply push_edge_core_inv; auto.
    + intros a b. rewrite cap_push_edge. apply Hcap.
    + intros a b Hab. rewrite !cap_push_edge. apply Hb, Hab.
    + intros [a b] Hin. simpl.
      pose proof (chain_edges_in _ _ _ Hin) as [Ha Hbn].
      rewrite res_push_edge_other.
      * apply (He (a, b)). simpl; auto.
      * intros [= -> ->]. auto.
      * intros [= -> ->]. auto.
    + split; [exact Hc'|]. intros x. rewrite Hs'.
      rewrite push_edge_rowsum by auto.
      change (hd 0%nat (v :: u :: c)) with v.
      change (hd 0%nat (u :: c)) with u.
      change (last (v :: u :: c) 0%nat) with (last (u :: c) 0%nat). lia.
Qed.

Lemma augment_flow_inv s delta s' :
  ff_base s -> flow_inv s -> augment s = Ok (Some (delta, s')) ->
  flow_inv s' /\
  (forall u v, cap (ff_graph s') u v = cap (ff_graph s) u v) /\
  sumZ (res (ff_graph s') SOURCE_NODE_ID) nodes
  = sumZ (res (ff_graph s) SOURCE_NODE_ID) nodes - delta.
Proof.
  intros (Hwf & Hint & Hlen) [Hcore Hcaps Hbound Hcons] Haug.
  destruct (augment_spec s Hlen) as [[H _]|(p & c & Hpl & _ & Hc & Hch & Hnd & H)];
    rewrite H in Haug; [discriminate|].
  injection Haug as <- <-. cbn [ff_graph ff_path ff_flow].
  set (tc := TARGET_NODE_ID :: c) in *.
  set (g := ff_graph s) in *.
  pose proof (chain_range _ _ _ Hch) as Hrange.
  pose proof (bottleneck_pos _ _ _ Hch) as Hpos.
  destruct (push_chain_core (bottleneck g tc) tc g) as [Hcore' Hsum]; auto.
  { discriminate. }
  { lia. }
  { intros e He. apply bottleneck_le, He. }
  assert (Hcap' : forall u v, cap (push_chain (bottleneck g tc) tc g) u v = cap g u v).
  { intros; apply cap_push_chain. }
  assert (Hlast : last tc 0%nat = SOURCE_NODE_ID).
  { apply (chain_last _ _ _ _ Hch). }
  split; [|split; [exact Hcap'|]].
  - split; cbn [ff_graph]; auto.
    + intros u v. rewrite Hcap'. apply Hcaps.
    + intros u v Huv. rewrite !Hcap'. apply Hbound, Huv.
    + intros x Hx Hxs Hxt. rewrite Hsum, Hlast.
      change (hd 0%nat tc) with TARGET_NODE_ID.
      destruct (Nat.eqb_spec x TARGET_NODE_ID); [congruence|].
      destruct (Nat.eqb_spec x SOURCE_NODE_ID); [congruence|].
      cbn [ind]. rewrite (sumZ_ext (cap _ x) (cap g x)) by (intros; apply Hcap').
      rewrite Hcons by auto. lia.
  - rewrite Hsum, Hlast. change (hd 0%nat tc) with TARGET_NODE_ID.
    rewrite Nat.eqb_refl.
    destruct (Nat.eqb_spec SOURCE_NODE_ID TARGET_NODE_ID) as [E|_]; [discriminate E|].
    cbn [ind]. lia.
Qed.

Lemma augment_value_inv s delta s' :
  ff_base s -> flow_inv s /\ value_inv s -> augment s = Ok (Some (delta, s')) ->
  flow_inv s' /\ value_inv s'.
Proof.
  intros Hb [Hfi [Hsb Hnn Hval]] Haug.
  destruct (augment_flow_inv _ _ _ Hb Hfi Haug) as (Hfi' & Hcap & Hrow).
  destruct (augment_step _ _ _ Hb Haug) as (_ & Hd & Hflow & _).
  split; [exact Hfi'|].
  assert (Hcs : sumZ (cap (ff_graph s') SOURCE_NODE_ID) nodes
                = sumZ (cap (ff_graph s) SOURCE_NODE_ID) nodes).
  { apply sumZ_ext. intros; apply Hcap. }
  assert (Hrn : 0 <= sumZ (res (ff_graph s') SOURCE_NODE_ID) nodes).
  { apply sumZ_nonneg. intros v. apply (core_nonneg _ (fi_core _ Hfi')). }
  unfold source_bound in Hsb.
  assert (Hexact : ff_flow s' = ff_flow s + delta).
  { rewrite Hflow. apply int_add_exact. unfold is_int, INT_MIN. lia. }
  split.
  - unfold source_bound. rewrite Hcs. exact Hsb.
  - lia.
  - rewrite Hcs, Hrow. lia.
Qed.

Lemma flow_inv_init g :
  fresh g -> nonneg_caps g -> pair_bound g -> flow_inv (ff_init g).
Proof.
  intros Hf Hc Hb. split; cbn [ff_init ff_graph]; auto.
  - split.
    + intros u v. rewrite Hf. apply Hc.
    + intros u v _. now rewrite !Hf.
    + intros u. apply Hf.
  - intros x _ _ _. apply sumZ_ext. intros; apply Hf.
Qed.

Lemma value_inv_init g : fresh g -> source_bound g -> value_inv (ff_init g).
Proof.
  intros Hf Hb. split; cbn [ff_init ff_graph ff_flow]; auto; [lia|].
  rewrite (sumZ_ext (res g SOURCE_NODE_ID) (cap g SOURCE_NODE_ID)); [lia|].
  intros; apply Hf.
Qed.

Lemma ff_steps_cap s s' :
  ff_steps s s' -> ff_base s -> forall u v, cap (ff_graph s') u v = cap (ff_graph s) u v.
Proof.
  induction 1 as [s|s d s1 s2 H1 H2 IH]; intros Hb u v; auto.
  destruct (augment_step _ _ _ Hb H1) as (Hb1 & _).
  rewrite IH by auto.
  destruct Hb as (_ & _ & Hlen).
  destruct (augment_spec s Hlen) as [[H _]|(p & c & _ & _ & _ & _ & _ & H)];
    rewrite H in H1; [discriminate|].
  injection H1 as _ <-. cbn [ff_graph]. apply cap_push_chain.
Qed.

(* ------------------------------------------------------------------ *)
(** ** Sums over the nodes and over a cut *)

Lemma sumZ_plus f h l : sumZ (fun v => f v + h v) l = sumZ f l + sumZ h l.
Proof. induction l as [|a l IH]; simpl; lia. Qed.

Lemma sumZ_minus f h l : sumZ (fun v => f v - h v) l = sumZ f l - sumZ h l.
Proof. induction l as [|a l IH]; simpl; lia. Qed.

Lemma sumZ_zero f l : (forall v, In v l -> f v = 0) -> sumZ f l = 0.
Proof.
  induction l as [|a l IH]; intros H; simpl; auto.
  rewrite H, IH; simpl; auto. intros; apply H; simpl; auto.
Qed.

Lemma sumZ_le f h l : (forall v, In v l -> f v <= h v) -> sumZ f l <= sumZ h l.
Proof.
  induction l as [|a l IH]; intros H; simpl; [lia|].
  assert (f a <= h a) by (apply H; simpl; auto).
  assert (sumZ f l <= sumZ h l) by (apply IH; intros; apply H; simpl; auto). lia.
Qed.

Lemma sumZ_swap (f : nat -> nat -> Z) l1 l2 :
  sumZ (fun u => sumZ (fun v => f u v) l2) l1
  = sumZ (fun v => sumZ (fun u => f u v) l1) l2.
Proof.
  induction l1 as [|a l1 IH]; simpl.
  - symmetry. apply sumZ_zero. auto.
  - rewrite IH. symmetry. apply (sumZ_plus (f a) (fun v => sumZ (fun u => f u v) l1)).
Qed.

Lemma sumZ_split f (P : nat -> bool) l :
  sumZ f l = sumZ f (filter P l) + sumZ f (filter (fun v => negb (P v)) l).
Proof.
  induction l as [|a l IH]; simpl; auto.
  destruct (P a); simpl; lia.
Qed.

Lemma sumZ_single f l b :
  NoDup l -> In b l -> (forall w, In w l -> w <> b -> f w = 0) -> sumZ f l = f b.
Proof.
  intros Hnd Hb Hw.
  rewrite (sumZ_update (fun _ => 0) f l b Hnd Hb Hw).
  rewrite (sumZ_zero (fun _ => 0)); auto. lia.
Qed.

Lemma skew_sum_zero (m : nat -> nat -> Z) l :
  (forall u v, m u v + m v u = 0) -> sumZ (fun u => sumZ (m u) l) l = 0.
Proof.
  intros Hskew.
  assert (H : sumZ (fun u => sumZ (m u) l) l
              + sumZ (fun u => sumZ (fun v => m v u) l) l = 0).
  { rewrite <- sumZ_plus. apply sumZ_zero. intros u _.
    rewrite <- sumZ_plus. apply sumZ_zero. intros v _. apply Hskew. }
  rewrite (sumZ_swap (fun u v => m v u) l l) in H.
  assert (E : sumZ (fun v => sumZ (fun u => m v u) l) l
              = sumZ (fun u => sumZ (m u) l) l).
  { apply sumZ_ext. intros; apply sumZ_ext. reflexivity. }
  lia.
Qed.

(** A skew-symmetric quantity with no excess inside the source side leaves
    the source exactly as it crosses the cut. *)
Lemma cut_sum (m : nat -> nat -> Z) (P : nat -> bool) :
  (forall u v, m u v + m v u = 0) ->
  P SOURCE_NODE_ID = true ->
  (forall u, (u < NODE_COUNT)%nat -> P u = true -> u <> SOURCE_NODE_ID ->
             sumZ (m u) nodes = 0) ->
  sumZ (m SOURCE_NODE_ID) nodes
  = sumZ (fun u => sumZ (m u) (filter (fun v => negb (P v)) nodes)) (filter P nodes).
Proof.
  intros Hskew Hs Hin.
  rewrite <- (sumZ_single (fun u => sumZ (m u) nodes) (filter P nodes) SOURCE_NODE_ID).
  - rewrite (sumZ_ext (fun u => sumZ (m u) nodes)
               (fun u => sumZ (m u) (filter P nodes)
                         + sumZ (m u) (filter (fun v => negb (P v)) nodes))).
    + rewrite sumZ_plus, skew_sum_zero by auto. lia.
    + intros u _. apply sumZ_split.
  - apply NoDup_filter, nodes_nodup.
  - apply filter_In. split; auto. apply in_nodes, source_lt.
  - intros w Hw Hne. apply filter_In in Hw. destruct Hw as [Hw Hp].
    apply Hin; auto. apply in_nodes; auto.
Qed.

(* ------------------------------------------------------------------ *)
(** ** The cut found on a saturated table *)

Lemma bfs_result_spec g sP tP ps :
  (forall p, ps = Some p -> length p = NODE_COUNT) ->
  exists st order,
    bfs_inv g order st /\ closed g order order /\
    bfs g sP tP ps
    = Ok (mkBfsResult (nth TARGET_NODE_ID (trav st) false)
            (fst (partition_nodes (trav st) sP tP))
            (snd (partition_nodes (trav st) sP tP))
            (parents st)).
Proof.
  intros Hp. destruct (bfs_while_run g ps Hp) as (st & order & Hrun & Hinv & Hcl).
  exists st, order. split; [exact Hinv|]. split; [exact Hcl|].
  unfold bfs. rewrite Hrun. cbn [bind].
  destruct (partition_nodes (trav st) sP tP). reflexivity.
Qed.

(** [bfs] as [findMinCut] calls it. *)
Lemma bfs_both_buffers g :
  exists tr, (forall v, nth v tr false = true <-> reach g v) /\
    bfs g (Some []) (Some []) None
    = Ok (mkBfsResult (nth TARGET_NODE_ID tr false)
            (Some (filter (fun i => nth i tr false) nodes))
            (Some (filter (fun i => negb (nth i tr false)) nodes))
            None).
Proof.
  destruct (bfs_while_run g None) as (st & order & Hrun & Hinv & Hcl).
  { discriminate. }
  exists (trav st). split; [apply (trav_reach _ _ _ Hinv Hcl)|].
  unfold bfs. rewrite Hrun. cbn [bind]. rewrite partition_nodes_some.
  rewrite (bfs_while_parents_none g _ (bfs_init None) st eq_refl Hrun). reflexivity.
Qed.

Lemma min_cut_spec g :
  exists tr, (forall v, nth v tr false = true <-> reach g v) /\
    min_cut g = Ok (filter (fun i => nth i tr false) nodes,
                    filter (fun i => negb (nth i tr false)) nodes).
Proof.
  destruct (bfs_both_buffers g) as (tr & Htr & Hb).
  exists tr. split; [exact Htr|]. unfold min_cut. rewrite Hb. reflexivity.
Qed.

Lemma net_skew g : core_inv g ->
  forall u v, (cap g u v - res g u v) + (cap g v u - res g v u) = 0.
Proof.
  intros [Hnn Hpair Hself] u v. destruct (Nat.eq_dec u v) as [->|Hne].
  - rewrite Hself. lia.
  - specialize (Hpair u v Hne). lia.
Qed.

(** Max-flow = min-cut on a table the loop has left without augmenting path. *)
Lemma saturated_cut g S T :
  core_inv g -> conserved g -> ~ reach g TARGET_NODE_ID ->
  min_cut g = Ok (S, T) ->
  sumZ (cap g SOURCE_NODE_ID) nodes - sumZ (res g SOURCE_NODE_ID) nodes
  = cut_capacity g S T.
Proof.
  intros Hcore Hcons Hsat Hcut.
  destruct (min_cut_spec g) as (tr & Htr & Hmc). rewrite Hmc in Hcut.
  assert (HS : S = filter (fun i => nth i tr false) nodes) by congruence.
  assert (HT : T = filter (fun i => negb (nth i tr false)) nodes) by congruence.
  subst S T. clear Hcut.
  rewrite <- sumZ_minus.
  rewrite (cut_sum (fun u v => cap g u v - res g u v) (fun i => nth i tr false)).
  - unfold cut_capacity. apply sumZ_ext. intros u Hu. apply sumZ_ext. intros v Hv.
    apply filter_In in Hu. destruct Hu as [_ Hu]. apply Htr in Hu.
    apply filter_In in Hv. destruct Hv as [Hv Hnv]. apply in_nodes in Hv.
    assert (Hle : res g u v <= 0).
    { destruct (Z.lt_ge_cases 0 (res g u v)) as [Hpos|]; [|lia].
      exfalso. assert (Hr : reach g v) by (eapply reach_step; eauto).
      apply Htr in Hr. rewrite Hr in Hnv. discriminate. }
    pose proof (core_nonneg _ Hcore u v). lia.
  - apply net_skew, Hcore.
  - apply Htr. constructor.
  - intros u Hu Hvis Hus. rewrite sumZ_minus.
    rewrite Hcons; auto; [lia|]. intros ->. apply Hsat, Htr, Hvis.
Qed.

Lemma weak_duality g f (P : nat -> bool) :
  is_flow g f -> P SOURCE_NODE_ID = true -> P TARGET_NODE_ID = false ->
  flow_value f
  <= cut_capacity g (filter P nodes) (filter (fun v => negb (P v)) nodes).
Proof.
  intros [Hcap Hcons] Hs Ht. unfold flow_value. rewrite <- sumZ_minus.
  rewrite (cut_sum (fun u v => f u v - f v u) P); auto.
  - unfold cut_capacity. apply sumZ_le. intros u _. apply sumZ_le. intros v _.
    pose proof (Hcap u v). pose proof (Hcap v u). lia.
  - intros; lia.
  - intros u Hu Hp Hus. rewrite sumZ_minus.
    assert (E : sumZ (fun v => f v u) nodes = sumZ (f u) nodes).
    { apply (Hcons u); auto. intros ->. congruence. }
    lia.
Qed.

Lemma flow_exists g :
  core_inv g -> nonneg_caps g -> conserved g ->
  exists f, is_flow g f /\
    flow_value f
    = sumZ (cap g SOURCE_NODE_ID) nodes - sumZ (res g SOURCE_NODE_ID) nodes.
Proof.
  intros Hcore Hcaps Hcons.
  exists (fun u v => Z.max 0 (cap g u v - res g u v)).
  assert (Hdiff : forall u v,
            Z.max 0 (cap g u v - res g u v) - Z.max 0 (cap g v u - res g v u)
            = cap g u v - res g u v).
  { intros u v. pose proof (net_skew g Hcore u v). lia. }
  assert (Hrow : forall x,
            sumZ (fun v => Z.max 0 (cap g x v - res g x v)) nodes
            - sumZ (fun v => Z.max 0 (cap g v x - res g v x)) nodes
            = sumZ (cap g x) nodes - sumZ (res g x) nodes).
  { intros x. rewrite <- !sumZ_minus. apply sumZ_ext. intros v _. apply Hdiff. }
  split; [split|].
  - intros u v. pose proof (core_nonneg _ Hcore u v). pose proof (Hcaps u v). lia.
  - intros x Hx Hxs Hxt. specialize (Hrow x). rewrite Hcons in Hrow by auto. lia.
  - unfold flow_value. apply Hrow.
Qed.

Lemma is_flow_cap_ext g g' f :
  (forall u v, cap g' u v = cap g u v) -> is_flow g' f -> is_flow g f.
Proof.
  intros Hc [H1 H2]. split; auto. intros u v. rewrite <- Hc. apply H1.
Qed.

Lemma cut_capacity_cap_ext g g' S T :
  (forall u v, cap g' u v = cap g u v) -> cut_capacity g' S T = cut_capacity g S T.
Proof.
  intros Hc. unfold cut_capacity. apply sumZ_ext. intros; apply sumZ_ext. auto.
Qed.

(* ------------------------------------------------------------------ *)
(** ** The parent ids of a search do not depend on the buffer it was given *)

Lemma same_search_visit g u st1 st2 v :
  (v < NODE_COUNT)%nat -> same_search st1 st2 ->
  same_search (visit g u st1 v) (visit g u st2 v).
Proof.
  intros Hv (Ht & Hq & p1 & p2 & Hp1 & Hp2 & Hl1 & Hl2 & Hsame).
  unfold visit. rewrite <- Ht.
  destruct (negb (nth v (trav st1) false) && (0 <? res g u v)).
  - split; [|split]; cbn [trav bfs_q parents].
    + now rewrite Ht.
    + now rewrite Hq.
    + rewrite Hp1, Hp2. cbn [option_map].
      exists (set_parent p1 v (Z.of_nat u)), (set_parent p2 v (Z.of_nat u)).
      rewrite !length_set_parent. repeat split; auto.
      intros w Hw Htw. destruct (Nat.eq_dec v w) as [<-|Hne].
      * rewrite !parent_of_set_eq by lia. reflexivity.
      * rewrite !parent_of_set_neq by auto. apply Hsame; auto.
        rewrite nth_vec_set_neq in Htw; auto.
  - split; [exact Ht|]. split; [exact Hq|]. exists p1, p2. repeat split; auto.
Qed.

Lemma same_search_while g : forall fuel st1 st2 r1,
  same_search st1 st2 -> bfs_while fuel g st1 = Ok r1 ->
  exists r2, bfs_while fuel g st2 = Ok r2 /\ same_search r1 r2.
Proof.
  assert (Hscan : forall u l st1 st2,
            (forall c, In c l -> (c < NODE_COUNT)%nat) -> same_search st1 st2 ->
            same_search (fold_left (visit g u) l st1) (fold_left (visit g u) l st2)).
  { induction l as [|c l IH]; intros st1 st2 Hl H; simpl; auto.
    apply IH; [intros; apply Hl; simpl; auto|].
    apply same_search_visit; auto. apply Hl; simpl; auto. }
  induction fuel as [|fuel IH]; intros st1 st2 r1 Hs Hrun;
    pose proof Hs as (Ht & Hq & p1 & p2 & Hp1 & Hp2 & Hl1 & Hl2 & Hsame);
    simpl in *; rewrite <- Hq.
  - destruct (bfs_q st1); [|discriminate]. injection Hrun as <-. eauto.
  - destruct (bfs_q st1) as [|u rest] eqn:Hq1; [injection Hrun as <-; eauto|].
    eapply IH; [|exact Hrun]. apply Hscan.
    + intros c Hc. apply in_seq in Hc. lia.
    + split; [exact Ht|]. split; [reflexivity|]. cbn [trav parents].
      exists p1, p2. repeat split; auto.
Qed.

Lemma parent_chain_agree p1 p2 : forall n v c,
  parent_chain n p1 v = Ok c ->
  (forall w, In w c -> w <> SOURCE_NODE_ID -> parent_of p1 w = parent_of p2 w) ->
  parent_chain n p2 v = Ok c.
Proof.
  induction n as [|n IH]; intros v c Hc Hsame.
  - simpl in *. destruct (Nat.eqb v SOURCE_NODE_ID); auto.
  - destruct (Nat.eqb_spec v SOURCE_NODE_ID) as [Hv|Hv].
    + simpl in *. destruct (Nat.eqb_spec v SOURCE_NODE_ID); [auto|congruence].
    + destruct (parent_chain_step _ _ _ _ Hv Hc) as (c' & -> & Hvi & Hc').
      simpl. destruct (Nat.eqb_spec v SOURCE_NODE_ID); [congruence|].
      rewrite <- (Hsame v) by (simpl; auto). rewrite Hvi.
      rewrite (IH _ _ Hc'); [reflexivity|].
      intros w Hw. apply Hsame. simpl; auto.
Qed.

Lemma bfs_init_same (p1 p2 : path_t) :
  length p1 = NODE_COUNT -> length p2 = NODE_COUNT ->
  same_search (bfs_init (Some p1)) (bfs_init (Some p2)).
Proof.
  intros H1 H2. split; [reflexivity|]. split; [reflexivity|].
  exists p1, p2. repeat split; auto.
  intros v Hv Ht. unfold bfs_init in Ht. cbn [trav] in Ht.
  rewrite nth_vec_set_neq, nth_repeat in Ht by auto. discriminate.
Qed.

(* ------------------------------------------------------------------ *)
(** ** Checking a concrete table *)

Lemma check2_sound t :
  check2 t = true ->
  forall u v, (u < NODE_COUNT)%nat -> (v < NODE_COUNT)%nat -> t u v = true.
Proof.
  unfold check2. intros H u v Hu Hv. rewrite forallb_forall in H.
  specialize (H u). rewrite forallb_forall in H.
  apply H; apply in_seq; lia.
Qed.

Lemma edge_at_default g u v :
  wf_graph g -> (NODE_COUNT <= u)%nat \/ (NODE_COUNT <= v)%nat ->
  edge_at g u v = no_edge.
Proof.
  intros Hwf H. unfold edge_at.
  destruct (Nat.lt_ge_cases u NODE_COUNT) as [Hu|Hu].
  - apply nth_overflow. rewrite wf_graph_row by auto. lia.
  - rewrite (nth_overflow g) by (destruct Hwf; lia). now destruct v.
Qed.

Lemma check2_all g (P : nat -> nat -> Prop) t :
  wf_graph g -> check2 t = true ->
  (forall u v, (u < NODE_COUNT)%nat -> (v < NODE_COUNT)%nat -> t u v = true -> P u v) ->
  (forall u v, edge_at g u v = no_edge -> edge_at g v u = no_edge -> P u v) ->
  forall u v, P u v.
Proof.
  intros Hwf Hc Hin Hout u v.
  destruct (Nat.lt_ge_cases u NODE_COUNT) as [Hu|Hu];
    [destruct (Nat.lt_ge_cases v NODE_COUNT) as [Hv|Hv]|].
  - apply Hin; auto. apply check2_sound; auto.
  - apply Hout; apply edge_at_default; auto.
  - apply Hout; apply edge_at_default; auto.
Qed.

Lemma freshb_sound g : wf_graph g -> freshb g = true -> fresh g.
Proof.
  intros Hwf H. unfold fresh.
  apply (check2_all g (fun u v => res g u v = cap g u v) _ Hwf H).
  - intros u v _ _ E. now apply Z.eqb_eq.
  - intros u v E _. unfold res, cap. now rewrite E.
Qed.

Lemma nonneg_capsb_sound g : wf_graph g -> nonneg_capsb g = true -> nonneg_caps g.
Proof.
  intros Hwf H. unfold nonneg_caps.
  apply (check2_all g (fun u v => 0 <= cap g u v) _ Hwf H).
  - intros u v _ _ E. now apply Z.leb_le.
  - intros u v E _. unfold cap. rewrite E. simpl. lia.
Qed.

Lemma pair_boundb_sound g : wf_graph g -> pair_boundb g = true -> pair_bound g.
Proof.
  intros Hwf H. unfold pair_bound.
  apply (check2_all g (fun u v => u <> v -> cap g u v + cap g v u <= INT_MAX) _ Hwf H).
  - intros u v _ _ E _. now apply Z.leb_le.
  - intros u v E1 E2 _. unfold cap. rewrite E1, E2. simpl. unfold INT_MAX. lia.
Qed.


(** Facts about a concrete table, by evaluation. *)
Ltac table_check :=
  first [ apply wf_graphb_sound; reflexivity
        | apply int_graphb_sound; reflexivity
        | apply freshb_sound; [apply wf_graphb_sound|]; reflexivity
        | apply nonneg_capsb_sound; [apply wf_graphb_sound|]; reflexivity
        | apply pair_boundb_sound; [apply wf_graphb_sound|]; reflexivity
        | vm_compute; discriminate ].

(* ------------------------------------------------------------------ *)
(** ** The first round on the graph of [main], step by step *)

(** The search marks w, x, z from s, then y and t from w. *)
Example first_search_parents :
  exists r p,
    bfs main_graph None None (Some init_path) = Ok r /\
    reached r = true /\ outPath_out r = Some p /\
    map parent_id_ p = [-1; 0; 0; 0; 1; 1].
Proof.
  eexists; eexists. split; [vm_compute; reflexivity|].
  split; [reflexivity|]. split; reflexivity.
Qed.

(** The chain is t, w, s; its bottleneck is min (INT_MAX, 10, 4).  The
    parent ids of t and w are cleared, those of x, z and y are left behind. *)
Example first_round :
  exists s',
    augment (ff_init main_graph) = Ok (Some (4, s')) /\
    ff_flow s' = 4 /\
    res (ff_graph s') 0 1 = 0 /\ res (ff_graph s') 1 0 = 4 /\
    res (ff_graph s') 1 5 = 6 /\ res (ff_graph s') 5 1 = 4 /\
    map parent_id_ (ff_path s') = [-1; -1; 0; 0; 1; -1].
Proof.
  eexists. split; [vm_compute; reflexivity|].
  repeat (split; [reflexivity|]). reflexivity.
Qed.

(** The bottlenecks of the five rounds. *)
Example main_bottlenecks : bottlenecks 10 (ff_init main_graph) = [4; 6; 2; 5; 2].
Proof. vm_compute. reflexivity. Qed.

(* ================================================================== *)
(** * Properties of the program *)

(** ** bfs *)



(** ** findMinCut *)

(** C4. If [findMinCut] is invoked on a residual graph that still contains
    an augmenting path (the sink is reachable from the source along edges of
    positive residual capacity), all it writes is the failure message: no
    partition is written, and the message is not the report of any cut. *)
Theorem findMinCut_rejects_unsaturated (g : graph_t) :
  wf_graph g -> reach g TARGET_NODE_ID ->
  findMinCut g = Ok still_augmenting /\
  forall S T, findMinCut g <> Ok (cut_report S T).
Proof.
  intros _ Hr.
  destruct (bfs_both_buffers g) as (tr & Htr & Hb).
  assert (E : findMinCut g = Ok still_augmenting).
  { unfold findMinCut. rewrite Hb. cbn [bind sPath_out tPath_out reached].
    apply Htr in Hr. rewrite Hr. reflexivity. }
  split; [exact E|]. intros S T. rewrite E. discriminate.
Qed.

Lemma findMinCut_rejects_unsaturated_witness :
  wf_graph main_graph /\ reach main_graph TARGET_NODE_ID /\
  findMinCut main_graph = Ok still_augmenting /\
  forall S T, findMinCut main_graph <> Ok (cut_report S T).
Proof.
  assert (H : reach main_graph TARGET_NODE_ID).
  { apply (reach_step main_graph 1%nat); [|vm_compute; lia|reflexivity].
    apply (reach_step main_graph 0%nat); [constructor|vm_compute; lia|reflexivity]. }
  assert (Hwf : wf_graph main_graph) by table_check.
  split; [exact Hwf|]. split; [exact H|].
  exact (findMinCut_rejects_unsaturated main_graph Hwf H).
Defined.

(** ** The parent chain *)

Lemma chain_edges_parent g p c :
  chain g p c ->
  forall u v, In (u, v) (chain_edges c) ->
    parent_of p v = Z.of_nat u /\ (u < NODE_COUNT)%nat /\ (v < NODE_COUNT)%nat /\
    v <> SOURCE_NODE_ID /\ 0 < res g u v.
Proof.
  intros Hc. pose proof (chain_range _ _ _ Hc) as Hr.
  induction Hc as [|v u c Hv Hlt Hp Hpos Hc IH]; intros a b He; simpl in He; [tauto|].
  destruct He as [[= <- <-]|He].
  - repeat split; auto. apply Hr. simpl; auto.
  - apply IH; auto. intros; apply Hr; simpl; auto.
Qed.

Lemma bfs_tracking_run g (path : path_t) r :
  length path = NODE_COUNT ->
  bfs g None None (Some path) = Ok r ->
  exists st order p,
    bfs_while NODE_COUNT g (bfs_init (Some path)) = Ok st /\
    bfs_inv g order st /\ closed g order order /\
    parents st = Some p /\ length p = NODE_COUNT /\
    r = mkBfsResult (nth TARGET_NODE_ID (trav st) false) None None (Some p).
Proof.
  intros Hlen Hb.
  destruct (bfs_while_run g (Some path)) as (st & order & Hrun & Hinv & Hcl).
  { intros p [= <-]; auto. }
  destruct (bfs_while_parents_some g _ (bfs_init (Some path)) st path eq_refl Hrun)
    as [p Hp].
  exists st, order, p.
  split; [exact Hrun|]. split; [exact Hinv|]. split; [exact Hcl|].
  split; [exact Hp|]. split; [apply (inv_parent _ _ _ Hinv p Hp)|].
  unfold bfs in Hb. rewrite Hrun in Hb. cbn [bind partition_nodes] in Hb.
  rewrite Hp in Hb. congruence.
Qed.

(** C10. Whenever [bfs] returns true in parent-tracking mode, the parent
    chain walks of [fordFulkerson] are safe, whatever stale values the reused
    buffer held on entry: the walk from the sink reaches the source within
    NODE_COUNT steps without visiting a node twice; every parent id it reads
    lies in [0, NODE_COUNT), is not INVALID_PARENT, and is the start of an
    edge of positive residual capacity; the chain is the same for every
    content of the buffer on entry, so the ids read were all written by this
    call; and both walks of the loop body run to completion along it. *)
Theorem parent_walk_safe (g : graph_t) (stale : path_t) (r : bfs_result) :
  wf_graph g ->
  length stale = NODE_COUNT ->
  bfs g None None (Some stale) = Ok r ->
  reached r = true ->
  exists p c,
    outPath_out r = Some p /\
    parent_chain NODE_COUNT p TARGET_NODE_ID = Ok (TARGET_NODE_ID :: c) /\
    last (TARGET_NODE_ID :: c) TARGET_NODE_ID = SOURCE_NODE_ID /\
    NoDup (TARGET_NODE_ID :: c) /\
    (forall v, In v (TARGET_NODE_ID :: c) -> (v < NODE_COUNT)%nat) /\
    (forall u v, In (u, v) (chain_edges (TARGET_NODE_ID :: c)) ->
       parent_of p v = Z.of_nat u /\ parent_of p v <> INVALID_PARENT /\
       0 <= parent_of p v < Z.of_nat NODE_COUNT /\ 0 < res g u v) /\
    (forall stale' : path_t, length stale' = NODE_COUNT ->
       exists r' p', bfs g None None (Some stale') = Ok r' /\
                     reached r' = true /\ outPath_out r' = Some p' /\
                     parent_chain NODE_COUNT p' TARGET_NODE_ID
                     = Ok (TARGET_NODE_ID :: c)) /\
    min_flow_walk NODE_COUNT g p TARGET_NODE_ID INT_MAX
    = Ok (bottleneck g (TARGET_NODE_ID :: c)) /\
    push_flow_walk NODE_COUNT g p TARGET_NODE_ID (bottleneck g (TARGET_NODE_ID :: c))
    = Ok (push_chain (bottleneck g (TARGET_NODE_ID :: c)) (TARGET_NODE_ID :: c) g,
          clear_chain (TARGET_NODE_ID :: c) p).
Proof.
  intros _ Hlen Hb Hreached.
  destruct (bfs_tracking_run g stale r Hlen Hb)
    as (st & order & p & Hrun & Hinv & Hcl & Hp & Hpl & ->).
  cbn [reached outPath_out] in *.
  destruct (bfs_target_chain _ _ _ _ Hinv Hp Hreached) as (c & Hc & Hch & Hnd & Hincl).
  exists p, c.
  split; [reflexivity|]. split; [exact Hc|].
  split; [apply (chain_last _ _ _ _ Hch)|]. split; [exact Hnd|].
  split; [apply (chain_range _ _ _ Hch)|].
  split; [|split; [|split]].
  - intros u v He.
    destruct (chain_edges_parent _ _ _ Hch u v He) as (Hpu & Hu & Hv & Hvs & Hpos).
    rewrite Hpu. unfold INVALID_PARENT. repeat split; auto; lia.
  - intros stale' Hlen'.
    destruct (same_search_while g NODE_COUNT _ (bfs_init (Some stale')) st
                (bfs_init_same stale stale' Hlen Hlen') Hrun)
      as (st' & Hrun' & Ht & _ & p1 & p2 & Hp1 & Hp2 & _ & _ & Hsame).
    rewrite Hp in Hp1. injection Hp1 as <-.
    exists (mkBfsResult (nth TARGET_NODE_ID (trav st') false) None None (Some p2)), p2.
    cbn [reached outPath_out]. rewrite <- Ht.
    split; [|split; [exact Hreached|split; [reflexivity|]]].
    + unfold bfs. rewrite Hrun'. cbn [bind partition_nodes]. rewrite Hp2, Ht. reflexivity.
    + apply (parent_chain_agree p p2 _ _ _ Hc).
      intros w Hw Hws. apply Hsame; auto.
      apply (inv_trav _ _ _ Hinv). apply Hincl, Hw.
  - apply (min_flow_walk_chain _ _ _ _ _ _ Hc).
  - apply (push_flow_walk_chain _ _ _ _ _ _ Hc Hnd).
Qed.

Lemma parent_walk_safe_witness :
  exists r, wf_graph main_graph /\ length init_path = NODE_COUNT /\
    bfs main_graph None None (Some init_path) = Ok r /\ reached r = true /\
    exists p c,
      outPath_out r = Some p /\
      parent_chain NODE_COUNT p TARGET_NODE_ID = Ok (TARGET_NODE_ID :: c) /\
      last (TARGET_NODE_ID :: c) TARGET_NODE_ID = SOURCE_NODE_ID /\
      NoDup (TARGET_NODE_ID :: c).
Proof.
  destruct (bfs main_graph None None (Some init_path)) as [r| |] eqn:Hb;
    [|vm_compute in Hb; discriminate Hb|vm_compute in Hb; discriminate Hb].
  exists r.
  assert (Hr : reached r = true).
  { vm_compute in Hb. injection Hb as <-. reflexivity. }
  assert (Hwf : wf_graph main_graph) by table_check.
  split; [exact Hwf|].
  split; [reflexivity|]. split; [reflexivity|]. split; [exact Hr|].
  destruct (parent_walk_safe main_graph init_path r Hwf eq_refl Hb Hr)
    as (p & c & H1 & H2 & H3 & H4 & _).
  exists p, c. auto.
Defined.

(** ** The loop of fordFulkerson *)

(** What one round of the loop does to the table and to the path buffer. *)
Lemma augment_edges s delta s' :
  ff_base s -> augment s = Ok (Some (delta, s')) ->
  exists p c,
    bfs (ff_graph s) None None (Some (ff_path s))
    = Ok (mkBfsResult true None None (Some p)) /\
    parent_chain NODE_COUNT p TARGET_NODE_ID = Ok (TARGET_NODE_ID :: c) /\
    chain (ff_graph s) p (TARGET_NODE_ID :: c) /\
    delta = bottleneck (ff_graph s) (TARGET_NODE_ID :: c) /\
    forall u v, In (u, v) (chain_edges (TARGET_NODE_ID :: c)) ->
      0 < delta <= res (ff_graph s) u v /\
      res (ff_graph s') u v = res (ff_graph s) u v - delta /\
      res (ff_graph s') v u = int_add (res (ff_graph s) v u) delta /\
      parent_of (ff_path s') v = INVALID_PARENT.
Proof.
  intros (Hwf & Hint & Hlen) Haug.
  destruct (augment_spec s Hlen) as [[H _]|(p & c & Hpl & Hb & Hc & Hch & Hnd & H)];
    rewrite H in Haug; [discriminate|].
  injection Haug as <- <-. cbn [ff_graph ff_path ff_flow].
  exists p, c. split; [exact Hb|]. split; [exact Hc|]. split; [exact Hch|].
  split; [reflexivity|].
  set (tc := TARGET_NODE_ID :: c) in *. set (g := ff_graph s) in *.
  pose proof (chain_range _ _ _ Hch) as Hrange.
  pose proof (bottleneck_pos _ _ _ Hch) as Hpos.
  intros u v He.
  pose proof (bottleneck_le g tc _ He) as Hle. cbn [fst snd] in Hle.
  destruct (push_chain_edge (bottleneck g tc) tc g Hwf Hnd Hrange u v He) as [Hf Hr].
  destruct (Hint u v) as [[_ Hmax] _].
  split; [lia|]. split; [|split; [exact Hr|]].
  - rewrite Hf. apply int_sub_exact. unfold is_int, INT_MIN. lia.
  - eapply clear_chain_edge; eauto.
Qed.

(** The same, with the path the round follows and what it leaves alone. *)
Lemma augment_round s delta s' :
  ff_base s -> augment s = Ok (Some (delta, s')) ->
  exists p c,
    bfs (ff_graph s) None None (Some (ff_path s))
    = Ok (mkBfsResult true None None (Some p)) /\
    parent_chain NODE_COUNT p TARGET_NODE_ID = Ok (TARGET_NODE_ID :: c) /\
    chain (ff_graph s) p (TARGET_NODE_ID :: c) /\
    NoDup (TARGET_NODE_ID :: c) /\
    delta = bottleneck (ff_graph s) (TARGET_NODE_ID :: c) /\
    ff_graph s' = push_chain delta (TARGET_NODE_ID :: c) (ff_graph s) /\
    (forall u v, In (u, v) (chain_edges (TARGET_NODE_ID :: c)) ->
       0 < delta <= res (ff_graph s) u v /\
       res (ff_graph s') u v = res (ff_graph s) u v - delta /\
       res (ff_graph s') v u = int_add (res (ff_graph s) v u) delta) /\
    (forall a b, ~ In (a, b) (chain_edges (TARGET_NODE_ID :: c)) ->
                 ~ In (b, a) (chain_edges (TARGET_NODE_ID :: c)) ->
                 res (ff_graph s') a b = res (ff_graph s) a b).
Proof.
  intros (Hwf & Hint & Hlen) Haug.
  destruct (augment_spec s Hlen) as [[H _]|(p & c & Hpl & Hb & Hc & Hch & Hnd & H)];
    rewrite H in Haug; [discriminate|].
  injection Haug as <- <-. cbn [ff_graph].
  exists p, c. split; [exact Hb|]. split; [exact Hc|]. split; [exact Hch|].
  split; [exact Hnd|]. split; [reflexivity|]. split; [reflexivity|].
  set (tc := TARGET_NODE_ID :: c) in *. set (g := ff_graph s) in *.
  pose proof (chain_range _ _ _ Hch) as Hrange.
  pose proof (bottleneck_pos _ _ _ Hch) as Hpos.
  split.
  - intros u v He.
    pose proof (bottleneck_le g tc _ He) as Hle. cbn [fst snd] in Hle.
    destruct (push_chain_edge (bottleneck g tc) tc g Hwf Hnd Hrange u v He) as [Hf Hr].
    destruct (Hint u v) as [[_ Hmax] _].
    split; [lia|]. split; [|exact Hr].
    rewrite Hf. apply int_sub_exact. unfold is_int, INT_MIN. lia.
  - intros a b H1 H2. apply push_chain_other; auto.
Qed.

(** C3. For every NODE_COUNT x NODE_COUNT table of [int]s (non-negative or
    not) the loop of [fordFulkerson] terminates: the function returns as soon
    as the fuel covers the residual capacity on the edges leaving the source,
    because every round finds a bottleneck that is strictly positive, adds it
    to [max_flow], and takes it away from that capacity. *)
Theorem fordFulkerson_terminates (g : graph_t) :
  wf_graph g -> int_graph g ->
  (forall fuel, potential g <= Z.of_nat fuel ->
     exists r, fordFulkerson fuel g = Ok r) /\
  (forall s delta s',
     ff_steps (ff_init g) s -> augment s = Ok (Some (delta, s')) ->
     0 < delta /\ ff_flow s' = int_add (ff_flow s) delta /\
     0 <= potential (ff_graph s') /\
     potential (ff_graph s') = potential (ff_graph s) - delta).
Proof.
  intros Hwf Hint. split.
  - intros fuel Hfuel.
    destruct (fordFulkerson_run fuel g Hwf Hint Hfuel) as (s & _ & _ & Hr). eauto.
  - intros s delta s' Hst Haug.
    destruct (ff_steps_inv (fun _ => True) (fun _ _ _ _ _ _ => I) _ _ Hst
                (ff_base_init g Hwf Hint) I) as [Hb _].
    destruct (augment_step _ _ _ Hb Haug) as (_ & Hd & Hfl & Hpot).
    pose proof (potential_nonneg (ff_graph s')). repeat split; auto; lia.
Qed.

Lemma fordFulkerson_terminates_witness :
  wf_graph main_graph /\ int_graph main_graph /\
  exists r, fordFulkerson 21 main_graph = Ok r.
Proof.
  assert (Hwf : wf_graph main_graph) by table_check.
  assert (Hint : int_graph main_graph) by table_check.
  split; [exact Hwf|]. split; [exact Hint|].
  apply (proj1 (fordFulkerson_terminates main_graph Hwf Hint) 21%nat).
  vm_compute. discriminate.
Defined.

Lemma ff_steps_base g s :
  wf_graph g -> int_graph g -> ff_steps (ff_init g) s -> ff_base s.
Proof.
  intros Hwf Hint Hst.
  apply (ff_steps_inv (fun _ => True) (fun _ _ _ _ _ _ => I) _ _ Hst
           (ff_base_init g Hwf Hint) I).
Qed.

(** C5, as the code has it.  In each round of the loop after a successful
    search, the bottleneck is the minimum residual capacity over the edges
    (parent, child) of the parent chain from the sink back to the source,
    starting from INT_MAX; then for each such edge the forward residual
    capacity is decreased by exactly the bottleneck, the child's parent id is
    reset to INVALID_PARENT, and the residual capacity of the reverse pair is
    increased by the bottleneck in [int] arithmetic: by exactly the
    bottleneck whenever the sum does not exceed INT_MAX. *)
Theorem augment_updates_chain (g : graph_t) (s s' : ff_state) (delta : Z) :
  wf_graph g -> int_graph g -> ff_steps (ff_init g) s ->
  augment s = Ok (Some (delta, s')) ->
  exists p c,
    bfs (ff_graph s) None None (Some (ff_path s))
    = Ok (mkBfsResult true None None (Some p)) /\
    parent_chain NODE_COUNT p TARGET_NODE_ID = Ok c /\
    delta = fold_left (min_edge (ff_graph s)) (chain_edges c) INT_MAX /\
    (forall u v, In (u, v) (chain_edges c) -> delta <= res (ff_graph s) u v) /\
    (delta = INT_MAX \/
     exists u v, In (u, v) (chain_edges c) /\ delta = res (ff_graph s) u v) /\
    forall u v, In (u, v) (chain_edges c) ->
      parent_of p v = Z.of_nat u /\
      res (ff_graph s') u v = res (ff_graph s) u v - delta /\
      res (ff_graph s') v u = int_add (res (ff_graph s) v u) delta /\
      (res (ff_graph s) v u + delta <= INT_MAX ->
       res (ff_graph s') v u = res (ff_graph s) v u + delta) /\
      parent_of (ff_path s') v = INVALID_PARENT.
Proof.
  intros Hwf Hint Hst Haug.
  pose proof (ff_steps_base g s Hwf Hint Hst) as Hb.
  destruct (augment_edges s delta s' Hb Haug) as (p & c & Hbfs & Hc & Hch & Hd & He).
  exists p, (TARGET_NODE_ID :: c).
  split; [exact Hbfs|]. split; [exact Hc|]. split; [exact Hd|].
  split; [intros u v Hin; apply (He u v Hin)|]. split.
  - rewrite Hd. unfold bottleneck.
    destruct (fold_min_attained (ff_graph s) (chain_edges (TARGET_NODE_ID :: c)) INT_MAX)
      as [E|([u v] & Hin & E)]; [left; exact E|right].
    exists u, v. split; [exact Hin|exact E].
  - intros u v Hin. destruct (He u v Hin) as (Hpos & Hf & Hr & Hcl).
    destruct (chain_edges_parent _ _ _ Hch u v Hin) as (Hpar & _).
    split; [exact Hpar|]. split; [exact Hf|]. split; [exact Hr|]. split; [|exact Hcl].
    intros Hle. rewrite Hr. apply int_add_exact.
    destruct Hb as (_ & Hi & _). destruct (Hi v u) as [[Hmin _] _].
    unfold is_int in *. lia.
Qed.

Lemma augment_updates_chain_witness :
  exists s', wf_graph main_graph /\ int_graph main_graph /\
    ff_steps (ff_init main_graph) (ff_init main_graph) /\
    augment (ff_init main_graph) = Ok (Some (4, s')) /\
    exists p c,
      parent_chain NODE_COUNT p TARGET_NODE_ID = Ok c /\
      forall u v, In (u, v) (chain_edges c) -> 4 <= res main_graph u v.
Proof.
  destruct (augment (ff_init main_graph)) as [[[d s']|]| |] eqn:Ha;
    try (vm_compute in Ha; discriminate Ha).
  assert (Hd : d = 4) by (vm_compute in Ha; congruence). subst d.
  exists s'.
  assert (Hwf : wf_graph main_graph) by table_check.
  assert (Hint : int_graph main_graph) by table_check.
  split; [exact Hwf|]. split; [exact Hint|]. split; [apply ff_steps_refl|].
  split; [reflexivity|].
  destruct (augment_updates_chain main_graph (ff_init main_graph) s' 4 Hwf Hint
              (ff_steps_refl _) Ha) as (p & c & _ & Hc & _ & Hle & _).
  exists p, c. split; [exact Hc|exact Hle].
Defined.

(** C5 as stated fails where the reverse pair is close to INT_MAX: on
    [overflow_graph] the first round pushes INT_MAX along s -> t, and the
    residual capacity of t -> s, INT_MAX before, is -2 afterwards. *)
Lemma reverse_residual_overflows :
  exists p s',
    bfs overflow_graph None None (Some init_path)
    = Ok (mkBfsResult true None None (Some p)) /\
    parent_chain NODE_COUNT p TARGET_NODE_ID = Ok [TARGET_NODE_ID; SOURCE_NODE_ID] /\
    augment (ff_init overflow_graph) = Ok (Some (INT_MAX, s')) /\
    res overflow_graph TARGET_NODE_ID SOURCE_NODE_ID = INT_MAX /\
    res (ff_graph s') TARGET_NODE_ID SOURCE_NODE_ID = -2 /\
    res (ff_graph s') TARGET_NODE_ID SOURCE_NODE_ID
    <> res overflow_graph TARGET_NODE_ID SOURCE_NODE_ID + INT_MAX.
Proof.
  eexists; eexists. split; [vm_compute; reflexivity|].
  split; [reflexivity|]. split; [vm_compute; reflexivity|].
  split; [reflexivity|]. split; [reflexivity|].
  vm_compute. discriminate.
Qed.

(** ** Capacity and conservation *)

Lemma ff_loop_steps : forall fuel s s',
  ff_loop fuel s = Ok s' -> ff_steps s s' /\ augment s' = Ok None.
Proof.
  induction fuel as [|fuel IH]; intros s s' H; cbn [ff_loop] in H;
    destruct (augment s) as [[[d s1]|]| |] eqn:Ha; cbn [bind] in H; try discriminate.
  - injection H as <-. auto using ff_steps_refl.
  - destruct (IH _ _ H) as [Hst Hend]. split; [|exact Hend].
    eapply ff_steps_next; eauto.
  - injection H as <-. auto using ff_steps_refl.
Qed.

Lemma fordFulkerson_steps fuel g r :
  fordFulkerson fuel g = Ok r ->
  exists s, ff_steps (ff_init g) s /\ augment s = Ok None /\
            max_flow r = ff_flow s /\ residualGraph r = ff_graph s.
Proof.
  unfold fordFulkerson. fold (ff_init g).
  destruct (ff_loop fuel (ff_init g)) as [s| |] eqn:Hl; cbn [bind]; try discriminate.
  intros [= <-]. destruct (ff_loop_steps _ _ _ Hl) as [Hst Hend].
  exists s. auto.
Qed.

Lemma ff_steps_flow_inv g s :
  wf_graph g -> int_graph g -> fresh g -> nonneg_caps g -> pair_bound g ->
  ff_steps (ff_init g) s -> ff_base s /\ flow_inv s.
Proof.
  intros Hwf Hint Hf Hnn Hpb Hst.
  apply (ff_steps_inv flow_inv) with (s := ff_init g); auto.
  - intros s0 d s1 Hb Hfi Ha. apply (augment_flow_inv _ _ _ Hb Hfi Ha).
  - apply ff_base_init; auto.
  - apply flow_inv_init; auto.
Qed.

Lemma edge_flow_exact g u v :
  int_graph g -> 0 <= res g u v -> 0 <= cap g u v ->
  edge_flow g u v = cap g u v - res g u v.
Proof.
  intros Hint Hr Hc. unfold edge_flow. apply int_sub_exact.
  destruct (Hint u v) as [[_ H1] [_ H2]]. unfold is_int, INT_MIN, INT_MAX in *. lia.
Qed.

(** C6, as the code has it.  On a table filled as [main] fills it (residual
    equal to original capacity, capacities non-negative) whose capacities are
    small enough for [int] (the two capacities of every pair of distinct
    nodes sum to at most INT_MAX), in every state of the loop of
    [fordFulkerson] and in the table it returns: every residual capacity is
    non-negative, so the flow originalCapacity - residualCapacity of a pair
    never exceeds its original capacity; the residual capacity of (u,v) never
    exceeds the original capacity of (u,v) plus that of (v,u), which bounds
    the flow pushed back onto it; and the flow of (u,v) is at least 0
    whenever the reverse pair (v,u) is not itself an input edge. *)
Theorem capacity_respected (g : graph_t) :
  wf_graph g -> int_graph g -> fresh g -> nonneg_caps g -> pair_bound g ->
  (forall s, ff_steps (ff_init g) s ->
     forall u v,
       0 <= res (ff_graph s) u v /\
       (u <> v -> res (ff_graph s) u v <= cap g u v + cap g v u) /\
       edge_flow (ff_graph s) u v = cap g u v - res (ff_graph s) u v /\
       edge_flow (ff_graph s) u v <= cap g u v /\
       (u = v \/ cap g v u = 0 -> 0 <= edge_flow (ff_graph s) u v)) /\
  (forall fuel r, fordFulkerson fuel g = Ok r ->
     forall u v,
       0 <= res (residualGraph r) u v /\
       (u <> v -> res (residualGraph r) u v <= cap g u v + cap g v u) /\
       edge_flow (residualGraph r) u v = cap g u v - res (residualGraph r) u v /\
       edge_flow (residualGraph r) u v <= cap g u v /\
       (u = v \/ cap g v u = 0 -> 0 <= edge_flow (residualGraph r) u v)).
Proof.
  intros Hwf Hint Hf Hnn Hpb.
  assert (Hall : forall s, ff_steps (ff_init g) s ->
     forall u v,
       0 <= res (ff_graph s) u v /\
       (u <> v -> res (ff_graph s) u v <= cap g u v + cap g v u) /\
       edge_flow (ff_graph s) u v = cap g u v - res (ff_graph s) u v /\
       edge_flow (ff_graph s) u v <= cap g u v /\
       (u = v \/ cap g v u = 0 -> 0 <= edge_flow (ff_graph s) u v)).
  { intros s Hst u v.
    destruct (ff_steps_flow_inv g s Hwf Hint Hf Hnn Hpb Hst) as [Hb [Hcore Hcaps _ _]].
    pose proof (ff_steps_cap _ _ Hst (ff_base_init g Hwf Hint)) as Hcap.
    cbn [ff_init ff_graph] in Hcap.
    destruct Hcore as [Hrn Hpair Hself]. destruct Hb as (_ & Hi & _).
    pose proof (Hrn u v) as Huv. pose proof (Hrn v u) as Hvu.
    pose proof (Hnn u v) as Hc0.
    assert (Hc1 : 0 <= cap (ff_graph s) u v) by (rewrite Hcap; exact Hc0).
    rewrite (edge_flow_exact _ u v Hi Huv Hc1), Hcap.
    assert (Hpair' : u <> v ->
              res (ff_graph s) u v + res (ff_graph s) v u = cap g u v + cap g v u).
    { intros Hne. rewrite <- !Hcap. apply Hpair, Hne. }
    assert (Hself' : u = v -> res (ff_graph s) u v = cap g u v).
    { intros <-. rewrite <- Hcap. apply Hself. }
    split; [exact Huv|]. split; [intros Hne; specialize (Hpair' Hne); lia|].
    split; [reflexivity|]. split; [lia|].
    intros [E|E]; [specialize (Hself' E); lia|].
    destruct (Nat.eq_dec u v) as [Heq|Hne]; [specialize (Hself' Heq); lia|].
    specialize (Hpair' Hne). lia. }
  split; [exact Hall|].
  intros fuel r Hr u v.
  destruct (fordFulkerson_steps fuel g r Hr) as (s & Hst & _ & _ & ->).
  apply (Hall s Hst u v).
Qed.

Lemma capacity_respected_witness :
  wf_graph main_graph /\ int_graph main_graph /\ fresh main_graph /\
  nonneg_caps main_graph /\ pair_bound main_graph /\
  forall fuel r, fordFulkerson fuel main_graph = Ok r ->
     forall u v,
       0 <= res (residualGraph r) u v /\
       (u <> v -> res (residualGraph r) u v
                  <= cap main_graph u v + cap main_graph v u) /\
       edge_flow (residualGraph r) u v
       = cap main_graph u v - res (residualGraph r) u v /\
       edge_flow (residualGraph r) u v <= cap main_graph u v /\
       (u = v \/ cap main_graph v u = 0 -> 0 <= edge_flow (residualGraph r) u v).
Proof.
  assert (Hwf : wf_graph main_graph) by table_check.
  assert (Hint : int_graph main_graph) by table_check.
  assert (Hf : fresh main_graph) by table_check.
  assert (Hnn : nonneg_caps main_graph) by table_check.
  assert (Hpb : pair_bound main_graph) by table_check.
  split; [exact Hwf|]. split; [exact Hint|]. split; [exact Hf|].
  split; [exact Hnn|]. split; [exact Hpb|].
  exact (proj2 (capacity_respected main_graph Hwf Hint Hf Hnn Hpb)).
Defined.

(** C6 as stated fails on [antiparallel_graph], where x -> w is an input
    edge of capacity 3 and the only augmenting path uses w -> x: the flow
    derived for x -> w is 3 - 8 = -5. *)
Lemma antiparallel_edge_flow_negative :
  exists r,
    fordFulkerson 5 antiparallel_graph = Ok r /\
    wf_graphb antiparallel_graph = true /\ freshb antiparallel_graph = true /\
    nonneg_capsb antiparallel_graph = true /\
    cap antiparallel_graph 2 1 = 3 /\
    res (residualGraph r) 2 1 = 8 /\
    edge_flow (residualGraph r) 2 1 = -5 /\
    ~ (0 <= cap (residualGraph r) 2 1 - res (residualGraph r) 2 1
       <= cap (residualGraph r) 2 1).
Proof.
  eexists. split; [vm_compute; reflexivity|].
  repeat (split; [reflexivity|]). vm_compute. intros [H _]. apply H. reflexivity.
Qed.

(** C8, as the code has it.  On a table filled as [main] fills it (residual
    equal to original capacity, capacities non-negative) whose capacities are
    small enough for [int], [fordFulkerson] returns, and in the table it
    leaves, at every node other than the source and the sink that is not
    joined to another node by input edges in both directions, the flow
    originalCapacity - residualCapacity summed over the input edges entering
    the node equals the sum over the input edges leaving it. *)
Theorem flow_conserved (g : graph_t) :
  wf_graph g -> int_graph g -> fresh g -> nonneg_caps g -> pair_bound g ->
  (forall fuel, potential g <= Z.of_nat fuel ->
     exists r, fordFulkerson fuel g = Ok r) /\
  (forall fuel r, fordFulkerson fuel g = Ok r ->
     forall x, (x < NODE_COUNT)%nat -> x <> SOURCE_NODE_ID -> x <> TARGET_NODE_ID ->
       (forall v, v <> x -> 0 < cap g x v -> cap g v x = 0) ->
       in_flow (residualGraph r) x = out_flow (residualGraph r) x).
Proof.
  intros Hwf Hint Hf Hnn Hpb.
  split.
  { intros fuel Hfuel.
    destruct (fordFulkerson_run fuel g Hwf Hint Hfuel) as (s & _ & _ & Hr). eauto. }
  intros fuel r Hr x Hx Hxs Hxt Hna.
  destruct (fordFulkerson_steps fuel g r Hr) as (s & Hst & _ & _ & ->).
  destruct (ff_steps_flow_inv g s Hwf Hint Hf Hnn Hpb Hst)
    as [(_ & Hi & _) [Hcore Hcaps _ Hcons]].
  pose proof (ff_steps_cap _ _ Hst (ff_base_init g Hwf Hint)) as Hcap.
  cbn [ff_init ff_graph] in Hcap.
  set (g' := ff_graph s) in *.
  assert (Hna' : forall v, v <> x -> 0 < cap g' x v -> cap g' v x = 0).
  { intros v Hne. rewrite !Hcap. apply Hna, Hne. }
  assert (Hzero : sumZ (fun v => cap g' x v - res g' x v) nodes = 0).
  { rewrite sumZ_minus, Hcons by auto. lia. }
  assert (Hdiff : out_flow g' x - in_flow g' x
                  = sumZ (fun v => cap g' x v - res g' x v) nodes).
  { unfold out_flow, in_flow. rewrite <- sumZ_minus. apply sumZ_ext. intros v _.
    pose proof (core_nonneg _ Hcore x v) as Hxv.
    pose proof (core_nonneg _ Hcore v x) as Hvx.
    pose proof (Hcaps x v) as Hcxv. pose proof (Hcaps v x) as Hcvx.
    rewrite !edge_flow_exact by auto.
    destruct (Nat.eq_dec x v) as [<-|Hne].
    - rewrite (core_self _ Hcore). destruct (0 <? cap g' x x); lia.
    - pose proof (core_pair _ Hcore x v Hne) as Hp.
      destruct (Z.ltb_spec 0 (cap g' x v)) as [H1|H1];
        destruct (Z.ltb_spec 0 (cap g' v x)) as [H2|H2].
      + rewrite (Hna' v (not_eq_sym Hne) H1) in H2. lia.
      + lia.
      + lia.
      + lia. }
  lia.
Qed.

Lemma flow_conserved_witness :
  wf_graph main_graph /\ int_graph main_graph /\ fresh main_graph /\
  nonneg_caps main_graph /\ pair_bound main_graph /\
  potential main_graph <= Z.of_nat 21 /\
  exists r, fordFulkerson 21 main_graph = Ok r /\
            in_flow (residualGraph r) 1 = out_flow (residualGraph r) 1.
Proof.
  assert (Hwf : wf_graph main_graph) by table_check.
  assert (Hint : int_graph main_graph) by table_check.
  assert (Hf : fresh main_graph) by table_check.
  assert (Hnn : nonneg_caps main_graph) by table_check.
  assert (Hpb : pair_bound main_graph) by table_check.
  assert (Hpot : potential main_graph <= Z.of_nat 21) by table_check.
  split; [exact Hwf|]. split; [exact Hint|]. split; [exact Hf|].
  split; [exact Hnn|]. split; [exact Hpb|]. split; [exact Hpot|].
  destruct (flow_conserved main_graph Hwf Hint Hf Hnn Hpb) as [Hrun Hcons].
  destruct (Hrun 21%nat Hpot) as [r Hr].
  exists r. split; [exact Hr|].
  apply (Hcons 21%nat r Hr 1%nat); [vm_compute; lia|discriminate|discriminate|].
  intros v _.
  destruct v as [|[|[|[|[|[|[|v]]]]]]]; vm_compute; intros H;
    solve [reflexivity | discriminate H].
Defined.

(** C8 as stated fails on [antiparallel_graph]: at node w the input edges
    s -> w and x -> w carry 5 and 3 - 8 = -5, the input edge w -> x carries
    5, so 0 flows in and 5 flows out. *)
Lemma antiparallel_not_conserved :
  exists r,
    fordFulkerson 5 antiparallel_graph = Ok r /\
    wf_graphb antiparallel_graph = true /\ freshb antiparallel_graph = true /\
    nonneg_capsb antiparallel_graph = true /\
    in_flow (residualGraph r) 1 = 0 /\
    out_flow (residualGraph r) 1 = 5 /\
    in_flow (residualGraph r) 1 <> out_flow (residualGraph r) 1.
Proof.
  eexists. split; [vm_compute; reflexivity|].
  repeat (split; [reflexivity|]). vm_compute. discriminate.
Qed.

(** ** Maximum flow and minimum cut *)

Lemma findMinCut_saturated g S T :
  ~ reach g TARGET_NODE_ID -> min_cut g = Ok (S, T) ->
  findMinCut g = Ok (cut_report S T).
Proof.
  intros Hsat Hcut.
  destruct (bfs_both_buffers g) as (tr & Htr & Hb).
  unfold min_cut in Hcut. unfold findMinCut. rewrite Hb in *.
  cbn [bind sPath_out tPath_out reached] in *.
  assert (HS : S = filter (fun i => nth i tr false) nodes) by congruence.
  assert (HT : T = filter (fun i => negb (nth i tr false)) nodes) by congruence.
  subst S T.
  destruct (nth TARGET_NODE_ID tr false) eqn:E; [|reflexivity].
  exfalso. apply Hsat, Htr, E.
Qed.

(** Duality for a run that stays within [int]. *)
Lemma max_flow_min_cut_run (g : graph_t) :
  wf_graph g -> int_graph g -> fresh g -> nonneg_caps g ->
  pair_bound g -> source_bound g ->
  forall fuel, potential g <= Z.of_nat fuel ->
  exists r S T,
    fordFulkerson fuel g = Ok r /\
    min_cut (residualGraph r) = Ok (S, T) /\
    findMinCut (residualGraph r) = Ok (cut_report S T) /\
    In SOURCE_NODE_ID S /\ In TARGET_NODE_ID T /\
    max_flow r = cut_capacity (residualGraph r) S T /\
    max_flow r = cut_capacity g S T /\
    is_max_flow g (max_flow r).
Proof.
  intros Hwf Hint Hf Hnn Hpb Hsb fuel Hfuel.
  destruct (fordFulkerson_run fuel g Hwf Hint Hfuel) as (s & Hst & Hend & Hr).
  assert (Hinv : ff_base s /\ (flow_inv s /\ value_inv s)).
  { apply (ff_steps_inv (fun s => flow_inv s /\ value_inv s)) with (s := ff_init g); auto.
    - intros s0 d s1 Hb0 H0 Ha. apply (augment_value_inv _ _ _ Hb0 H0 Ha).
    - apply ff_base_init; auto.
    - split; [apply flow_inv_init|apply value_inv_init]; auto. }
  destruct Hinv as [Hb [[Hcore Hcaps _ Hcons] [_ _ Hval]]].
  pose proof (ff_steps_cap _ _ Hst (ff_base_init g Hwf Hint)) as Hcap.
  cbn [ff_init ff_graph] in Hcap.
  assert (Hsat : ~ reach (ff_graph s) TARGET_NODE_ID).
  { destruct Hb as (_ & _ & Hlen).
    destruct (augment_spec s Hlen) as [[_ H]|(p & c & _ & _ & _ & _ & _ & H)];
      [exact H|congruence]. }
  destruct (min_cut_spec (ff_graph s)) as (tr & Htr & Hmc).
  set (S := filter (fun i => nth i tr false) nodes) in *.
  set (T := filter (fun i => negb (nth i tr false)) nodes) in *.
  assert (Hs : nth SOURCE_NODE_ID tr false = true) by (apply Htr; constructor).
  assert (Ht : nth TARGET_NODE_ID tr false = false).
  { destruct (nth TARGET_NODE_ID tr false) eqn:E; auto.
    exfalso. apply Hsat, Htr, E. }
  assert (Hcut : ff_flow s = cut_capacity (ff_graph s) S T).
  { rewrite Hval. apply saturated_cut; auto. }
  exists (mkFFResult (ff_flow s) (ff_graph s) (printed_flows (ff_graph s))), S, T.
  cbn [max_flow residualGraph].
  split; [exact Hr|]. split; [exact Hmc|].
  split; [apply findMinCut_saturated; auto|].
  split; [apply filter_In; split; [apply in_nodes, source_lt|exact Hs]|].
  split; [apply filter_In; split; [apply in_nodes, target_lt|now rewrite Ht]|].
  split; [exact Hcut|].
  split; [rewrite Hcut; apply cut_capacity_cap_ext, Hcap|].
  split.
  - destruct (flow_exists (ff_graph s) Hcore Hcaps Hcons) as (f & Hflow & Hfv).
    exists f. split; [|now rewrite Hfv, Hval].
    apply (is_flow_cap_ext g (ff_graph s)); auto.
  - intros f Hflow. rewrite Hcut, (cut_capacity_cap_ext g (ff_graph s)) by exact Hcap.
    apply weak_duality; auto.
Qed.

(** C2, as the code has it.  On a table filled as [main] fills it, with
    capacities small enough for [int] (the two capacities of every pair of
    nodes, and the capacities of the edges leaving the source, sum to at most
    INT_MAX), [fordFulkerson] returns the value of a maximum flow, and that
    value equals the sum of the original capacities of the edges crossing
    from the source side to the sink side of the partition that [findMinCut]
    prints for the table left behind. *)
Theorem max_flow_min_cut (g : graph_t) :
  wf_graph g -> int_graph g -> fresh g -> nonneg_caps g ->
  pair_bound g -> source_bound g ->
  forall fuel, potential g <= Z.of_nat fuel ->
  exists r S T,
    fordFulkerson fuel g = Ok r /\
    min_cut (residualGraph r) = Ok (S, T) /\
    findMinCut (residualGraph r) = Ok (cut_report S T) /\
    In SOURCE_NODE_ID S /\ In TARGET_NODE_ID T /\
    max_flow r = cut_capacity (residualGraph r) S T /\
    max_flow r = cut_capacity g S T /\
    is_max_flow g (max_flow r).
Proof. exact (max_flow_min_cut_run g). Qed.

Lemma max_flow_min_cut_witness :
  wf_graph main_graph /\ int_graph main_graph /\ fresh main_graph /\
  nonneg_caps main_graph /\ pair_bound main_graph /\ source_bound main_graph /\
  potential main_graph <= Z.of_nat 21 /\
  exists r S T,
    fordFulkerson 21 main_graph = Ok r /\
    min_cut (residualGraph r) = Ok (S, T) /\
    max_flow r = cut_capacity main_graph S T /\
    is_max_flow main_graph (max_flow r).
Proof.
  assert (Hwf : wf_graph main_graph) by table_check.
  assert (Hint : int_graph main_graph) by table_check.
  assert (Hf : fresh main_graph) by table_check.
  assert (Hnn : nonneg_caps main_graph) by table_check.
  assert (Hpb : pair_bound main_graph) by table_check.
  assert (Hsb : source_bound main_graph) by table_check.
  assert (Hpot : potential main_graph <= Z.of_nat 21) by table_check.
  split; [exact Hwf|]. split; [exact Hint|]. split; [exact Hf|].
  split; [exact Hnn|]. split; [exact Hpb|]. split; [exact Hsb|]. split; [exact Hpot|].
  destruct (max_flow_min_cut main_graph Hwf Hint Hf Hnn Hpb Hsb 21%nat Hpot)
    as (r & S & T & H1 & H2 & _ & _ & _ & _ & H3 & H4).
  exists r, S, T. auto.
Defined.

(** C2 as stated fails on [wide_graph], whose capacities are non-negative
    [int]s: its maximum flow and minimum cut are 2 * INT_MAX, and
    [fordFulkerson] returns -2. *)
Lemma wide_graph_flow_wraps :
  exists r S T,
    fordFulkerson 5 wide_graph = Ok r /\
    wf_graphb wide_graph = true /\ int_graphb wide_graph = true /\
    freshb wide_graph = true /\ nonneg_capsb wide_graph = true /\
    min_cut (residualGraph r) = Ok (S, T) /\
    max_flow r = -2 /\
    cut_capacity wide_graph S T = 2 * INT_MAX /\
    max_flow r <> cut_capacity wide_graph S T.
Proof.
  eexists; eexists; eexists. split; [vm_compute; reflexivity|].
  do 4 (split; [reflexivity|]). split; [vm_compute; reflexivity|].
  split; [reflexivity|]. split; [reflexivity|]. vm_compute. discriminate.
Qed.

(** ** Validation *)

(** C9, as the code has it.  Nothing is validated and no diagnostic exists:
    on every NODE_COUNT x NODE_COUNT table of [int]s, negative entries
    included, [fordFulkerson] returns a flow value.  What a round does
    guarantee: the edges it walks are those of the parent chain that its
    search returned; each of them has positive residual capacity, the
    bottleneck is at most that capacity, and the subtraction at line 182
    takes exactly the bottleneck, so it leaves the entry non-negative; every
    other entry that was non-negative stays so, unless it is the reverse of
    a walked edge.  Source, sink and node count are the constants 0, 5 and
    6, so the source differs from the sink and both are in range. *)
Theorem no_input_validation (g : graph_t) :
  wf_graph g -> int_graph g ->
  (forall fuel, potential g <= Z.of_nat fuel ->
     exists r, fordFulkerson fuel g = Ok r) /\
  (forall s delta s',
     ff_steps (ff_init g) s -> augment s = Ok (Some (delta, s')) ->
     exists p c,
       bfs (ff_graph s) None None (Some (ff_path s))
       = Ok (mkBfsResult true None None (Some p)) /\
       parent_chain NODE_COUNT p TARGET_NODE_ID = Ok c /\
       ff_graph s' = push_chain delta c (ff_graph s) /\
       (forall u v, In (u, v) (chain_edges c) ->
          (u < NODE_COUNT)%nat /\ (v < NODE_COUNT)%nat /\
          parent_of p v = Z.of_nat u /\
          0 < delta <= res (ff_graph s) u v /\
          res (ff_graph s') u v = res (ff_graph s) u v - delta /\
          0 <= res (ff_graph s') u v) /\
       (forall a b, ~ In (b, a) (chain_edges c) ->
          0 <= res (ff_graph s) a b -> 0 <= res (ff_graph s') a b)) /\
  SOURCE_NODE_ID <> TARGET_NODE_ID /\
  (SOURCE_NODE_ID < NODE_COUNT)%nat /\ (TARGET_NODE_ID < NODE_COUNT)%nat.
Proof.
  intros Hwf Hint. split; [|split].
  - intros fuel Hfuel.
    destruct (fordFulkerson_run fuel g Hwf Hint Hfuel) as (s & _ & _ & Hr). eauto.
  - intros s delta s' Hst Haug.
    pose proof (ff_steps_base g s Hwf Hint Hst) as Hb.
    destruct (augment_round s delta s' Hb Haug)
      as (p & c & Hbfs & Hc & Hch & _ & _ & Hg & He & Hfr).
    exists p, (TARGET_NODE_ID :: c).
    split; [exact Hbfs|]. split; [exact Hc|]. split; [exact Hg|]. split.
    + intros u v Hin. destruct (He u v Hin) as (Hd & Hf & _).
      destruct (chain_edges_parent _ _ _ Hch u v Hin) as (Hpar & Hu & Hv & _).
      split; [exact Hu|]. split; [exact Hv|]. split; [exact Hpar|].
      split; [exact Hd|]. split; [exact Hf|]. lia.
    + intros a b Hrev Hab.
      assert (Hdec : forall x y : nat * nat, {x = y} + {x <> y})
        by (decide equality; apply Nat.eq_dec).
      destruct (in_dec Hdec (a, b) (chain_edges (TARGET_NODE_ID :: c))) as [Hin|Hin].
      * destruct (He a b Hin) as (Hd & Hf & _). lia.
      * rewrite Hfr by auto. exact Hab.
  - split; [discriminate|]. split; [apply source_lt|apply target_lt].
Qed.

Lemma no_input_validation_witness :
  wf_graph negative_graph /\ int_graph negative_graph /\
  cap negative_graph 0 5 = -3 /\
  exists r, fordFulkerson 0 negative_graph = Ok r.
Proof.
  assert (Hwf : wf_graph negative_graph) by table_check.
  assert (Hint : int_graph negative_graph) by table_check.
  split; [exact Hwf|]. split; [exact Hint|]. split; [reflexivity|].
  apply (proj1 (no_input_validation negative_graph Hwf Hint) 0%nat).
  vm_compute. discriminate.
Defined.

(** C9 as stated fails on [negative_graph], built with the capacity -3 on
    s -> t: [fordFulkerson] returns the flow value 0 and leaves the table as
    it was; nothing reports the negative capacity. *)
Lemma negative_capacity_accepted :
  exists r,
    fordFulkerson 0 negative_graph = Ok r /\
    cap negative_graph SOURCE_NODE_ID TARGET_NODE_ID = -3 /\
    res negative_graph SOURCE_NODE_ID TARGET_NODE_ID = -3 /\
    max_flow r = 0 /\ residualGraph r = negative_graph /\
    findMinCut (residualGraph r)
    = Ok (cut_report [SOURCE_NODE_ID] [1; 2; 3; 4; TARGET_NODE_ID]%nat).
Proof.
  eexists. split; [vm_compute; reflexivity|].
  repeat (split; [reflexivity|]). vm_compute. reflexivity.
Qed.

(** ** The graph of main *)

(** C1, as the code has it.  For the six-node graph built in [main],
    [fordFulkerson] returns exactly 19, which is the value of a maximum flow
    of that graph; the flows it prints are s->w 4, s->x 7, s->z 8, w->y 0,
    w->t 6, x->w 2, x->z 0, x->y 5, z->y 2, z->t 6, y->t 7; and the cut
    [findMinCut] prints, {s, z} against {w, x, y, t}, has value 19. *)
Theorem main_max_flow_19 (fuel : nat) :
  exists r,
    main (5 + fuel) = Ok (r, cut_report [0; 3]%nat [1; 2; 4; 5]%nat) /\
    fordFulkerson (5 + fuel) main_graph = Ok r /\
    max_flow r = 19 /\
    map snd (flows_out r) = [4; 7; 8; 0; 6; 2; 0; 5; 2; 6; 7] /\
    min_cut (residualGraph r) = Ok ([0; 3]%nat, [1; 2; 4; 5]%nat) /\
    cut_capacity (residualGraph r) [0; 3]%nat [1; 2; 4; 5]%nat = 19 /\
    is_max_flow main_graph 19.
Proof.
  assert (Hmax : forall r, fordFulkerson (5 + fuel) main_graph = Ok r ->
                           max_flow r = 19 -> is_max_flow main_graph 19).
  { intros r Hr Hm.
    assert (Hwf : wf_graph main_graph) by table_check.
    assert (Hint : int_graph main_graph) by table_check.
    assert (Hf : fresh main_graph) by table_check.
    assert (Hnn : nonneg_caps main_graph) by table_check.
    assert (Hpb : pair_bound main_graph) by table_check.
    assert (Hsb : source_bound main_graph) by table_check.
    assert (Hpot : potential main_graph <= Z.of_nat 21) by table_check.
    destruct (max_flow_min_cut_run main_graph Hwf Hint Hf Hnn Hpb Hsb 21%nat Hpot)
      as (r' & S & T & Hr' & _ & _ & _ & _ & _ & _ & Hmf).
    assert (E : max_flow r' = 19).
    { vm_compute in Hr'. injection Hr' as <-. reflexivity. }
    now rewrite E in Hmf. }
  destruct fuel as [|fuel]; eexists;
    (split; [vm_compute; reflexivity|]);
    (split; [vm_compute; reflexivity|]);
    (split; [reflexivity|]); (split; [reflexivity|]);
    (split; [vm_compute; reflexivity|]); (split; [reflexivity|]);
    (eapply Hmax; [vm_compute; reflexivity|reflexivity]).
Qed.

(** C1 as stated fails: no run of [fordFulkerson] on the graph of [main]
    returns 14. *)
Lemma main_flow_is_not_14 :
  ~ exists fuel r, fordFulkerson fuel main_graph = Ok r /\ max_flow r = 14.
Proof.
  intros (fuel & r & Hr & Hm).
  do 5 (destruct fuel as [|fuel]; [vm_compute in Hr; discriminate Hr|]).
  destruct fuel as [|fuel]; vm_compute in Hr; injection Hr as <-;
    vm_compute in Hm; discriminate Hm.
Qed.

(* ================================================================== *)
(** * Further properties of the program *)

(** ** Runs that find no path *)

Lemma reach_only_source g :
  (forall v, (v < NODE_COUNT)%nat -> res g SOURCE_NODE_ID v <= 0) ->
  forall v, reach g v -> v = SOURCE_NODE_ID.
Proof.
  intros Hout v Hr. induction Hr as [|u v Hu IH Hv Hpos]; [reflexivity|].
  subst u. specialize (Hout v Hv). lia.
Qed.

Lemma ff_loop_saturated fuel s :
  length (ff_path s) = NODE_COUNT -> ~ reach (ff_graph s) TARGET_NODE_ID ->
  ff_loop fuel s = Ok s.
Proof.
  intros Hlen Hsat.
  destruct (augment_spec s Hlen) as [[H _]|(p & c & _ & _ & _ & Hch & _ & _)].
  - destruct fuel; cbn [ff_loop]; rewrite H; reflexivity.
  - exfalso. apply Hsat.
    assert (Hall : forall c', chain (ff_graph s) p c' ->
                   forall v, In v c' -> reach (ff_graph s) v).
    { induction 1 as [|v u c' Hv Hlt Hp Hpos Hc IH]; intros w Hw.
      - destruct Hw as [<-|[]]. constructor.
      - destruct Hw as [<-|Hw]; [|apply IH, Hw].
        apply reach_step with u; auto. apply IH. simpl; auto. }
    apply (Hall _ Hch). simpl; auto.
Qed.

(** X1. When no edge of positive residual capacity leaves the source,
    [fordFulkerson] returns 0 without a single round, whatever the fuel,
    and leaves the table as it was; [findMinCut] then prints the source
    alone on the s side and the five other nodes on the t side. *)
Theorem nothing_leaves_source (g : graph_t) :
  wf_graph g ->
  (forall v, (v < NODE_COUNT)%nat -> res g SOURCE_NODE_ID v <= 0) ->
  (forall fuel,
     fordFulkerson fuel g = Ok (mkFFResult 0 g (printed_flows g))) /\
  findMinCut g = Ok (cut_report [SOURCE_NODE_ID] [1; 2; 3; 4; 5]%nat).
Proof.
  intros _ Hout.
  pose proof (reach_only_source g Hout) as Honly.
  assert (Hsat : ~ reach g TARGET_NODE_ID).
  { intros H. apply Honly in H. discriminate H. }
  split.
  - intros fuel. unfold fordFulkerson.
    rewrite (ff_loop_saturated fuel (mkFF g init_path 0) length_init_path Hsat).
    reflexivity.
  - destruct (bfs_both_buffers g) as (tr & Htr & Hb).
    assert (H0 : nth 0 tr false = true) by (apply Htr; constructor).
    assert (Hn : forall i, i <> 0%nat -> nth i tr false = false).
    { intros i Hi. destruct (nth i tr false) eqn:E; [|reflexivity].
      apply Htr, Honly in E. contradiction. }
    unfold findMinCut. rewrite Hb. cbn [bind sPath_out tPath_out reached].
    change TARGET_NODE_ID with 5%nat. rewrite (Hn 5%nat) by discriminate.
    unfold nodes, NODE_COUNT. cbn [seq filter].
    rewrite H0, !Hn by discriminate. reflexivity.
Qed.

Lemma nothing_leaves_source_witness :
  wf_graph negative_graph /\
  (forall v, (v < NODE_COUNT)%nat -> res negative_graph SOURCE_NODE_ID v <= 0) /\
  fordFulkerson 0 negative_graph
  = Ok (mkFFResult 0 negative_graph (printed_flows negative_graph)).
Proof.
  assert (Hwf : wf_graph negative_graph) by table_check.
  assert (Hout : forall v, (v < NODE_COUNT)%nat ->
                           res negative_graph SOURCE_NODE_ID v <= 0).
  { intros v _. destruct v as [|[|[|[|[|[|[|v]]]]]]]; vm_compute; discriminate. }
  split; [exact Hwf|]. split; [exact Hout|].
  exact (proj1 (nothing_leaves_source negative_graph Hwf Hout) 0%nat).
Defined.

(** ** What fordFulkerson leaves behind *)

Lemma saturated_of_augment s :
  length (ff_path s) = NODE_COUNT -> augment s = Ok None ->
  ~ reach (ff_graph s) TARGET_NODE_ID.
Proof.
  intros Hlen Ha.
  destruct (augment_spec s Hlen) as [[_ H]|(p & c & _ & _ & _ & _ & _ & H)];
    [exact H|congruence].
Qed.

(** X2. Whatever the capacities, the table [fordFulkerson] returns has no
    augmenting path left, so [findMinCut], called on it as [main] does,
    always prints a partition and never the failure message: the s side is
    the set of nodes reachable from the source, with the source in it, the t
    side is the rest, with the sink in it, and no edge from the s side to
    the t side has residual capacity left. *)
Theorem result_is_saturated (g : graph_t) (fuel : nat) (r : ff_result) :
  wf_graph g -> int_graph g -> fordFulkerson fuel g = Ok r ->
  ~ reach (residualGraph r) TARGET_NODE_ID /\
  exists S T,
    findMinCut (residualGraph r) = Ok (cut_report S T) /\
    In SOURCE_NODE_ID S /\ In TARGET_NODE_ID T /\
    (forall v, In v S <-> reach (residualGraph r) v) /\
    (forall v, In v T <-> (v < NODE_COUNT)%nat /\ ~ reach (residualGraph r) v) /\
    (forall u v, In u S -> In v T -> res (residualGraph r) u v <= 0).
Proof.
  intros Hwf Hint Hr.
  destruct (fordFulkerson_steps fuel g r Hr) as (s & Hst & Hend & _ & ->).
  destruct (ff_steps_base g s Hwf Hint Hst) as (_ & _ & Hlen).
  pose proof (saturated_of_augment s Hlen Hend) as Hsat.
  split; [exact Hsat|].
  destruct (min_cut_spec (ff_graph s)) as (tr & Htr & Hmc).
  assert (HS : forall v, In v (filter (fun i => nth i tr false) nodes)
                         <-> reach (ff_graph s) v).
  { intros v. rewrite filter_In, in_nodes, Htr. split; [tauto|].
    intros H. split; [apply (reach_lt _ _ H)|exact H]. }
  assert (HT : forall v, In v (filter (fun i => negb (nth i tr false)) nodes)
                         <-> (v < NODE_COUNT)%nat /\ ~ reach (ff_graph s) v).
  { intros v. rewrite filter_In, in_nodes, <- Htr.
    destruct (nth v tr false); simpl; intuition congruence. }
  eexists; eexists. split; [apply (findMinCut_saturated _ _ _ Hsat Hmc)|].
  split; [apply HS; constructor|]. split; [apply HT; split; [apply target_lt|exact Hsat]|].
  split; [exact HS|]. split; [exact HT|].
  intros u v Hu Hv. apply HS in Hu. apply HT in Hv. destruct Hv as [Hv Hnv].
  destruct (Z.lt_ge_cases 0 (res (ff_graph s) u v)) as [Hpos|]; [|lia].
  exfalso. apply Hnv. eapply reach_step; eauto.
Qed.

Lemma result_is_saturated_witness :
  exists r,
    wf_graph wide_graph /\ int_graph wide_graph /\
    fordFulkerson 5 wide_graph = Ok r /\
    ~ reach (residualGraph r) TARGET_NODE_ID.
Proof.
  destruct (fordFulkerson 5 wide_graph) as [r| |] eqn:Hr;
    try (vm_compute in Hr; discriminate Hr).
  assert (Hwf : wf_graph wide_graph) by table_check.
  assert (Hint : int_graph wide_graph) by table_check.
  exists r. split; [exact Hwf|]. split; [exact Hint|]. split; [reflexivity|].
  exact (proj1 (result_is_saturated wide_graph 5 r Hwf Hint Hr)).
Defined.

(** X3. [fordFulkerson] writes residual capacities only: whatever the
    capacities, the table it returns is still NODE_COUNT x NODE_COUNT, holds
    [int]s, and has the original capacity of every pair unchanged. *)
Theorem originals_untouched (g : graph_t) (fuel : nat) (r : ff_result) :
  wf_graph g -> int_graph g -> fordFulkerson fuel g = Ok r ->
  wf_graph (residualGraph r) /\ int_graph (residualGraph r) /\
  forall u v, cap (residualGraph r) u v = cap g u v.
Proof.
  intros Hwf Hint Hr.
  destruct (fordFulkerson_steps fuel g r Hr) as (s & Hst & _ & _ & ->).
  destruct (ff_steps_base g s Hwf Hint Hst) as (Hwf' & Hint' & _).
  split; [exact Hwf'|]. split; [exact Hint'|].
  apply (ff_steps_cap _ _ Hst (ff_base_init g Hwf Hint)).
Qed.

Lemma originals_untouched_witness :
  exists r,
    wf_graph main_graph /\ int_graph main_graph /\
    fordFulkerson 5 main_graph = Ok r /\
    forall u v, cap (residualGraph r) u v = cap main_graph u v.
Proof.
  destruct (fordFulkerson 5 main_graph) as [r| |] eqn:Hr;
    try (vm_compute in Hr; discriminate Hr).
  assert (Hwf : wf_graph main_graph) by table_check.
  assert (Hint : int_graph main_graph) by table_check.
  exists r. split; [exact Hwf|]. split; [exact Hint|]. split; [reflexivity|].
  exact (proj2 (proj2 (originals_untouched main_graph 5 r Hwf Hint Hr))).
Defined.

(** ** The modes of bfs *)

(** X4. The value [bfs] returns depends on the table only, not on the
    buffers it is given; the partition buffers are filled only when both
    are supplied (with one of them missing, the other is returned as it
    was), and without a path buffer none is produced. *)
Theorem bfs_modes (g : graph_t) (sPath tPath : option (list nat))
    (outPath : option path_t) :
  wf_graph g ->
  (forall p, outPath = Some p -> length p = NODE_COUNT) ->
  exists r,
    bfs g sPath tPath outPath = Ok r /\
    (reached r = true <-> reach g TARGET_NODE_ID) /\
    (forall r0, bfs g None None None = Ok r0 -> reached r = reached r0) /\
    (sPath = None \/ tPath = None -> sPath_out r = sPath /\ tPath_out r = tPath) /\
    (outPath = None -> outPath_out r = None).
Proof.
  intros _ Hp.
  destruct (bfs_result_spec g sPath tPath outPath Hp) as (st & order & Hinv & Hcl & Hb).
  pose proof (trav_reach _ _ _ Hinv Hcl) as Htr.
  eexists. split; [exact Hb|]. cbn [reached sPath_out tPath_out outPath_out].
  split; [apply Htr|]. split; [|split].
  - intros r0 Hb0.
    destruct (bfs_result_spec g None None None) as (st0 & o0 & Hinv0 & Hcl0 & Hb0').
    { discriminate. }
    rewrite Hb0' in Hb0. injection Hb0 as <-. cbn [reached].
    pose proof (trav_reach _ _ _ Hinv0 Hcl0 TARGET_NODE_ID) as H0.
    pose proof (Htr TARGET_NODE_ID) as H1.
    destruct (nth TARGET_NODE_ID (trav st) false),
             (nth TARGET_NODE_ID (trav st0) false); auto.
    + symmetry. apply H0, H1. reflexivity.
    + apply H1, H0. reflexivity.
  - intros [->| ->]; [|destruct sPath]; split; reflexivity.
  - intros ->. unfold bfs in Hb.
    destruct (bfs_while NODE_COUNT g (bfs_init None)) as [st1| |] eqn:Hrun;
      cbn [bind] in Hb; try discriminate.
    pose proof (bfs_while_parents_none g _ (bfs_init None) st1 eq_refl Hrun) as Hn.
    destruct (partition_nodes (trav st1) sPath tPath).
    injection Hb as _ _ _ Hpar. congruence.
Qed.

Lemma bfs_modes_witness :
  wf_graph main_graph /\
  (forall p, Some init_path = Some p -> length p = NODE_COUNT) /\
  exists r,
    bfs main_graph (Some [7%nat]) None (Some init_path) = Ok r /\
    sPath_out r = Some [7%nat] /\ tPath_out r = None.
Proof.
  assert (Hwf : wf_graph main_graph) by table_check.
  assert (H : forall p, Some init_path = Some p -> length p = NODE_COUNT).
  { intros p E. injection E as <-. reflexivity. }
  split; [exact Hwf|]. split; [exact H|].
  destruct (bfs_modes main_graph (Some [7%nat]) None (Some init_path) Hwf H)
    as (r & Hb & _ & _ & Hbuf & _).
  exists r. split; [exact Hb|]. apply Hbuf. right. reflexivity.
Defined.

(** ** Flows within the range of int *)

Lemma ff_steps_value_inv g s :
  wf_graph g -> int_graph g -> fresh g -> nonneg_caps g ->
  pair_bound g -> source_bound g ->
  ff_steps (ff_init g) s -> ff_base s /\ flow_inv s /\ value_inv s.
Proof.
  intros Hwf Hint Hf Hnn Hpb Hsb Hst.
  apply (ff_steps_inv (fun s => flow_inv s /\ value_inv s)) with (s := ff_init g); auto.
  - intros s0 d s1 Hb0 H0 Ha. apply (augment_value_inv _ _ _ Hb0 H0 Ha).
  - apply ff_base_init; auto.
  - split; [apply flow_inv_init|apply value_inv_init]; auto.
Qed.

(** X5. On a table filled as [main] fills it, with non-negative capacities
    small enough for [int], the residual capacities of the two directions of
    every pair of distinct nodes keep the sum of the two original capacities
    in every state of the loop, so the flows derived for the two directions
    are opposite; a diagonal entry keeps its original capacity. *)
Theorem pair_sum_kept (g : graph_t) (s : ff_state) :
  wf_graph g -> int_graph g -> fresh g -> nonneg_caps g -> pair_bound g ->
  ff_steps (ff_init g) s ->
  forall u v,
    (u <> v ->
     res (ff_graph s) u v + res (ff_graph s) v u = cap g u v + cap g v u) /\
    (u = v -> res (ff_graph s) u v = cap g u v) /\
    edge_flow (ff_graph s) u v + edge_flow (ff_graph s) v u = 0.
Proof.
  intros Hwf Hint Hf Hnn Hpb Hst u v.
  destruct (ff_steps_flow_inv g s Hwf Hint Hf Hnn Hpb Hst)
    as [(_ & Hi & _) [Hcore Hcaps _ _]].
  pose proof (ff_steps_cap _ _ Hst (ff_base_init g Hwf Hint)) as Hcap.
  cbn [ff_init ff_graph] in Hcap.
  pose proof (net_skew _ Hcore u v) as Hskew.
  rewrite !edge_flow_exact by (auto; apply (core_nonneg _ Hcore)).
  split; [|split; [|exact Hskew]].
  - intros Hne. rewrite <- !Hcap. apply (core_pair _ Hcore), Hne.
  - intros <-. rewrite <- Hcap. apply (core_self _ Hcore).
Qed.

Lemma pair_sum_kept_witness :
  exists s,
    wf_graph antiparallel_graph /\ int_graph antiparallel_graph /\
    fresh antiparallel_graph /\ nonneg_caps antiparallel_graph /\
    pair_bound antiparallel_graph /\
    ff_steps (ff_init antiparallel_graph) s /\
    res (ff_graph s) 1 2 + res (ff_graph s) 2 1
    = cap antiparallel_graph 1 2 + cap antiparallel_graph 2 1.
Proof.
  destruct (augment (ff_init antiparallel_graph)) as [[[d s]|]| |] eqn:Ha;
    try (vm_compute in Ha; discriminate Ha).
  assert (Hwf : wf_graph antiparallel_graph) by table_check.
  assert (Hint : int_graph antiparallel_graph) by table_check.
  assert (Hf : fresh antiparallel_graph) by table_check.
  assert (Hnn : nonneg_caps antiparallel_graph) by table_check.
  assert (Hpb : pair_bound antiparallel_graph) by table_check.
  assert (Hst : ff_steps (ff_init antiparallel_graph) s).
  { eapply ff_steps_next; [exact Ha|apply ff_steps_refl]. }
  exists s. split; [exact Hwf|]. split; [exact Hint|]. split; [exact Hf|].
  split; [exact Hnn|]. split; [exact Hpb|]. split; [exact Hst|].
  apply (pair_sum_kept antiparallel_graph s Hwf Hint Hf Hnn Hpb Hst 1%nat 2%nat).
  discriminate.
Defined.

(** X6. On such a table, every edge from the s side to the t side of the
    cut found on the table [fordFulkerson] returns is saturated - no residual
    capacity is left and the derived flow equals the original capacity - and
    the pair in the opposite direction holds both original capacities, so
    its derived flow is minus the capacity of the cut edge: nothing flows
    back across the cut. *)
Theorem cut_edges_saturated (g : graph_t) (fuel : nat) (r : ff_result)
    (S T : list nat) :
  wf_graph g -> int_graph g -> fresh g -> nonneg_caps g -> pair_bound g ->
  fordFulkerson fuel g = Ok r ->
  min_cut (residualGraph r) = Ok (S, T) ->
  forall u v, In u S -> In v T ->
    res (residualGraph r) u v = 0 /\
    edge_flow (residualGraph r) u v = cap g u v /\
    res (residualGraph r) v u = cap g v u + cap g u v /\
    edge_flow (residualGraph r) v u = - cap g u v.
Proof.
  intros Hwf Hint Hf Hnn Hpb Hr Hcut u v Hu Hv.
  destruct (fordFulkerson_steps fuel g r Hr) as (s & Hst & _ & _ & E).
  rewrite E in *. clear E.
  destruct (ff_steps_flow_inv g s Hwf Hint Hf Hnn Hpb Hst)
    as [(_ & Hi & _) [Hcore Hcaps _ _]].
  pose proof (ff_steps_cap _ _ Hst (ff_base_init g Hwf Hint)) as Hcap.
  cbn [ff_init ff_graph] in Hcap.
  destruct (min_cut_spec (ff_graph s)) as (tr & Htr & Hmc).
  rewrite Hmc in Hcut.
  assert (HS : S = filter (fun i => nth i tr false) nodes) by congruence.
  assert (HT : T = filter (fun i => negb (nth i tr false)) nodes) by congruence.
  subst S T.
  apply filter_In in Hu. destruct Hu as [_ Hu]. apply Htr in Hu.
  apply filter_In in Hv. destruct Hv as [Hv Hnv]. apply in_nodes in Hv.
  assert (Hne : u <> v).
  { intros ->. apply Htr in Hu. rewrite Hu in Hnv. discriminate. }
  assert (Hle : res (ff_graph s) u v <= 0).
  { destruct (Z.lt_ge_cases 0 (res (ff_graph s) u v)) as [Hpos|]; [|lia].
    exfalso. assert (Hrv : reach (ff_graph s) v) by (eapply reach_step; eauto).
    apply Htr in Hrv. rewrite Hrv in Hnv. discriminate. }
  pose proof (core_nonneg _ Hcore u v) as H0.
  pose proof (core_nonneg _ Hcore v u) as H1.
  pose proof (core_pair _ Hcore u v Hne) as Hp. rewrite !Hcap in Hp.
  rewrite !edge_flow_exact by auto. rewrite !Hcap. lia.
Qed.

Lemma cut_edges_saturated_witness :
  exists r,
    wf_graph main_graph /\ int_graph main_graph /\ fresh main_graph /\
    nonneg_caps main_graph /\ pair_bound main_graph /\
    fordFulkerson 5 main_graph = Ok r /\
    min_cut (residualGraph r) = Ok ([0; 3]%nat, [1; 2; 4; 5]%nat) /\
    res (residualGraph r) 3 5 = 0.
Proof.
  destruct (fordFulkerson 5 main_graph) as [r| |] eqn:Hr;
    try (vm_compute in Hr; discriminate Hr).
  assert (Hwf : wf_graph main_graph) by table_check.
  assert (Hint : int_graph main_graph) by table_check.
  assert (Hf : fresh main_graph) by table_check.
  assert (Hnn : nonneg_caps main_graph) by table_check.
  assert (Hpb : pair_bound main_graph) by table_check.
  assert (Hcut : min_cut (residualGraph r) = Ok ([0; 3]%nat, [1; 2; 4; 5]%nat)).
  { vm_compute in Hr. injection Hr as <-. vm_compute. reflexivity. }
  exists r. split; [exact Hwf|]. split; [exact Hint|]. split; [exact Hf|].
  split; [exact Hnn|]. split; [exact Hpb|]. split; [reflexivity|].
  split; [exact Hcut|].
  apply (cut_edges_saturated main_graph 5 r _ _ Hwf Hint Hf Hnn Hpb Hr Hcut 3%nat 5%nat).
  - simpl; auto.
  - simpl; auto.
Defined.

Lemma sumZ_filter f (Q : nat -> bool) l :
  sumZ f (filter Q l) = sumZ (fun v => if Q v then f v else 0) l.
Proof.
  induction l as [|a l IH]; [reflexivity|].
  cbn [filter]. destruct (Q a) eqn:E; cbn [sumZ fold_right]; fold (sumZ f);
    rewrite E; fold (sumZ (fun v => if Q v then f v else 0) l); rewrite <- IH;
    reflexivity.
Qed.

Lemma sumZ_two F l a b :
  NoDup l -> In a l -> In b l -> a <> b ->
  (forall w, In w l -> w <> a -> w <> b -> F w = 0) ->
  sumZ F l = F a + F b.
Proof.
  intros Hnd Ha Hb Hab Hz.
  rewrite (sumZ_update (fun w => if Nat.eqb w a then F a else 0) F l b Hnd Hb).
  - rewrite (sumZ_single _ l a Hnd Ha).
    + rewrite Nat.eqb_refl. destruct (Nat.eqb_spec b a); [congruence|lia].
    + intros w _ Hw. destruct (Nat.eqb_spec w a); [congruence|reflexivity].
  - intros w Hw Hwb. destruct (Nat.eqb_spec w a) as [->|Hwa]; [reflexivity|].
    apply Hz; auto.
Qed.

(** X7. On a table filled as [main] fills it, with non-negative capacities
    small enough for [int], the value [fordFulkerson] returns is at least 0,
    at most the sum of the original capacities of the edges leaving the
    source, and at most the sum of those entering the sink. *)
Theorem flow_value_bounds (g : graph_t) (fuel : nat) (r : ff_result) :
  wf_graph g -> int_graph g -> fresh g -> nonneg_caps g ->
  pair_bound g -> source_bound g ->
  fordFulkerson fuel g = Ok r ->
  0 <= max_flow r /\
  max_flow r <= sumZ (fun v => cap g SOURCE_NODE_ID v) nodes /\
  max_flow r <= sumZ (fun u => cap g u TARGET_NODE_ID) nodes.
Proof.
  intros Hwf Hint Hf Hnn Hpb Hsb Hr.
  destruct (fordFulkerson_steps fuel g r Hr) as (s & Hst & _ & -> & _).
  destruct (ff_steps_value_inv g s Hwf Hint Hf Hnn Hpb Hsb Hst)
    as (Hb & [Hcore Hcaps _ Hcons] & [_ Hnneg Hval]).
  pose proof (ff_steps_cap _ _ Hst (ff_base_init g Hwf Hint)) as Hcap.
  cbn [ff_init ff_graph] in Hcap.
  split; [exact Hnneg|]. split.
  - rewrite Hval.
    rewrite (sumZ_ext (cap (ff_graph s) SOURCE_NODE_ID) (cap g SOURCE_NODE_ID))
      by (intros; apply Hcap).
    assert (0 <= sumZ (res (ff_graph s) SOURCE_NODE_ID) nodes).
    { apply sumZ_nonneg. intros v. apply (core_nonneg _ Hcore). }
    change (fun v => cap g SOURCE_NODE_ID v) with (cap g SOURCE_NODE_ID). lia.
  - destruct (flow_exists (ff_graph s) Hcore Hcaps Hcons) as (f & Hflow & Hfv).
    rewrite Hval, <- Hfv.
    pose proof (weak_duality (ff_graph s) f
                  (fun v => negb (Nat.eqb v TARGET_NODE_ID)) Hflow eq_refl eq_refl) as Hw.
    eapply Z.le_trans; [exact Hw|]. unfold cut_capacity.
    rewrite (sumZ_split (fun u => cap g u TARGET_NODE_ID)
               (fun v => negb (Nat.eqb v TARGET_NODE_ID)) nodes).
    assert (0 <= sumZ (fun u => cap g u TARGET_NODE_ID)
                   (filter (fun v => negb (negb (Nat.eqb v TARGET_NODE_ID))) nodes)).
    { apply sumZ_nonneg. intros; apply Hnn. }
    assert (sumZ (fun u => sumZ (fun v => cap (ff_graph s) u v)
                     (filter (fun v => negb (negb (Nat.eqb v TARGET_NODE_ID))) nodes))
              (filter (fun v => negb (Nat.eqb v TARGET_NODE_ID)) nodes)
            = sumZ (fun u => cap g u TARGET_NODE_ID)
                (filter (fun v => negb (Nat.eqb v TARGET_NODE_ID)) nodes)) as E.
    { apply sumZ_ext. intros u _. rewrite sumZ_filter.
      rewrite (sumZ_single _ nodes TARGET_NODE_ID nodes_nodup).
      - rewrite Nat.eqb_refl. cbn [negb]. apply Hcap.
      - apply in_nodes, target_lt.
      - intros w _ Hw'. destruct (Nat.eqb_spec w TARGET_NODE_ID); [congruence|].
        reflexivity. }
    lia.
Qed.

Lemma flow_value_bounds_witness :
  exists r,
    wf_graph main_graph /\ int_graph main_graph /\ fresh main_graph /\
    nonneg_caps main_graph /\ pair_bound main_graph /\ source_bound main_graph /\
    fordFulkerson 5 main_graph = Ok r /\
    0 <= max_flow r <= 21.
Proof.
  destruct (fordFulkerson 5 main_graph) as [r| |] eqn:Hr;
    try (vm_compute in Hr; discriminate Hr).
  assert (Hwf : wf_graph main_graph) by table_check.
  assert (Hint : int_graph main_graph) by table_check.
  assert (Hf : fresh main_graph) by table_check.
  assert (Hnn : nonneg_caps main_graph) by table_check.
  assert (Hpb : pair_bound main_graph) by table_check.
  assert (Hsb : source_bound main_graph) by table_check.
  exists r. split; [exact Hwf|]. split; [exact Hint|]. split; [exact Hf|].
  split; [exact Hnn|]. split; [exact Hpb|]. split; [exact Hsb|].
  split; [reflexivity|].
  destruct (flow_value_bounds main_graph 5 r Hwf Hint Hf Hnn Hpb Hsb Hr)
    as (H0 & H1 & _).
  split; [exact H0|exact H1].
Defined.

(** What has been pushed so far is what leaves the source and what arrives
    at the sink. *)
Lemma ff_steps_value_at_ends (g : graph_t) (s : ff_state) :
  wf_graph g -> int_graph g -> fresh g -> nonneg_caps g ->
  pair_bound g -> source_bound g ->
  ff_steps (ff_init g) s ->
  ff_flow s = sumZ (fun v => edge_flow (ff_graph s) SOURCE_NODE_ID v) nodes /\
  ff_flow s = sumZ (fun v => edge_flow (ff_graph s) v TARGET_NODE_ID) nodes.
Proof.
  intros Hwf Hint Hf Hnn Hpb Hsb Hst.
  destruct (ff_steps_value_inv g s Hwf Hint Hf Hnn Hpb Hsb Hst)
    as ((_ & Hi & _) & [Hcore Hcaps _ Hcons] & [_ _ Hval]).
  set (g' := ff_graph s) in *.
  assert (Hef : forall u v, edge_flow g' u v = cap g' u v - res g' u v).
  { intros u v. apply edge_flow_exact; auto. apply (core_nonneg _ Hcore). }
  assert (Hrow : forall x, sumZ (fun v => cap g' x v - res g' x v) nodes
                           = sumZ (cap g' x) nodes - sumZ (res g' x) nodes).
  { intros x. apply sumZ_minus. }
  assert (Hsrc : sumZ (fun v => edge_flow g' SOURCE_NODE_ID v) nodes = ff_flow s).
  { rewrite (sumZ_ext _ (fun v => cap g' SOURCE_NODE_ID v - res g' SOURCE_NODE_ID v))
      by (intros; apply Hef).
    rewrite Hrow, Hval. reflexivity. }
  split; [symmetry; exact Hsrc|].
  pose proof (skew_sum_zero (fun u v => cap g' u v - res g' u v) nodes
                (net_skew g' Hcore)) as Hall.
  rewrite (sumZ_two _ nodes SOURCE_NODE_ID TARGET_NODE_ID) in Hall.
  - rewrite (sumZ_ext _ (fun v => - (cap g' TARGET_NODE_ID v - res g' TARGET_NODE_ID v))).
    + assert (Hopp : forall h l, sumZ (fun v => - h v) l = - sumZ h l).
      { intros h l. induction l as [|a l IH]; cbn [sumZ fold_right]; [reflexivity|].
        fold (sumZ (fun v => - h v) l). fold (sumZ h l). lia. }
      rewrite Hopp. rewrite !Hrow in Hall. rewrite Hrow. rewrite Hval. lia.
    + intros v _. rewrite Hef. pose proof (net_skew g' Hcore v TARGET_NODE_ID). lia.
  - apply nodes_nodup.
  - apply in_nodes, source_lt.
  - apply in_nodes, target_lt.
  - discriminate.
  - intros w Hw Hws Hwt. rewrite Hrow, Hcons; auto; [lia|]. apply in_nodes, Hw.
Qed.

(** X8. On such a table the value [fordFulkerson] returns is what leaves
    the source and what arrives at the sink: it equals the sum of the flows
    originalCapacity - residualCapacity over all pairs (s,v), and the sum
    over all pairs (v,t). *)
Theorem flow_value_at_both_ends (g : graph_t) (fuel : nat) (r : ff_result) :
  wf_graph g -> int_graph g -> fresh g -> nonneg_caps g ->
  pair_bound g -> source_bound g ->
  fordFulkerson fuel g = Ok r ->
  max_flow r = sumZ (fun v => edge_flow (residualGraph r) SOURCE_NODE_ID v) nodes /\
  max_flow r = sumZ (fun v => edge_flow (residualGraph r) v TARGET_NODE_ID) nodes.
Proof.
  intros Hwf Hint Hf Hnn Hpb Hsb Hr.
  destruct (fordFulkerson_steps fuel g r Hr) as (s & Hst & _ & -> & ->).
  apply (ff_steps_value_at_ends g s); auto.
Qed.

Lemma flow_value_at_both_ends_witness :
  exists r,
    wf_graph main_graph /\ int_graph main_graph /\ fresh main_graph /\
    nonneg_caps main_graph /\ pair_bound main_graph /\ source_bound main_graph /\
    fordFulkerson 5 main_graph = Ok r /\
    max_flow r = sumZ (fun v => edge_flow (residualGraph r) v TARGET_NODE_ID) nodes.
Proof.
  destruct (fordFulkerson 5 main_graph) as [r| |] eqn:Hr;
    try (vm_compute in Hr; discriminate Hr).
  assert (Hwf : wf_graph main_graph) by table_check.
  assert (Hint : int_graph main_graph) by table_check.
  assert (Hf : fresh main_graph) by table_check.
  assert (Hnn : nonneg_caps main_graph) by table_check.
  assert (Hpb : pair_bound main_graph) by table_check.
  assert (Hsb : source_bound main_graph) by table_check.
  exists r. split; [exact Hwf|]. split; [exact Hint|]. split; [exact Hf|].
  split; [exact Hnn|]. split; [exact Hpb|]. split; [exact Hsb|].
  split; [reflexivity|].
  exact (proj2 (flow_value_at_both_ends main_graph 5 r Hwf Hint Hf Hnn Hpb Hsb Hr)).
Defined.

Lemma augment_flow_exact s delta s' :
  ff_base s -> flow_inv s /\ value_inv s -> augment s = Ok (Some (delta, s')) ->
  ff_flow s' = ff_flow s + delta.
Proof.
  intros Hb [Hfi Hvi] Ha.
  destruct (augment_value_inv _ _ _ Hb (conj Hfi Hvi) Ha) as [_ [_ _ Hv']].
  destruct (augment_flow_inv _ _ _ Hb Hfi Ha) as (_ & Hcap & Hrow).
  destruct Hvi as [_ _ Hv].
  rewrite Hv', Hv, Hrow.
  rewrite (sumZ_ext (cap (ff_graph s') SOURCE_NODE_ID) (cap (ff_graph s) SOURCE_NODE_ID))
    by (intros; apply Hcap).
  lia.
Qed.

Lemma ff_loop_bottlenecks : forall fuel s s',
  ff_base s -> flow_inv s /\ value_inv s -> ff_loop fuel s = Ok s' ->
  ff_flow s' = ff_flow s + fold_right Z.add 0 (bottlenecks fuel s) /\
  Forall (fun d => 0 < d <= INT_MAX) (bottlenecks fuel s).
Proof.
  induction fuel as [|fuel IH]; intros s s' Hb Hinv Hl; cbn [ff_loop] in Hl;
    destruct (augment s) as [[[d s1]|]| |] eqn:Ha; cbn [bind] in Hl;
    try discriminate.
  - injection Hl as <-. cbn [bottlenecks fold_right]. split; [lia|constructor].
  - cbn [bottlenecks]. rewrite Ha. cbn [fold_right].
    destruct (augment_step _ _ _ Hb Ha) as (Hb1 & Hd & _).
    pose proof (augment_value_inv _ _ _ Hb Hinv Ha) as Hinv1.
    pose proof (augment_flow_exact _ _ _ Hb Hinv Ha) as He.
    destruct (IH s1 s' Hb1 Hinv1 Hl) as [Hsum Hall].
    split; [lia|constructor; auto].
  - injection Hl as <-. cbn [bottlenecks]. rewrite Ha. cbn [fold_right].
    split; [lia|constructor].
Qed.

(** X9. On a table filled as [main] fills it, with non-negative capacities
    small enough for [int], the value [fordFulkerson] returns is the sum of
    the bottlenecks of its rounds, each of them between 1 and INT_MAX; so the
    loop runs at most as many rounds as the value it returns. *)
Theorem flow_is_sum_of_bottlenecks (g : graph_t) (fuel : nat) (r : ff_result) :
  wf_graph g -> int_graph g -> fresh g -> nonneg_caps g ->
  pair_bound g -> source_bound g ->
  fordFulkerson fuel g = Ok r ->
  max_flow r = fold_right Z.add 0 (bottlenecks fuel (ff_init g)) /\
  Forall (fun d => 0 < d <= INT_MAX) (bottlenecks fuel (ff_init g)) /\
  Z.of_nat (length (bottlenecks fuel (ff_init g))) <= max_flow r.
Proof.
  intros Hwf Hint Hf Hnn Hpb Hsb Hr.
  unfold fordFulkerson in Hr. fold (ff_init g) in Hr.
  destruct (ff_loop fuel (ff_init g)) as [s| |] eqn:Hl; cbn [bind] in Hr;
    try discriminate.
  injection Hr as <-. cbn [max_flow].
  destruct (ff_loop_bottlenecks fuel (ff_init g) s) as [Hsum Hall]; auto.
  - apply ff_base_init; auto.
  - split; [apply flow_inv_init|apply value_inv_init]; auto.
  - cbn [ff_init ff_flow] in Hsum.
    split; [lia|]. split; [exact Hall|]. rewrite Hsum.
    clear Hsum Hl. induction Hall as [|d l Hd Hl IH]; cbn [length fold_right]; lia.
Qed.

Lemma flow_is_sum_of_bottlenecks_witness :
  exists r,
    wf_graph main_graph /\ int_graph main_graph /\ fresh main_graph /\
    nonneg_caps main_graph /\ pair_bound main_graph /\ source_bound main_graph /\
    fordFulkerson 5 main_graph = Ok r /\
    max_flow r = fold_right Z.add 0 (bottlenecks 5 (ff_init main_graph)).
Proof.
  destruct (fordFulkerson 5 main_graph) as [r| |] eqn:Hr;
    try (vm_compute in Hr; discriminate Hr).
  assert (Hwf : wf_graph main_graph) by table_check.
  assert (Hint : int_graph main_graph) by table_check.
  assert (Hf : fresh main_graph) by table_check.
  assert (Hnn : nonneg_caps main_graph) by table_check.
  assert (Hpb : pair_bound main_graph) by table_check.
  assert (Hsb : source_bound main_graph) by table_check.
  exists r. split; [exact Hwf|]. split; [exact Hint|]. split; [exact Hf|].
  split; [exact Hnn|]. split; [exact Hpb|]. split; [exact Hsb|].
  split; [reflexivity|].
  exact (proj1 (flow_is_sum_of_bottlenecks main_graph 5 r Hwf Hint Hf Hnn Hpb Hsb Hr)).
Defined.

(** ** What a round changes *)

(** X10. Every round of the loop saturates at least one edge of the path
    it follows: some edge (parent, child) of the parent chain returned by
    the search of that round, along which the round pushes, had the
    bottleneck as its residual capacity and has residual capacity 0 after
    the round, whatever the capacities. *)
Theorem round_saturates_an_edge (g : graph_t) (s s' : ff_state) (delta : Z) :
  wf_graph g -> int_graph g -> ff_steps (ff_init g) s ->
  augment s = Ok (Some (delta, s')) ->
  exists p c u v,
    bfs (ff_graph s) None None (Some (ff_path s))
    = Ok (mkBfsResult true None None (Some p)) /\
    parent_chain NODE_COUNT p TARGET_NODE_ID = Ok c /\
    ff_graph s' = push_chain delta c (ff_graph s) /\
    In (u, v) (chain_edges c) /\ parent_of p v = Z.of_nat u /\
    res (ff_graph s) u v = delta /\ res (ff_graph s') u v = 0.
Proof.
  intros Hwf Hint Hst Ha.
  pose proof (ff_steps_base g s Hwf Hint Hst) as Hb.
  destruct (augment_round s delta s' Hb Ha)
    as (p & c & Hbfs & Hc & Hch & _ & Hd & Hg & He & _).
  exists p, (TARGET_NODE_ID :: c).
  assert (Hex : exists u v, In (u, v) (chain_edges (TARGET_NODE_ID :: c)) /\
                            res (ff_graph s) u v = delta).
  { rewrite Hd. unfold bottleneck.
    destruct (fold_min_attained (ff_graph s) (chain_edges (TARGET_NODE_ID :: c)) INT_MAX)
      as [E|([u v] & Hin & E)].
    - destruct c as [|w c]; [inversion Hch|].
      exists w, TARGET_NODE_ID. split; [simpl; auto|].
      assert (Hin : In (w, TARGET_NODE_ID) (chain_edges (TARGET_NODE_ID :: w :: c)))
        by (simpl; auto).
      destruct (He _ _ Hin) as ([_ Hle] & _).
      destruct Hb as (_ & Hi & _). destruct (Hi w TARGET_NODE_ID) as [[_ Hmax] _].
      rewrite Hd in Hle. unfold bottleneck in Hle. rewrite E in *. lia.
    - exists u, v. split; [exact Hin|]. symmetry. exact E. }
  destruct Hex as (u & v & Hin & E). exists u, v.
  split; [exact Hbfs|]. split; [exact Hc|]. split; [exact Hg|]. split; [exact Hin|].
  destruct (chain_edges_parent _ _ _ Hch u v Hin) as (Hpar & _).
  split; [exact Hpar|]. split; [exact E|].
  destruct (He u v Hin) as (_ & Hf & _). lia.
Qed.

Lemma round_saturates_an_edge_witness :
  exists s',
    wf_graph main_graph /\ int_graph main_graph /\
    ff_steps (ff_init main_graph) (ff_init main_graph) /\
    augment (ff_init main_graph) = Ok (Some (4, s')) /\
    exists p c u v,
      bfs main_graph None None (Some init_path)
      = Ok (mkBfsResult true None None (Some p)) /\
      parent_chain NODE_COUNT p TARGET_NODE_ID = Ok c /\
      In (u, v) (chain_edges c) /\ res main_graph u v = 4 /\
      res (ff_graph s') u v = 0.
Proof.
  destruct (augment (ff_init main_graph)) as [[[d s']|]| |] eqn:Ha;
    try (vm_compute in Ha; discriminate Ha).
  assert (Hd : d = 4) by (vm_compute in Ha; congruence). subst d.
  assert (Hwf : wf_graph main_graph) by table_check.
  assert (Hint : int_graph main_graph) by table_check.
  exists s'. split; [exact Hwf|]. split; [exact Hint|].
  split; [apply ff_steps_refl|]. split; [reflexivity|].
  destruct (round_saturates_an_edge main_graph (ff_init main_graph) s' 4 Hwf Hint
              (ff_steps_refl _) Ha) as (p & c & u & v & Hb & Hc & _ & Hin & _ & E & H0).
  exists p, c, u, v. auto.
Defined.

(** X11. A round changes only the entries of the edges of its path and of
    their reverse pairs: with the parent chain returned by the search of
    that round, every edge (parent, child) of the chain loses the
    bottleneck, its reverse pair gains it in [int] arithmetic, and every
    other entry is left as it was; in particular [fordFulkerson] never
    changes a diagonal entry (a self-loop is neither followed nor updated),
    whatever the capacities. *)
Theorem round_changes_path_only (g : graph_t) :
  wf_graph g -> int_graph g ->
  (forall s delta s',
     ff_steps (ff_init g) s -> augment s = Ok (Some (delta, s')) ->
     exists p c,
       bfs (ff_graph s) None None (Some (ff_path s))
       = Ok (mkBfsResult true None None (Some p)) /\
       parent_chain NODE_COUNT p TARGET_NODE_ID = Ok c /\
       (forall u v, In (u, v) (chain_edges c) ->
          parent_of p v = Z.of_nat u /\ u <> v /\
          res (ff_graph s') u v = res (ff_graph s) u v - delta /\
          res (ff_graph s') v u = int_add (res (ff_graph s) v u) delta) /\
       forall a b, ~ In (a, b) (chain_edges c) -> ~ In (b, a) (chain_edges c) ->
                   res (ff_graph s') a b = res (ff_graph s) a b) /\
  (forall fuel r, fordFulkerson fuel g = Ok r ->
     forall a, res (residualGraph r) a a = res g a a).
Proof.
  intros Hwf Hint.
  split.
  - intros s delta s' Hst Ha.
    destruct (augment_round s delta s' (ff_steps_base g s Hwf Hint Hst) Ha)
      as (p & c & Hbfs & Hc & Hch & Hnd & _ & _ & He & Hfr).
    exists p, (TARGET_NODE_ID :: c).
    split; [exact Hbfs|]. split; [exact Hc|]. split; [|exact Hfr].
    intros u v Hin. destruct (He u v Hin) as (_ & Hf & Hr).
    destruct (chain_edges_parent _ _ _ Hch u v Hin) as (Hpar & _).
    split; [exact Hpar|]. split; [apply (chain_edges_distinct _ Hnd u v Hin)|].
    split; [exact Hf|exact Hr].
  - intros fuel r Hr a.
    destruct (fordFulkerson_steps fuel g r Hr) as (s & Hst & _ & _ & ->).
    assert (Hgen : forall s0 s1, ff_steps s0 s1 -> ff_base s0 ->
              res (ff_graph s1) a a = res (ff_graph s0) a a).
    { intros s0 s1 H. induction H as [s0|s0 d s1 s2 H1 H2 IH]; intros Hb0;
        [reflexivity|].
      destruct (augment_step _ _ _ Hb0 H1) as (Hb1 & _).
      rewrite IH by exact Hb1.
      destruct (augment_round s0 d s1 Hb0 H1) as (p & c & _ & _ & _ & Hnd & _ & _ & _ & H).
      apply H; intros Hin;
        apply (chain_edges_distinct _ Hnd a a Hin); reflexivity. }
    apply (Hgen _ _ Hst (ff_base_init g Hwf Hint)).
Qed.

Lemma round_changes_path_only_witness :
  wf_graph main_graph /\ int_graph main_graph /\
  forall fuel r, fordFulkerson fuel main_graph = Ok r ->
     forall a, res (residualGraph r) a a = res main_graph a a.
Proof.
  assert (Hwf : wf_graph main_graph) by table_check.
  assert (Hint : int_graph main_graph) by table_check.
  split; [exact Hwf|]. split; [exact Hint|].
  exact (proj2 (round_changes_path_only main_graph Hwf Hint)).
Defined.

(** ** What a search writes *)

Lemma getId_set_parent p v0 x v :
  getId (nth v (set_parent p v0 x) no_node) = getId (nth v p no_node).
Proof.
  unfold set_parent. destruct (Nat.eq_dec v0 v) as [<-|Hne].
  - destruct (Nat.lt_ge_cases v0 (length p)) as [H|H].
    + rewrite nth_vec_set_eq by exact H. reflexivity.
    + rewrite !nth_overflow by (rewrite ?length_vec_set; lia). reflexivity.
  - rewrite nth_vec_set_neq by exact Hne. reflexivity.
Qed.

Lemma untouched_visit g p0 u st v :
  (v < NODE_COUNT)%nat -> untouched p0 st -> untouched p0 (visit g u st v).
Proof.
  intros Hvn (Hlt & Hs & p & Hp & Hlen & Hall). unfold visit.
  destruct (nth v (trav st) false) eqn:Hv; cbn [negb andb].
  - split; [exact Hlt|]. split; [exact Hs|]. exists p. auto.
  - destruct (0 <? res g u v);
      [|split; [exact Hlt|]; split; [exact Hs|]; exists p; auto].
    assert (Hvs : v <> SOURCE_NODE_ID) by (intros ->; congruence).
    split; [|split]; cbn [trav parents].
    + now rewrite length_vec_set.
    + rewrite nth_vec_set_neq by exact Hvs. exact Hs.
    + rewrite Hp. cbn [option_map]. eexists. split; [reflexivity|].
      split; [now rewrite length_set_parent|].
      intros w. destruct (Hall w) as [Hid Hpar]. split.
      * rewrite getId_set_parent. exact Hid.
      * intros Hw. destruct (Nat.eq_dec v w) as [<-|Hne].
        -- exfalso. destruct Hw as [Hw|Hw]; [|contradiction].
           rewrite nth_vec_set_eq in Hw by lia. discriminate.
        -- rewrite parent_of_set_neq by exact Hne. apply Hpar.
           rewrite nth_vec_set_neq in Hw by exact Hne. exact Hw.
Qed.

Lemma untouched_while g p0 : forall fuel st st',
  untouched p0 st -> bfs_while fuel g st = Ok st' -> untouched p0 st'.
Proof.
  assert (Hscan : forall u l st,
            (forall c, In c l -> (c < NODE_COUNT)%nat) -> untouched p0 st ->
            untouched p0 (fold_left (visit g u) l st)).
  { induction l as [|c l IH]; intros st Hl H; cbn [fold_left]; auto.
    apply IH; [intros; apply Hl; simpl; auto|].
    apply untouched_visit; auto. apply Hl; simpl; auto. }
  assert (Hseq : forall c, In c (seq 0 NODE_COUNT) -> (c < NODE_COUNT)%nat).
  { intros c Hc. apply in_seq in Hc. lia. }
  induction fuel as [|fuel IH]; intros st st' H Hrun; cbn [bfs_while] in Hrun.
  - destruct (bfs_q st); [|discriminate]. injection Hrun as <-. exact H.
  - destruct (bfs_q st) as [|u rest] eqn:Hq; [injection Hrun as <-; exact H|].
    refine (IH _ _ _ Hrun). apply Hscan; [exact Hseq|].
    destruct H as (H1 & H2 & H3). split; [exact H1|]. split; [exact H2|exact H3].
Qed.

(** X12. A search with parent tracking writes the parent ids of the nodes
    it reaches, and nothing else: the buffer keeps its length and the id of
    every entry; the entries of the nodes that are not reachable, and the
    entry of the source, keep the parent id they had on entry; and every
    other reachable node gets as parent a reachable node with an edge of
    positive residual capacity to it. *)
Theorem bfs_writes_reached_parents_only (g : graph_t) (path : path_t)
    (r : bfs_result) :
  wf_graph g -> length path = NODE_COUNT ->
  bfs g None None (Some path) = Ok r ->
  exists p,
    outPath_out r = Some p /\ length p = length path /\
    (forall v, getId (nth v p no_node) = getId (nth v path no_node)) /\
    (forall v, ~ reach g v \/ v = SOURCE_NODE_ID ->
               parent_of p v = parent_of path v) /\
    (forall v, reach g v -> v <> SOURCE_NODE_ID ->
               exists u, reach g u /\ parent_of p v = Z.of_nat u /\ 0 < res g u v).
Proof.
  intros _ Hlen Hb.
  destruct (bfs_tracking_run g path r Hlen Hb)
    as (st & order & p & Hrun & Hinv & Hcl & Hp & Hpl & ->).
  cbn [outPath_out].
  assert (H0 : untouched path (bfs_init (Some path))).
  { split; [|split]; unfold bfs_init; cbn [trav parents].
    - now rewrite length_vec_set, repeat_length.
    - apply nth_vec_set_eq. rewrite repeat_length. apply source_lt.
    - exists path. auto. }
  destruct (untouched_while g path _ _ _ H0 Hrun) as (_ & _ & p1 & Hp1 & Hl1 & Hall).
  rewrite Hp in Hp1. injection Hp1 as <-.
  pose proof (trav_reach _ _ _ Hinv Hcl) as Htr.
  exists p. split; [reflexivity|]. split; [exact Hl1|].
  split; [intros v; apply Hall|]. split.
  - intros v [Hv| ->]; apply Hall; [left|right; reflexivity].
    destruct (nth v (trav st) false) eqn:E; [|reflexivity].
    exfalso. apply Hv, Htr, E.
  - intros v Hv Hvs. apply Htr, (inv_trav _ _ _ Hinv) in Hv.
    destruct (in_split _ _ Hv) as (l1 & l2 & Heq).
    destruct (inv_parent _ _ _ Hinv p Hp) as [_ Hpar].
    destruct (Hpar l1 v l2 Heq) as (u & Hu & Hpu & Hpos).
    { intros ->. destruct (inv_head _ _ _ Hinv) as [rest Hrest].
      rewrite Hrest in Heq. simpl in Heq. congruence. }
    exists u. split; [|split; [exact Hpu|exact Hpos]].
    apply (inv_reach _ _ _ Hinv). rewrite Heq. apply in_or_app. left. exact Hu.
Qed.

Lemma bfs_writes_reached_parents_only_witness :
  exists r,
    wf_graph negative_graph /\ length init_path = NODE_COUNT /\
    bfs negative_graph None None (Some init_path) = Ok r /\
    exists p, outPath_out r = Some p /\ length p = length init_path.
Proof.
  destruct (bfs negative_graph None None (Some init_path)) as [r| |] eqn:Hb;
    try (vm_compute in Hb; discriminate Hb).
  assert (Hwf : wf_graph negative_graph) by table_check.
  exists r. split; [exact Hwf|]. split; [reflexivity|]. split; [reflexivity|].
  destruct (bfs_writes_reached_parents_only negative_graph init_path r Hwf eq_refl Hb)
    as (p & Hp & Hl & _).
  exists p. split; [exact Hp|exact Hl].
Defined.

(** ** The search goes level by level *)

Lemma StronglySorted_snoc {A} (R : A -> A -> Prop) l v :
  StronglySorted R l -> (forall w, In w l -> R w v) -> StronglySorted R (l ++ [v]).
Proof.
  induction 1 as [|a l Hl IH Ha]; intros Hv; cbn [app].
  - repeat constructor.
  - constructor.
    + apply IH. intros; apply Hv; simpl; auto.
    + apply Forall_app. split; [exact Ha|]. constructor; [|constructor].
      apply Hv. simpl; auto.
Qed.

Lemma StronglySorted_ext {A} (R R' : A -> A -> Prop) l :
  (forall a b, In a l -> In b l -> R a b -> R' a b) ->
  StronglySorted R l -> StronglySorted R' l.
Proof.
  intros H Hs. induction Hs as [|a l Hl IH Ha]; constructor.
  - apply IH. intros; apply H; simpl; auto.
  - rewrite Forall_forall in *. intros b Hb. apply H; simpl; auto.
Qed.

Lemma visit_level g d dn u st v :
  bfs_inv g (dn ++ u :: bfs_q st) st ->
  closed g dn (dn ++ u :: bfs_q st) ->
  level_inv g d dn u st -> (v < NODE_COUNT)%nat ->
  exists d', level_inv g d' dn u (visit g u st v).
Proof.
  intros Hinv Hcl Hlv Hv. unfold visit.
  destruct (nth v (trav st) false) eqn:Htv; cbn [negb andb]; [exists d; exact Hlv|].
  destruct (0 <? res g u v) eqn:Hpos; [|exists d; exact Hlv].
  apply Z.ltb_lt in Hpos.
  set (order := dn ++ u :: bfs_q st) in *.
  assert (Hnew : ~ In v order).
  { intros Hin. apply (inv_trav _ _ _ Hinv) in Hin. congruence. }
  assert (Hord : forall w, In w (dn ++ u :: bfs_q st ++ [v]) <-> In w order \/ w = v).
  { intros w. unfold order. rewrite !in_app_iff. simpl. rewrite in_app_iff. simpl.
    intuition. }
  set (d' := fun w => if Nat.eqb w v then S (d u) else d w).
  assert (Hd : forall w, In w order -> d' w = d w).
  { intros w Hw. unfold d'. destruct (Nat.eqb_spec w v) as [->|]; [contradiction|auto]. }
  assert (Hdv : d' v = S (d u)) by (unfold d'; now rewrite Nat.eqb_refl).
  assert (Hu : In u order) by (unfold order; apply in_or_app; simpl; auto).
  assert (Hq : forall w, In w (bfs_q st) -> In w order).
  { intros w Hw. unfold order. apply in_or_app. simpl. auto. }
  destruct Hlv as [Hs Hsort Hqu Hb Hdone Hpar].
  exists d'. split; cbn [bfs_q parents].
  - rewrite Hd; auto. destruct (inv_head _ _ _ Hinv) as [rest ->]. simpl; auto.
  - apply StronglySorted_snoc.
    + apply (StronglySorted_ext (fun a b => (d a <= d b)%nat)); auto.
      intros a b Ha Hb'. rewrite !Hd by auto. auto.
    + intros w Hw. rewrite Hdv, Hd by auto. apply Hb. auto.
  - intros w Hw. rewrite (Hd u Hu). apply in_app_or in Hw. destruct Hw as [Hw|[<-|[]]].
    + rewrite Hd by auto. auto.
    + rewrite Hdv. lia.
  - intros w Hw. rewrite (Hd u Hu). apply Hord in Hw. destruct Hw as [Hw| ->].
    + rewrite Hd by auto. auto.
    + rewrite Hdv. lia.
  - intros x w Hx Hw Hr. apply Hord in Hw.
    assert (Hxo : In x order) by (unfold order; apply in_or_app; auto).
    destruct Hw as [Hw| ->].
    + rewrite !Hd by auto. eauto.
    + exfalso. apply Hnew. apply (Hcl x v Hx Hv Hr).
  - intros p Hp w Hw Hws.
    destruct (parents st) as [p0|] eqn:Hp0; cbn [option_map] in Hp; [|discriminate].
    injection Hp as <-.
    destruct (inv_parent _ _ _ Hinv p0 Hp0) as [Hlen _].
    apply Hord in Hw. destruct Hw as [Hw| ->].
    + destruct (Hpar p0 eq_refl w Hw Hws) as (x & Hx1 & Hx2 & Hx3).
      exists x. rewrite parent_of_set_neq by (intros <-; contradiction).
      split; [exact Hx1|]. split; [apply Hord; auto|]. rewrite !Hd by auto. exact Hx3.
    + exists u. rewrite parent_of_set_eq by lia.
      split; [reflexivity|]. split; [apply Hord; auto|]. rewrite Hdv, Hd by auto.
      reflexivity.
Qed.

Lemma order_snoc {A} (dn : list A) u q new :
  dn ++ u :: (q ++ new) = (dn ++ u :: q) ++ new.
Proof. rewrite <- app_assoc. reflexivity. Qed.

Lemma scan_level g dn u cands : forall d st,
  (forall c, In c cands -> (c < NODE_COUNT)%nat) ->
  bfs_inv g (dn ++ u :: bfs_q st) st ->
  closed g dn (dn ++ u :: bfs_q st) ->
  level_inv g d dn u st ->
  exists d' new,
    bfs_q (fold_left (visit g u) cands st) = bfs_q st ++ new /\
    bfs_inv g (dn ++ u :: bfs_q st ++ new) (fold_left (visit g u) cands st) /\
    level_inv g d' dn u (fold_left (visit g u) cands st) /\
    (forall c, In c cands -> 0 < res g u c -> In c (dn ++ u :: bfs_q st ++ new)).
Proof.
  induction cands as [|a l IH]; intros d st Hc Hinv Hcl Hlv; cbn [fold_left].
  - exists d, []. rewrite app_nil_r.
    split; [reflexivity|]. split; [exact Hinv|]. split; [exact Hlv|]. intros c [].
  - assert (Hu : In u (dn ++ u :: bfs_q st)) by (apply in_or_app; simpl; auto).
    destruct (visit_level g d dn u st a Hinv Hcl Hlv) as [d1 Hlv1];
      [apply Hc; simpl; auto|].
    destruct (visit_inv g _ st u a Hinv Hu) as (new1 & Hq1 & Hinv1 & Ha);
      [apply Hc; simpl; auto|].
    rewrite <- order_snoc, <- Hq1 in Hinv1.
    destruct (IH d1 (visit g u st a)) as (d2 & new2 & Hq2 & Hinv2 & Hlv2 & Hl); auto.
    { intros c Hin; apply Hc; simpl; auto. }
    { intros x v Hx Hv Hr. rewrite Hq1, order_snoc. apply in_or_app. left.
      apply (Hcl x v Hx Hv Hr). }
    exists d2, (new1 ++ new2).
    rewrite Hq1 in Hq2, Hinv2, Hl. rewrite <- app_assoc in Hq2, Hinv2, Hl.
    split; [exact Hq2|]. split; [exact Hinv2|]. split; [exact Hlv2|].
    intros c [<-|Hin] Hr; [|auto].
    specialize (Ha Hr). rewrite app_assoc, order_snoc, order_snoc.
    apply in_or_app. left. rewrite <- order_snoc. rewrite <- order_snoc in Ha. exact Ha.
Qed.

Lemma while_level g : forall fuel d dn u st st',
  bfs_inv g (dn ++ u :: bfs_q st) st ->
  closed g dn (dn ++ u :: bfs_q st) ->
  level_inv g d dn u st ->
  bfs_while fuel g (scan g u st) = Ok st' ->
  exists d' order, levels_final g d' order st'.
Proof.
  induction fuel as [|fuel IH]; intros d dn u st st' Hinv Hcl Hlv Hrun.
  all: destruct (scan_level g dn u (seq 0 NODE_COUNT) d st) as
      (d1 & new & Hq & Hinv1 & Hlv1 & Hnb); auto;
    try (intros c Hc; apply in_seq in Hc; lia).
  all: fold (scan g u st) in Hq, Hinv1, Hlv1.
  all: rewrite <- Hq in Hinv1, Hnb.
  all: assert (Hcl1 : closed g (dn ++ [u]) (dn ++ u :: bfs_q (scan g u st))).
  1,3: intros x v Hx Hv Hr; apply in_app_or in Hx; destruct Hx as [Hx|[<-|[]]];
       [ rewrite Hq, order_snoc; apply in_or_app; left; apply (Hcl x v Hx Hv Hr)
       | apply Hnb; auto; apply in_seq; lia ].
  all: assert (Hfin : bfs_q (scan g u st) = [] ->
                      levels_final g d1 (dn ++ [u]) (scan g u st)).
  1,3: intros Hnil; destruct Hlv1 as [L1 L2 L3 L4 L5 L6];
       rewrite Hnil in Hinv1, Hcl1, L4, L5, L6;
       split; [exact Hinv1|exact Hcl1|exact L1| |exact L6];
       intros x v Hx Hv Hr; apply in_app_or in Hx; destruct Hx as [Hx|[<-|[]]];
       [ apply L5; auto | apply L4; auto ].
  - destruct (bfs_q (scan g u st)) as [|u' rest] eqn:Hqs.
    + cbn [bfs_while] in Hrun. rewrite Hqs in Hrun. injection Hrun as <-.
      exists d1, (dn ++ [u]). auto.
    + cbn [bfs_while] in Hrun. rewrite Hqs in Hrun. discriminate.
  - destruct (bfs_q (scan g u st)) as [|u' rest] eqn:Hqs.
    + cbn [bfs_while] in Hrun. rewrite Hqs in Hrun. injection Hrun as <-.
      exists d1, (dn ++ [u]). auto.
    + cbn [bfs_while] in Hrun. rewrite Hqs in Hrun.
      assert (Heq : (dn ++ [u]) ++ u' :: rest = dn ++ u :: u' :: rest)
        by (rewrite <- app_assoc; reflexivity).
      destruct Hlv1 as [L1 L2 L3 L4 L5 L6]. rewrite Hqs in L2, L3, L4, L5, L6.
      apply StronglySorted_inv in L2. destruct L2 as [L2 L2'].
      rewrite Forall_forall in L2'.
      assert (Huu : (d1 u <= d1 u')%nat) by (apply L3; simpl; auto).
      apply (IH d1 (dn ++ [u]) u' (mkBfs (trav (scan g u st)) rest
                                         (parents (scan g u st))) st');
        cbn [bfs_q]; [| |split; cbn [bfs_q parents]|exact Hrun].
      * rewrite Heq. destruct (scan g u st) as [tr q ps]; cbn [trav parents] in *.
        eapply bfs_inv_queue; eauto.
      * rewrite Heq. exact Hcl1.
      * exact L1.
      * exact L2.
      * exact L2'.
      * rewrite Heq. intros v Hv. specialize (L4 v Hv). lia.
      * rewrite Heq. intros x v Hx Hv Hr. apply in_app_or in Hx.
        destruct Hx as [Hx|[<-|[]]]; [apply L5; auto|apply L4; auto].
      * rewrite Heq. exact L6.
Qed.

Lemma bfs_levels g ps fuel st' :
  (forall p, ps = Some p -> length p = NODE_COUNT) ->
  bfs_while fuel g (bfs_init ps) = Ok st' ->
  exists d order, levels_final g d order st'.
Proof.
  intros Hp Hrun. destruct fuel as [|fuel]; [discriminate|].
  cbn [bfs_while bfs_init bfs_q trav parents] in Hrun.
  pose proof (bfs_init_inv g ps Hp) as Hinv. unfold bfs_init in Hinv.
  apply (while_level g fuel (fun _ => 0%nat) [] SOURCE_NODE_ID
           (mkBfs (vec_set (repeat false NODE_COUNT) SOURCE_NODE_ID true) [] ps) st');
    cbn [bfs_q app]; [| |split; cbn [bfs_q parents app]|exact Hrun].
  - eapply bfs_inv_queue; eauto.
  - intros x v [].
  - reflexivity.
  - constructor.
  - intros w [].
  - intros; lia.
  - intros x v [].
  - intros p _ v [<-|[]] Hv. contradiction.
Qed.

Lemma walk_level g d order st k v :
  levels_final g d order st -> walk g k v -> In v order /\ (d v <= k)%nat.
Proof.
  intros [Hinv Hcl Hs He Hp]. induction 1 as [|k u v Hw [IH1 IH2] Hv Hr].
  - split; [|lia]. destruct (inv_head _ _ _ Hinv) as [rest ->]. simpl; auto.
  - assert (Hin : In v order) by (apply (Hcl u v IH1 Hv Hr)).
    split; [exact Hin|]. specialize (He u v IH1 Hin Hr). lia.
Qed.

Lemma chain_level g d order st p c :
  levels_final g d order st -> parents st = Some p ->
  chain g p c -> incl c order -> length (chain_edges c) = d (hd 0%nat c).
Proof.
  intros [Hinv Hcl Hs He Hp] Hps. induction 1 as [|v u c Hv Hlt Hpar Hr Hc IH]; intros Hincl.
  - cbn [chain_edges length hd]. auto.
  - change (chain_edges (v :: u :: c)) with ((u, v) :: chain_edges (u :: c)).
    cbn [length hd]. cbn [hd] in IH.
    rewrite IH by (intros x Hx; apply Hincl; simpl; auto).
    destruct (Hp p Hps v) as (w & Hw1 & _ & Hw3); [apply Hincl; simpl; auto|exact Hv|].
    rewrite Hpar in Hw1. apply Nat2Z.inj in Hw1. subst w. auto.
Qed.

Lemma chain_walk g p c :
  chain g p c -> walk g (length (chain_edges c)) (hd 0%nat c).
Proof.
  induction 1 as [|v u c Hv Hlt Hpar Hr Hc IH].
  - constructor.
  - change (chain_edges (v :: u :: c)) with ((u, v) :: chain_edges (u :: c)).
    cbn [length hd]. cbn [hd] in IH. eapply walk_step; eauto.
Qed.

Lemma bfs_tracking_levels g (path : path_t) r :
  length path = NODE_COUNT ->
  bfs g None None (Some path) = Ok r ->
  exists st order p d,
    levels_final g d order st /\ parents st = Some p /\
    r = mkBfsResult (nth TARGET_NODE_ID (trav st) false) None None (Some p).
Proof.
  intros Hlen Hb.
  destruct (bfs_tracking_run g path r Hlen Hb)
    as (st & order & p & Hrun & _ & _ & Hp & _ & Hr).
  destruct (bfs_levels g (Some path) NODE_COUNT st) as (d & order' & Hlf); auto.
  { intros q [= <-]; auto. }
  exists st, order', p, d. auto.
Qed.

Lemma levels_shortest g d order st p :
  levels_final g d order st -> parents st = Some p ->
  nth TARGET_NODE_ID (trav st) false = true ->
  exists c, parent_chain NODE_COUNT p TARGET_NODE_ID = Ok (TARGET_NODE_ID :: c) /\
            chain g p (TARGET_NODE_ID :: c) /\
            walk g (length (chain_edges (TARGET_NODE_ID :: c))) TARGET_NODE_ID /\
            forall k, walk g k TARGET_NODE_ID ->
                      (length (chain_edges (TARGET_NODE_ID :: c)) <= k)%nat.
Proof.
  intros Hlf Hp Ht.
  destruct (bfs_target_chain g order st p (lf_inv _ _ _ _ Hlf) Hp Ht)
    as (c & Hc & Hch & _ & Hincl).
  exists c. split; [exact Hc|]. split; [exact Hch|]. split.
  - apply (chain_walk g p _ Hch).
  - intros k Hw. rewrite (chain_level g d order st p _ Hlf Hp Hch Hincl).
    cbn [hd]. apply (walk_level g d order st k _ Hlf Hw).
Qed.

Lemma chain_is_path g p c :
  chain g p (TARGET_NODE_ID :: c) -> augmenting_path g (TARGET_NODE_ID :: c).
Proof.
  intros Hch. split; [reflexivity|]. split; [apply (chain_last _ _ _ _ Hch)|].
  split; [apply (chain_range _ _ _ Hch)|].
  intros u v Hin. apply (chain_edges_parent _ _ _ Hch u v Hin).
Qed.

(** A path has a walk of its length. *)
Lemma path_walk g d : forall c,
  c <> [] -> last c d = SOURCE_NODE_ID ->
  (forall v, In v c -> (v < NODE_COUNT)%nat) ->
  (forall u v, In (u, v) (chain_edges c) -> 0 < res g u v) ->
  walk g (length (chain_edges c)) (hd d c).
Proof.
  induction c as [|v c IH]; intros Hne Hlast Hr He; [congruence|].
  destruct c as [|u c].
  - cbn [last] in Hlast. subst v. constructor.
  - change (chain_edges (v :: u :: c)) with ((u, v) :: chain_edges (u :: c)) in *.
    cbn [length hd].
    apply (walk_step g _ u v).
    + apply (IH ltac:(discriminate)).
      * exact Hlast.
      * intros w Hw. apply Hr. right. exact Hw.
      * intros a b Hin. apply He. right. exact Hin.
    + apply Hr. left. reflexivity.
    + apply He. left. reflexivity.
Qed.

Lemma augmenting_path_walk g c :
  augmenting_path g c -> walk g (length (chain_edges c)) TARGET_NODE_ID.
Proof.
  intros (Hhd & Hlast & Hr & He).
  destruct c as [|v c]; [discriminate|]. injection Hhd as ->.
  apply (path_walk g TARGET_NODE_ID (TARGET_NODE_ID :: c)); auto. discriminate.
Qed.

(** X13. The path handed back by a successful search is a shortest one:
    the parent chain from the sink, read off the returned buffer, is an
    augmenting path (it starts at the sink, ends at the source, and every
    edge (parent, child) of it has positive residual capacity), and no
    augmenting path, nor any walk from the source to the sink along edges
    of positive residual capacity, has fewer edges. *)
Theorem bfs_path_is_shortest (g : graph_t) (path : path_t) (r : bfs_result) :
  wf_graph g -> length path = NODE_COUNT ->
  bfs g None None (Some path) = Ok r -> reached r = true ->
  exists p c,
    outPath_out r = Some p /\
    parent_chain NODE_COUNT p TARGET_NODE_ID = Ok c /\
    augmenting_path g c /\
    (forall u v, In (u, v) (chain_edges c) -> parent_of p v = Z.of_nat u) /\
    (forall c', augmenting_path g c' ->
                (length (chain_edges c) <= length (chain_edges c'))%nat) /\
    (forall k, walk g k TARGET_NODE_ID -> (length (chain_edges c) <= k)%nat).
Proof.
  intros _ Hlen Hb Hr.
  destruct (bfs_tracking_levels g path r Hlen Hb) as (st & order & p & d & Hlf & Hp & ->).
  cbn [reached] in Hr. cbn [outPath_out].
  destruct (levels_shortest g d order st p Hlf Hp Hr) as (c & Hc & Hch & _ & Hmin).
  exists p, (TARGET_NODE_ID :: c).
  split; [reflexivity|]. split; [exact Hc|]. split; [apply (chain_is_path g p c Hch)|].
  split; [|split; [|exact Hmin]].
  - intros u v Hin. apply (chain_edges_parent _ _ _ Hch u v Hin).
  - intros c' Hc'. apply Hmin, augmenting_path_walk, Hc'.
Qed.

Lemma bfs_path_is_shortest_witness :
  exists r,
    wf_graph main_graph /\ length init_path = NODE_COUNT /\
    bfs main_graph None None (Some init_path) = Ok r /\ reached r = true /\
    exists p c,
      outPath_out r = Some p /\
      parent_chain NODE_COUNT p TARGET_NODE_ID = Ok c /\
      augmenting_path main_graph c.
Proof.
  destruct (bfs main_graph None None (Some init_path)) as [r| |] eqn:Hb;
    try (vm_compute in Hb; discriminate Hb).
  assert (Hr : reached r = true) by (vm_compute in Hb; injection Hb as <-; reflexivity).
  assert (Hwf : wf_graph main_graph) by table_check.
  exists r. split; [exact Hwf|]. split; [reflexivity|]. split; [reflexivity|].
  split; [exact Hr|].
  destruct (bfs_path_is_shortest main_graph init_path r Hwf eq_refl Hb Hr)
    as (p & c & Hp & Hc & Hw & _).
  exists p, c. auto.
Defined.

(** X14. Every round of [fordFulkerson] pushes its flow along a shortest
    augmenting path of the residual table of that round (the rule of
    Edmonds and Karp), whatever the capacities: the parent chain returned
    by the search of the round is an augmenting path of that table, every
    edge of it loses the bottleneck, and no augmenting path of the table,
    nor any walk from the source to the sink along edges of positive
    residual capacity, has fewer edges. *)
Theorem round_follows_a_shortest_path (g : graph_t) (s s' : ff_state) (delta : Z) :
  wf_graph g -> int_graph g -> ff_steps (ff_init g) s ->
  augment s = Ok (Some (delta, s')) ->
  exists p c,
    bfs (ff_graph s) None None (Some (ff_path s))
    = Ok (mkBfsResult true None None (Some p)) /\
    parent_chain NODE_COUNT p TARGET_NODE_ID = Ok c /\
    augmenting_path (ff_graph s) c /\
    ff_graph s' = push_chain delta c (ff_graph s) /\
    (forall u v, In (u, v) (chain_edges c) ->
       parent_of p v = Z.of_nat u /\
       0 < delta <= res (ff_graph s) u v /\
       res (ff_graph s') u v = res (ff_graph s) u v - delta) /\
    (forall c', augmenting_path (ff_graph s) c' ->
                (length (chain_edges c) <= length (chain_edges c'))%nat) /\
    (forall k, walk (ff_graph s) k TARGET_NODE_ID ->
               (length (chain_edges c) <= k)%nat).
Proof.
  intros Hwf Hint Hst Ha.
  pose proof (ff_steps_base g s Hwf Hint Hst) as Hbase.
  destruct (augment_round s delta s' Hbase Ha)
    as (p & c & Hb & Hc & Hch & _ & _ & Hg & He & _).
  destruct Hbase as (_ & _ & Hlen).
  destruct (bfs_tracking_levels _ _ _ Hlen Hb) as (st & order & p' & d & Hlf & Hp & Hr).
  injection Hr as Ht <-. symmetry in Ht.
  destruct (levels_shortest _ d order st p Hlf Hp Ht) as (c' & Hc' & _ & _ & Hmin).
  rewrite Hc in Hc'. injection Hc' as <-.
  exists p, (TARGET_NODE_ID :: c).
  split; [exact Hb|]. split; [exact Hc|]. split; [apply (chain_is_path _ p c Hch)|].
  split; [exact Hg|]. split; [|split; [|exact Hmin]].
  - intros u v Hin. destruct (He u v Hin) as (Hd & Hf & _).
    destruct (chain_edges_parent _ _ _ Hch u v Hin) as (Hpar & _).
    split; [exact Hpar|]. split; [exact Hd|exact Hf].
  - intros c1 Hc1. apply Hmin, augmenting_path_walk, Hc1.
Qed.

Lemma round_follows_a_shortest_path_witness :
  exists s',
    wf_graph main_graph /\ int_graph main_graph /\
    ff_steps (ff_init main_graph) (ff_init main_graph) /\
    augment (ff_init main_graph) = Ok (Some (4, s')) /\
    exists p c,
      parent_chain NODE_COUNT p TARGET_NODE_ID = Ok c /\
      augmenting_path main_graph c /\
      ff_graph s' = push_chain 4 c main_graph.
Proof.
  destruct (augment (ff_init main_graph)) as [[[d s']|]| |] eqn:Ha;
    try (vm_compute in Ha; discriminate Ha).
  assert (Hd : d = 4) by (vm_compute in Ha; congruence). subst d.
  assert (Hwf : wf_graph main_graph) by table_check.
  assert (Hint : int_graph main_graph) by table_check.
  exists s'. split; [exact Hwf|]. split; [exact Hint|].
  split; [apply ff_steps_refl|]. split; [reflexivity|].
  destruct (round_follows_a_shortest_path main_graph (ff_init main_graph) s' 4 Hwf Hint
              (ff_steps_refl _) Ha) as (p & c & _ & Hc & Hpath & Hg & _).
  exists p, c. auto.
Defined.

(** ** The table [main] builds *)

Lemma wf_set_cap g u v c : wf_graph g -> wf_graph (set_cap g u v c).
Proof. apply wf_edge_put. Qed.

Lemma cap_set_cap_eq g u v c :
  wf_graph g -> (u < NODE_COUNT)%nat -> (v < NODE_COUNT)%nat ->
  cap (set_cap g u v c) u v = c.
Proof.
  intros. unfold cap, set_cap. rewrite edge_at_put_eq; auto.
Qed.

Lemma cap_set_cap_neq g u v c u' v' :
  u <> u' \/ v <> v' -> cap (set_cap g u v c) u' v' = cap g u' v'.
Proof.
  intros. unfold cap, set_cap. rewrite edge_at_put_neq; auto.
Qed.

Lemma res_set_cap g u v c u' v' : res (set_cap g u v c) u' v' = res g u' v'.
Proof.
  unfold res, set_cap.
  destruct (Nat.eq_dec u u') as [<-|Hu]; [destruct (Nat.eq_dec v v') as [<-|Hv]|].
  2,3: rewrite edge_at_put_neq; auto.
  unfold edge_at, edge_put.
  destruct (Nat.lt_ge_cases u (length g)) as [Hu|Hu].
  - rewrite (nth_vec_set_eq g) by auto.
    destruct (Nat.lt_ge_cases v (length (nth u g []))) as [Hv|Hv].
    + rewrite nth_vec_set_eq by auto. reflexivity.
    + rewrite (nth_overflow (vec_set _ _ _)) by (rewrite length_vec_set; lia).
      rewrite (nth_overflow (nth u g [])) by lia. reflexivity.
  - rewrite (nth_overflow (vec_set _ _ _)) by (rewrite length_vec_set; lia).
    rewrite (nth_overflow g) by lia. reflexivity.
Qed.

Lemma wf_empty_graph : wf_graph empty_graph.
Proof. apply wf_graphb_sound. reflexivity. Qed.

Lemma empty_graph_zero u v : res empty_graph u v = 0 /\ cap empty_graph u v = 0.
Proof.
  destruct (Nat.lt_ge_cases u NODE_COUNT) as [Hu|Hu];
    [destruct (Nat.lt_ge_cases v NODE_COUNT) as [Hv|Hv]|].
  - unfold NODE_COUNT in Hu, Hv.
    do 6 (destruct u as [|u]; [do 6 (destruct v as [|v]; [split; reflexivity|]); lia|]).
    lia.
  - unfold res, cap, edge_at.
    rewrite (nth_overflow (nth u empty_graph [])); [split; reflexivity|].
    rewrite (wf_graph_row _ _ wf_empty_graph Hu). exact Hv.
  - unfold res, cap, edge_at.
    rewrite (nth_overflow empty_graph) by (destruct wf_empty_graph as [-> _]; exact Hu).
    destruct v; split; reflexivity.
Qed.

Lemma fold_set_res : forall edges g,
  wf_graph g ->
  (forall u v c, In (u, v, c) edges -> (u < NODE_COUNT)%nat /\ (v < NODE_COUNT)%nat) ->
  let g' := fold_left (fun g '(u, v, c) => set_res g u v c) edges g in
  wf_graph g' /\
  forall u v, res g' u v = fold_left (pick u v) edges (res g u v) /\
              cap g' u v = cap g u v.
Proof.
  induction edges as [|[[a b] c] l IH]; intros g Hwf Hr; cbn [fold_left].
  - split; auto.
  - destruct (Hr a b c) as [Ha Hb]; [simpl; auto|].
    destruct (IH (set_res g a b c)) as [Hwf' H'].
    { apply wf_set_res, Hwf. }
    { intros u v c' Hin. apply (Hr u v c'). simpl; auto. }
    split; [exact Hwf'|]. intros u v. destruct (H' u v) as [H1 H2].
    rewrite H1, H2, cap_set_res. split; [|reflexivity].
    f_equal. unfold pick.
    destruct (Nat.eqb_spec a u) as [->|Hau]; [destruct (Nat.eqb_spec b v) as [->|Hbv]|];
      cbn [andb].
    + apply res_set_res_eq; auto.
    + apply res_set_res_neq; auto.
    + apply res_set_res_neq; auto.
Qed.

Lemma fold_set_cap : forall edges g,
  wf_graph g ->
  (forall u v c, In (u, v, c) edges -> (u < NODE_COUNT)%nat /\ (v < NODE_COUNT)%nat) ->
  let g' := fold_left (fun g '(u, v, c) => set_cap g u v c) edges g in
  wf_graph g' /\
  forall u v, cap g' u v = fold_left (pick u v) edges (cap g u v) /\
              res g' u v = res g u v.
Proof.
  induction edges as [|[[a b] c] l IH]; intros g Hwf Hr; cbn [fold_left].
  - split; auto.
  - destruct (Hr a b c) as [Ha Hb]; [simpl; auto|].
    destruct (IH (set_cap g a b c)) as [Hwf' H'].
    { apply wf_set_cap, Hwf. }
    { intros u v c' Hin. apply (Hr u v c'). simpl; auto. }
    split; [exact Hwf'|]. intros u v. destruct (H' u v) as [H1 H2].
    rewrite H1, H2, res_set_cap. split; [|reflexivity].
    f_equal. unfold pick.
    destruct (Nat.eqb_spec a u) as [->|Hau]; [destruct (Nat.eqb_spec b v) as [->|Hbv]|];
      cbn [andb].
    + apply cap_set_cap_eq; auto.
    + apply cap_set_cap_neq; auto.
    + apply cap_set_cap_neq; auto.
Qed.

Lemma pick_none u v : forall edges a,
  (forall c, ~ In (u, v, c) edges) -> fold_left (pick u v) edges a = a.
Proof.
  induction edges as [|[[x y] c] l IH]; intros a Hn; cbn [fold_left]; auto.
  rewrite IH by (intros c' Hin; apply (Hn c'); simpl; auto).
  unfold pick.
  destruct (Nat.eqb_spec x u) as [->|]; [destruct (Nat.eqb_spec y v) as [->|]|];
    cbn [andb]; auto.
  exfalso. apply (Hn c). simpl; auto.
Qed.

Lemma pick_all u v c : forall edges,
  (forall c', In (u, v, c') edges -> c' = c) -> fold_left (pick u v) edges c = c.
Proof.
  induction edges as [|[[x y] c0] l IH]; intros Hn; cbn [fold_left]; auto.
  assert (E : pick u v c (x, y, c0) = c).
  { unfold pick.
    destruct (Nat.eqb_spec x u) as [->|]; [destruct (Nat.eqb_spec y v) as [->|]|];
      cbn [andb]; auto.
    apply Hn. simpl; auto. }
  rewrite E. apply IH. intros c' Hin. apply Hn. simpl; auto.
Qed.

Lemma pick_same u v c : forall edges a,
  In (u, v, c) edges -> (forall c', In (u, v, c') edges -> c' = c) ->
  fold_left (pick u v) edges a = c.
Proof.
  induction edges as [|[[x y] c0] l IH]; intros a Hin Hn; [destruct Hin|].
  cbn [fold_left].
  assert (Hl : forall c', In (u, v, c') l -> c' = c)
    by (intros c' H; apply Hn; simpl; auto).
  destruct Hin as [E|Hin].
  - injection E as -> -> ->. unfold pick at 2. rewrite !Nat.eqb_refl. cbn [andb].
    apply pick_all, Hl.
  - apply IH; auto.
Qed.

(** X15. The table built as [main] builds it - an empty table, then the
    residual capacity and then the original capacity of every listed edge -
    is a NODE_COUNT x NODE_COUNT table in which the residual capacity of
    every pair equals its original capacity: the capacity listed for the
    pair if it is listed (with one value), and 0 if it is not. *)
Theorem graph_of_table (edges : list (nat * nat * Z)) :
  (forall u v c, In (u, v, c) edges -> (u < NODE_COUNT)%nat /\ (v < NODE_COUNT)%nat) ->
  wf_graph (graph_of edges) /\ fresh (graph_of edges) /\
  (forall u v c, In (u, v, c) edges ->
                 (forall c', In (u, v, c') edges -> c' = c) ->
                 cap (graph_of edges) u v = c) /\
  (forall u v, (forall c, ~ In (u, v, c) edges) -> cap (graph_of edges) u v = 0).
Proof.
  intros Hr. unfold graph_of.
  destruct (fold_set_res edges empty_graph wf_empty_graph Hr) as [Hwf1 H1].
  destruct (fold_set_cap edges _ Hwf1 Hr) as [Hwf2 H2].
  assert (Hcap : forall u v,
            cap (fold_left (fun g '(u, v, c) => set_cap g u v c) edges
                   (fold_left (fun g '(u, v, c) => set_res g u v c) edges empty_graph))
                u v = fold_left (pick u v) edges 0).
  { intros u v. destruct (H2 u v) as [E _]. rewrite E.
    destruct (H1 u v) as [_ ->]. destruct (empty_graph_zero u v) as [_ ->]. reflexivity. }
  split; [exact Hwf2|]. split; [|split].
  - intros u v. rewrite Hcap. destruct (H2 u v) as [_ ->].
    destruct (H1 u v) as [-> _]. destruct (empty_graph_zero u v) as [-> _]. reflexivity.
  - intros u v c Hin Hall. rewrite Hcap. apply pick_same; auto.
  - intros u v Hn. rewrite Hcap. apply pick_none; auto.
Qed.

Lemma graph_of_table_witness :
  (forall u v c, In (u, v, c) main_edges ->
                 (u < NODE_COUNT)%nat /\ (v < NODE_COUNT)%nat) /\
  wf_graph (graph_of main_edges) /\ fresh (graph_of main_edges).
Proof.
  assert (Hr : forall u v c, In (u, v, c) main_edges ->
                             (u < NODE_COUNT)%nat /\ (v < NODE_COUNT)%nat).
  { intros u v c H. unfold main_edges, edge_of in H. cbn [In] in H.
    repeat (destruct H as [H|H];
            [injection H as <- <- <-; unfold NODE_COUNT; lia|]).
    destruct H. }
  split; [exact Hr|].
  destruct (graph_of_table main_edges Hr) as (Hwf & Hf & _).
  split; [exact Hwf|exact Hf].
Defined.

(** ** Edges out of the source and into the sink *)

Lemma chain_edges_parent_tail v c a b : In (a, b) (chain_edges (v :: c)) -> In a c.
Proof.
  destruct c as [|u c]; intros H; [destruct H|].
  change (chain_edges (v :: u :: c)) with ((u, v) :: chain_edges (u :: c)) in H.
  destruct H as [[= <- <-]|H]; [simpl; auto|].
  apply chain_edges_in in H. tauto.
Qed.

(** A round lowers or keeps every entry that is not the reverse of an edge
    of its path. *)
Lemma round_lowers s delta s' :
  ff_base s -> augment s = Ok (Some (delta, s')) ->
  exists p c,
    parent_chain NODE_COUNT p TARGET_NODE_ID = Ok (TARGET_NODE_ID :: c) /\
    chain (ff_graph s) p (TARGET_NODE_ID :: c) /\ NoDup (TARGET_NODE_ID :: c) /\
    forall a b, ~ In (b, a) (chain_edges (TARGET_NODE_ID :: c)) ->
      res (ff_graph s') a b <= res (ff_graph s) a b /\
      (0 <= res (ff_graph s) a b -> 0 <= res (ff_graph s') a b).
Proof.
  intros (Hwf & Hint & Hlen) Haug.
  destruct (augment_spec s Hlen) as [[H _]|(p & c & Hpl & Hb & Hc & Hch & Hnd & H)];
    rewrite H in Haug; [discriminate|].
  injection Haug as <- <-. cbn [ff_graph].
  exists p, c. split; [exact Hc|]. split; [exact Hch|]. split; [exact Hnd|].
  set (tc := TARGET_NODE_ID :: c) in *. set (g := ff_graph s) in *.
  pose proof (chain_range _ _ _ Hch) as Hrange.
  pose proof (bottleneck_pos _ _ _ Hch) as Hpos.
  assert (Hdec : forall x y : nat * nat, {x = y} + {x <> y})
    by (decide equality; apply Nat.eq_dec).
  intros a b Hrev.
  destruct (in_dec Hdec (a, b) (chain_edges tc)) as [He|He].
  - pose proof (bottleneck_le g tc _ He) as Hle. cbn [fst snd] in Hle.
    destruct (push_chain_edge (bottleneck g tc) tc g Hwf Hnd Hrange a b He) as [Hf _].
    destruct (Hint a b) as [[_ Hmax] _].
    rewrite Hf, int_sub_exact by (unfold is_int, INT_MIN; lia). lia.
  - rewrite push_chain_other by auto. lia.
Qed.

(** Between two states of the loop, the entries of the source's row and of
    the sink's column only go down, and not below 0. *)
Lemma steps_source_sink (s0 s1 : ff_state) (v : nat) :
  ff_steps s0 s1 -> ff_base s0 ->
  res (ff_graph s1) SOURCE_NODE_ID v <= res (ff_graph s0) SOURCE_NODE_ID v /\
  (0 <= res (ff_graph s0) SOURCE_NODE_ID v ->
   0 <= res (ff_graph s1) SOURCE_NODE_ID v) /\
  res (ff_graph s1) v TARGET_NODE_ID <= res (ff_graph s0) v TARGET_NODE_ID /\
  (0 <= res (ff_graph s0) v TARGET_NODE_ID ->
   0 <= res (ff_graph s1) v TARGET_NODE_ID).
Proof.
  intros H. induction H as [s0|s0 d s1 s2 H1 H2 IH]; intros Hb0.
  - repeat split; auto; lia.
  - destruct (augment_step _ _ _ Hb0 H1) as (Hb1 & _).
    destruct (IH Hb1) as (I1 & I2 & I3 & I4).
    destruct (round_lowers s0 d s1 Hb0 H1) as (p & c & _ & Hch & Hnd & Hlow).
    destruct (Hlow SOURCE_NODE_ID v) as [L1 L2].
    { intros Hin. apply (chain_edges_parent _ _ _ Hch) in Hin.
      destruct Hin as (_ & _ & _ & Hne & _). apply Hne. reflexivity. }
    destruct (Hlow v TARGET_NODE_ID) as [L3 L4].
    { intros Hin. apply chain_edges_parent_tail in Hin.
      apply NoDup_cons_iff in Hnd. tauto. }
    repeat split; try lia; auto.
Qed.

(** X16. [fordFulkerson] never gives capacity back to an edge out of the
    source or into the sink: in every state of the loop the residual
    capacity of such an edge is at most what it was in the input, and not
    negative if it was not negative there, whatever the capacities. *)
Theorem source_and_sink_edges_only_fill (g : graph_t) (s : ff_state) :
  wf_graph g -> int_graph g -> ff_steps (ff_init g) s ->
  forall v,
    res (ff_graph s) SOURCE_NODE_ID v <= res g SOURCE_NODE_ID v /\
    (0 <= res g SOURCE_NODE_ID v -> 0 <= res (ff_graph s) SOURCE_NODE_ID v) /\
    res (ff_graph s) v TARGET_NODE_ID <= res g v TARGET_NODE_ID /\
    (0 <= res g v TARGET_NODE_ID -> 0 <= res (ff_graph s) v TARGET_NODE_ID).
Proof.
  intros Hwf Hint Hst v.
  apply (steps_source_sink (ff_init g) s v Hst (ff_base_init g Hwf Hint)).
Qed.

Lemma source_and_sink_edges_only_fill_witness :
  exists s,
    wf_graph antiparallel_graph /\ int_graph antiparallel_graph /\
    ff_steps (ff_init antiparallel_graph) s /\
    res (ff_graph s) SOURCE_NODE_ID 1 <= res antiparallel_graph SOURCE_NODE_ID 1.
Proof.
  destruct (augment (ff_init antiparallel_graph)) as [[[d s]|]| |] eqn:Ha;
    try (vm_compute in Ha; discriminate Ha).
  assert (Hwf : wf_graph antiparallel_graph) by table_check.
  assert (Hint : int_graph antiparallel_graph) by table_check.
  assert (Hst : ff_steps (ff_init antiparallel_graph) s).
  { eapply ff_steps_next; [exact Ha|apply ff_steps_refl]. }
  exists s. split; [exact Hwf|]. split; [exact Hint|]. split; [exact Hst|].
  apply (source_and_sink_edges_only_fill antiparallel_graph s Hwf Hint Hst 1%nat).
Defined.

(** ** The printed flows *)

Lemma fordFulkerson_flows fuel g r :
  fordFulkerson fuel g = Ok r -> flows_out r = printed_flows (residualGraph r).
Proof.
  unfold fordFulkerson.
  destruct (ff_loop fuel (mkFF g init_path 0)) as [s| |]; cbn [bind]; try discriminate.
  intros [= <-]. reflexivity.
Qed.

(** An edge of capacity 0 out of the source or into the sink carries no
    flow. *)
Lemma no_capacity_no_flow (g : graph_t) (s : ff_state) :
  wf_graph g -> int_graph g -> fresh g -> nonneg_caps g -> pair_bound g ->
  ff_steps (ff_init g) s ->
  forall v,
    (cap g SOURCE_NODE_ID v = 0 -> edge_flow (ff_graph s) SOURCE_NODE_ID v = 0) /\
    (cap g v TARGET_NODE_ID = 0 -> edge_flow (ff_graph s) v TARGET_NODE_ID = 0).
Proof.
  intros Hwf Hint Hf Hnn Hpb Hst v.
  destruct (ff_steps_flow_inv g s Hwf Hint Hf Hnn Hpb Hst)
    as [(_ & Hi & _) [Hcore Hcaps _ _]].
  pose proof (ff_steps_cap _ _ Hst (ff_base_init g Hwf Hint)) as Hcap.
  cbn [ff_init ff_graph] in Hcap.
  destruct (steps_source_sink (ff_init g) s v Hst (ff_base_init g Hwf Hint))
    as (H1 & _ & H2 & _).
  cbn [ff_init ff_graph] in H1, H2.
  pose proof (core_nonneg _ Hcore SOURCE_NODE_ID v) as N1.
  pose proof (core_nonneg _ Hcore v TARGET_NODE_ID) as N2.
  rewrite !edge_flow_exact by auto.
  rewrite !Hcap. rewrite !Hf in H1, H2. split; intros E; lia.
Qed.

(** X17. On a table filled as [main] fills it, with non-negative capacities
    small enough for [int]: if the source has no edges but those to w, x and
    z, the first three numbers [fordFulkerson] prints add up to the value it
    returns; if the sink has no edges but those from w, z and y, so do the
    fifth, the tenth and the eleventh. *)
Theorem printed_flows_add_up (g : graph_t) (fuel : nat) (r : ff_result) :
  wf_graph g -> int_graph g -> fresh g -> nonneg_caps g ->
  pair_bound g -> source_bound g ->
  fordFulkerson fuel g = Ok r ->
  let f := map snd (flows_out r) in
  ((forall v, cap g SOURCE_NODE_ID v = 0 \/ v = 1%nat \/ v = 2%nat \/ v = 3%nat) ->
   max_flow r = nth 0 f 0 + nth 1 f 0 + nth 2 f 0) /\
  ((forall v, cap g v TARGET_NODE_ID = 0 \/ v = 1%nat \/ v = 3%nat \/ v = 4%nat) ->
   max_flow r = nth 4 f 0 + nth 9 f 0 + nth 10 f 0).
Proof.
  intros Hwf Hint Hf Hnn Hpb Hsb Hr.
  rewrite (fordFulkerson_flows fuel g r Hr).
  destruct (fordFulkerson_steps fuel g r Hr) as (s & Hst & _ & -> & ->).
  destruct (ff_steps_value_at_ends g s Hwf Hint Hf Hnn Hpb Hsb Hst) as [Hs Ht].
  pose proof (no_capacity_no_flow g s Hwf Hint Hf Hnn Hpb Hst) as Hz.
  unfold nodes, NODE_COUNT in Hs, Ht. cbn [seq sumZ fold_right] in Hs, Ht.
  unfold printed_flows. cbn [map snd nth]. unfold SOURCE_NODE_ID, TARGET_NODE_ID in *.
  split; intros Hc.
  - destruct (Hz 0%nat) as [Z0 _]. destruct (Hz 4%nat) as [Z4 _].
    destruct (Hz 5%nat) as [Z5 _].
    rewrite Z0, Z4, Z5 in Hs; [lia| | |].
    + destruct (Hc 5%nat) as [E|[E|[E|E]]]; [exact E|discriminate E..].
    + destruct (Hc 4%nat) as [E|[E|[E|E]]]; [exact E|discriminate E..].
    + destruct (Hc 0%nat) as [E|[E|[E|E]]]; [exact E|discriminate E..].
  - destruct (Hz 0%nat) as [_ Z0]. destruct (Hz 2%nat) as [_ Z2].
    destruct (Hz 5%nat) as [_ Z5].
    rewrite Z0, Z2, Z5 in Ht; [lia| | |].
    + destruct (Hc 5%nat) as [E|[E|[E|E]]]; [exact E|discriminate E..].
    + destruct (Hc 2%nat) as [E|[E|[E|E]]]; [exact E|discriminate E..].
    + destruct (Hc 0%nat) as [E|[E|[E|E]]]; [exact E|discriminate E..].
Qed.

Lemma printed_flows_add_up_witness :
  exists r,
    wf_graph main_graph /\ int_graph main_graph /\ fresh main_graph /\
    nonneg_caps main_graph /\ pair_bound main_graph /\ source_bound main_graph /\
    fordFulkerson 5 main_graph = Ok r /\
    (forall v, cap main_graph SOURCE_NODE_ID v = 0 \/
               v = 1%nat \/ v = 2%nat \/ v = 3%nat) /\
    max_flow r = nth 0 (map snd (flows_out r)) 0 + nth 1 (map snd (flows_out r)) 0
                 + nth 2 (map snd (flows_out r)) 0.
Proof.
  destruct (fordFulkerson 5 main_graph) as [r| |] eqn:Hr;
    try (vm_compute in Hr; discriminate Hr).
  assert (Hwf : wf_graph main_graph) by table_check.
  assert (Hint : int_graph main_graph) by table_check.
  assert (Hf : fresh main_graph) by table_check.
  assert (Hnn : nonneg_caps main_graph) by table_check.
  assert (Hpb : pair_bound main_graph) by table_check.
  assert (Hsb : source_bound main_graph) by (vm_compute; discriminate).
  assert (Hc : forall v, cap main_graph SOURCE_NODE_ID v = 0 \/
                         v = 1%nat \/ v = 2%nat \/ v = 3%nat).
  { intros v. do 6 (destruct v as [|v]; [vm_compute; tauto|]).
    left. unfold cap, edge_at, SOURCE_NODE_ID.
    rewrite (nth_overflow (nth 0 main_graph [])); [reflexivity|].
    vm_compute. lia. }
  exists r. split; [exact Hwf|]. split; [exact Hint|]. split; [exact Hf|].
  split; [exact Hnn|]. split; [exact Hpb|]. split; [exact Hsb|].
  split; [reflexivity|]. split; [exact Hc|].
  apply (printed_flows_add_up main_graph 5 r Hwf Hint Hf Hnn Hpb Hsb Hr), Hc.
Defined.
